(** * Test-day model post-processing: a shallow embedding of
      [am_tdm/testday_model.py]

    The Python class [TestDayModel] post-processes the output of the BLUPF90
    solver with numpy.  This development embeds the numeric core of that class
    (the basis construction of [__init__], [__read_blupf90_solutions__],
    [__compute_variances_and_heritabilities__], [__read_pev_pec__],
    [__compute_pevs_rels__] and [__compute_DRPs__]), the lactation curves,
    the SNP readers and products, the analysis that ends [__init__] and the
    functions that rewrite the parameter file, and proves properties of
    them.  Data files enter as lists of parsed lines, the parameter file as
    its text; the attributes a method reads are its parameters, the fields it
    writes are a record it returns.

    Conventions of the embedding.

    - Python integers are [Z]; [//] and [%] are [Z.div] and [Z.modulo] (both
      floor towards minus infinity, like Python's) and raise
      [ZeroDivisionError] on a zero divisor.
    - A numpy array is a nested list, one level per axis.  Integer indexing
      follows numpy: an index [i] into an axis of extent [n] is valid for
      [-n <= i < n], negative indices count from the end, anything else raises
      [IndexError].  An axis of extent zero loses the extents of the inner
      axes in this representation; all statements below are about arrays
      whose axes are not empty.
    - Exceptions are an explicit error result ([result]); the methods thread
      the object's fields through it.
    - numpy computes in IEEE binary64.  The definitions are parametric in the
      arithmetic ([Number]): the instance [binary64] runs them on kernel
      floats, the instance [exact] reads them over the real numbers.
      Properties that do not use any law of arithmetic are proved for every
      instance; properties that need field or order laws are proved for
      [exact].  numpy's reductions ([mean], [@]) may associate additions
      differently from the left-to-right sums used here, which only matters
      for [binary64].
    - numpy's array arithmetic never raises: on [binary64] a sum that
      overflows is infinite and a quotient of two infinities is NaN.  Where
      a property of [exact] is lost to overflow, a run on kernel floats
      shows it.  Python's own float power does raise, [OverflowError]. *)

From Stdlib Require Import ZArith Reals Lra Lia.
From Stdlib Require Floats.PrimFloat Floats.FloatOps Numbers.Cyclic.Int63.Uint63.
From Stdlib Require Ascii String DecimalString.
From stdpp Require Import base option list.

(** ** Arithmetic *)

Class Number (F : Type) := {
  of_int : Z → F;          (* int -> float64 conversion *)
  fadd : F → F → F;
  fsub : F → F → F;
  fmul : F → F → F;
  fdiv : F → F → F;        (* numpy true division: never raises *)
  fsqrt : F → F;           (* np.sqrt *)
  fgt : F → F → bool       (* x > y *)
}.
Global Hint Mode Number ! : typeclass_instances.

Declare Scope num_scope.
Delimit Scope num_scope with num.
Infix "+" := fadd : num_scope.
Infix "-" := fsub : num_scope.
Infix "*" := fmul : num_scope.
Infix "/" := fdiv : num_scope.

Abbreviation float := PrimFloat.float.

Definition float_of_int (z : Z) : float :=
  match z with
  | Z0 => PrimFloat.zero
  | Zpos _ => PrimFloat.of_uint63 (Uint63.of_Z z)
  | Zneg p => PrimFloat.opp (PrimFloat.of_uint63 (Uint63.of_Z (Zpos p)))
  end.

(** IEEE binary64, as numpy's float64 (integers below 2^63 in magnitude). *)
#[export] Instance binary64 : Number float := {
  of_int := float_of_int;
  fadd := PrimFloat.add;
  fsub := PrimFloat.sub;
  fmul := PrimFloat.mul;
  fdiv := PrimFloat.div;
  fsqrt := PrimFloat.sqrt;
  fgt := fun x y => PrimFloat.ltb y x
}.

(** Exact real arithmetic. *)
#[export] Instance exact : Number R := {
  of_int := IZR;
  fadd := Rplus;
  fsub := Rminus;
  fmul := Rmult;
  fdiv := Rdiv;
  fsqrt := R_sqrt.sqrt;
  fgt := fun x y => if Rlt_dec y x then true else false
}.

(** ** Exceptions *)

Inductive exn := IndexError | ValueError | ZeroDivisionError | OverflowError.

Inductive result (A : Type) :=
| Ok (a : A)
| Raise (e : exn).
Arguments Ok {A} a.
Arguments Raise {A} e.

#[export] Instance result_ret : MRet result := @Ok.
#[export] Instance result_bind : MBind result := fun A B f r =>
  match r with Ok a => f a | Raise e => Raise e end.
#[export] Instance result_fmap : FMap result := fun A B f r =>
  match r with Ok a => Ok (f a) | Raise e => Raise e end.

(** A [for] loop whose body may raise. *)
Fixpoint for_each {A S} (xs : list A) (body : A → S → result S) (s : S) : result S :=
  match xs with
  | [] => Ok s
  | x :: xs' => s' ← body x s; for_each xs' body s'
  end.

(** ** Python integers *)

Definition py_floordiv (a b : Z) : result Z :=
  if (b =? 0)%Z then Raise ZeroDivisionError else Ok (a / b)%Z.

Definition py_mod (a b : Z) : result Z :=
  if (b =? 0)%Z then Raise ZeroDivisionError else Ok (a mod b)%Z.

(** [range(n)] *)
Definition range (n : Z) : list Z := seqZ 0 n.

(** ** numpy indexing *)

Definition np_index (n : nat) (i : Z) : result nat :=
  if ((0 <=? i) && (i <? Z.of_nat n))%Z then Ok (Z.to_nat i)
  else if ((- Z.of_nat n <=? i) && (i <? 0))%Z then Ok (Z.to_nat (i + Z.of_nat n))
  else Raise IndexError.

(** [a[i]] along the first axis *)
Definition np_get {A} (a : list A) (i : Z) : result A :=
  k ← np_index (length a) i;
  match a !! k with Some x => Ok x | None => Raise IndexError end.

(** update of the sub-array [a[i]] along the first axis *)
Definition np_at {A} (a : list A) (i : Z) (f : A → result A) : result (list A) :=
  k ← np_index (length a) i;
  match a !! k with
  | Some x => x' ← f x; Ok (<[k := x']> a)
  | None => Raise IndexError
  end.

Abbreviation matrix F := (list (list F)).
Abbreviation tensor3 F := (list (list (list F))).
Abbreviation tensor4 F := (list (list (list (list F)))).

Section Arrays.
Context {F : Type}.

(** [a[i, j] = v], [a[i, j, k] = v], [a[i, j, k, l] = v] *)
Definition setitem1 (a : list F) (i : Z) (v : F) : result (list F) :=
  np_at a i (fun _ => Ok v).
Definition setitem2 (a : list (list F)) (i j : Z) (v : F) :=
  np_at a i (fun r => setitem1 r j v).
Definition setitem3 (a : list (list (list F))) (i j k : Z) (v : F) :=
  np_at a i (fun m => setitem2 m j k v).
Definition setitem4 (a : list (list (list (list F)))) (i j k l : Z) (v : F) :=
  np_at a i (fun t => setitem3 t j k l v).

(** [a[i, j]], [a[i, j, k]] *)
Definition getitem2 (a : list (list F)) (i j : Z) : result F :=
  r ← np_get a i; np_get r j.
Definition getitem3 (a : list (list (list F))) (i j k : Z) : result F :=
  m ← np_get a i; getitem2 m j k.

(** Shapes *)
Definition shape1 (n0 : nat) (a : list F) : Prop := length a = n0.
Definition shape2 (n0 n1 : nat) (a : list (list F)) : Prop :=
  length a = n0 ∧ Forall (shape1 n1) a.
Definition shape3 (n0 n1 n2 : nat) (a : list (list (list F))) : Prop :=
  length a = n0 ∧ Forall (shape2 n1 n2) a.
Definition shape4 (n0 n1 n2 n3 : nat) (a : list (list (list (list F)))) : Prop :=
  length a = n0 ∧ Forall (shape3 n1 n2 n3) a.

(** The cell update that an in-range item assignment performs. *)
Definition store1 (i : nat) (v : F) (a : list F) : list F := <[i := v]> a.
Definition store2 (i j : nat) (v : F) (a : list (list F)) :=
  alter (store1 j v) i a.
Definition store3 (i j k : nat) (v : F) (a : list (list (list F))) :=
  alter (store2 j k v) i a.
Definition store4 (i j k l : nat) (v : F) (a : list (list (list (list F)))) :=
  alter (store3 j k l v) i a.

Definition cell2 (a : list (list F)) (i j : nat) : option F :=
  a !! i ≫= (.!! j).
Definition cell3 (a : list (list (list F))) (i j k : nat) : option F :=
  a !! i ≫= (fun m => cell2 m j k).
Definition cell4 (a : list (list (list (list F)))) (i j k l : nat) : option F :=
  a !! i ≫= (fun t => cell3 t j k l).

(** [np.zeros], for extents that are not negative *)
Context `{Number F}.
Definition zeros1 (n0 : Z) : list F := replicate (Z.to_nat n0) (of_int 0).
Definition zeros2 (n0 n1 : Z) := replicate (Z.to_nat n0) (zeros1 n1).
Definition zeros3 (n0 n1 n2 : Z) := replicate (Z.to_nat n0) (zeros2 n1 n2).
Definition zeros4 (n0 n1 n2 n3 : Z) := replicate (Z.to_nat n0) (zeros3 n1 n2 n3).

(** [np.zeros((n0, n1))]: a negative extent is a [ValueError]. *)
Definition np_zeros2 (n0 n1 : Z) : result (list (list F)) :=
  if ((n0 <? 0) || (n1 <? 0))%Z then Raise ValueError else Ok (zeros2 n0 n1).
End Arrays.

(** ** The model's layout

  The integer attributes of a [TestDayModel] that the methods read:
  [len(self.fixed_effects)], [self.fixed_degree], [self.random_degree],
  [self.number_of_traits], [self.renum.lactation_dim],
  [self.renum.animal_count] and [self.dim_range]. *)

Record layout := {
len_fixed_effects : Z;
fixed_degree : Z;
random_degree : Z;
number_of_traits : Z;
lactation_dim : Z;
animal_count : Z;
dim_min : Z;
dim_max : Z
}.

(** [self.degree] *)
Definition degree (ly : layout) : Z := Z.max (fixed_degree ly) (random_degree ly).

(** ** Solution demultiplexer: [__read_blupf90_solutions__] *)

Section Demultiplexer.
Context {F : Type}.
Variable ly : layout.

(** The fields the method writes. *)
Record solutions := {
  FE : list F;
  fixed_curve_coefficients : tensor3 F;
  additive_coefficients : tensor4 F;
  permanent_coefficients : tensor4 F
}.

(** One parsed line of the [solutions] file: trait, effect, level, solution. *)
Definition record : Type := Z * Z * Z * F.

(** The body of the [while line:] loop. *)
Definition read_solution (rec : record) (st : solutions) : result solutions :=
  let '(trait, effect, level, solution) := rec in
  if (effect <=? len_fixed_effects ly)%Z then
    Ok {| FE := FE st ++ [solution];
          fixed_curve_coefficients := fixed_curve_coefficients st;
          additive_coefficients := additive_coefficients st;
          permanent_coefficients := permanent_coefficients st |}
  else if (effect <=? len_fixed_effects ly + fixed_degree ly + 1)%Z then
    lactation ← py_floordiv (trait - 1) (number_of_traits ly);
    tr ← py_mod (trait - 1) (number_of_traits ly);
    a ← setitem3 (fixed_curve_coefficients st) lactation tr
          (effect - len_fixed_effects ly - 1) solution;
    Ok {| FE := FE st;
          fixed_curve_coefficients := a;
          additive_coefficients := additive_coefficients st;
          permanent_coefficients := permanent_coefficients st |}
  else if (effect <=? len_fixed_effects ly + fixed_degree ly
                       + random_degree ly + 2)%Z then
    lactation ← py_floordiv (trait - 1) (number_of_traits ly);
    tr ← py_mod (trait - 1) (number_of_traits ly);
    a ← setitem4 (additive_coefficients st) lactation tr (level - 1)
          (effect - len_fixed_effects ly - fixed_degree ly - 2) solution;
    Ok {| FE := FE st;
          fixed_curve_coefficients := fixed_curve_coefficients st;
          additive_coefficients := a;
          permanent_coefficients := permanent_coefficients st |}
  else
    lactation ← py_floordiv (trait - 1) (number_of_traits ly);
    tr ← py_mod (trait - 1) (number_of_traits ly);
    a ← setitem4 (permanent_coefficients st) lactation tr (level - 1)
          (effect - len_fixed_effects ly - fixed_degree ly - random_degree ly - 3)
          solution;
    Ok {| FE := FE st;
          fixed_curve_coefficients := fixed_curve_coefficients st;
          additive_coefficients := additive_coefficients st;
          permanent_coefficients := a |}.

(** The whole method, on the parsed lines after the header. *)
Definition read_blupf90_solutions (lines : list record) (st : solutions)
  : result solutions :=
  for_each lines read_solution st.

(** The coefficient tensors have the shapes they are allocated with in
    [__init__]. *)
Definition allocated (st : solutions) : Prop :=
  shape3 (Z.to_nat (lactation_dim ly)) (Z.to_nat (number_of_traits ly))
         (Z.to_nat (fixed_degree ly + 1)) (fixed_curve_coefficients st) ∧
  shape4 (Z.to_nat (lactation_dim ly)) (Z.to_nat (number_of_traits ly))
         (Z.to_nat (animal_count ly)) (Z.to_nat (random_degree ly + 1))
         (additive_coefficients st) ∧
  shape4 (Z.to_nat (lactation_dim ly)) (Z.to_nat (number_of_traits ly))
         (Z.to_nat (animal_count ly)) (Z.to_nat (random_degree ly + 1))
         (permanent_coefficients st).

(** A record that respects the layout: 1-based trait, effect and level
    within [L*T] stacked traits, the effects of the model and [N] animals. *)
Definition in_layout (rec : record) : Prop :=
  let '(trait, effect, level, _) := rec in
  (1 ≤ trait ≤ lactation_dim ly * number_of_traits ly)%Z ∧
  (1 ≤ level ≤ animal_count ly)%Z ∧
  (1 ≤ effect ≤ len_fixed_effects ly + fixed_degree ly
                + 2 * random_degree ly + 3)%Z.
End Demultiplexer.
Arguments solutions F : clear implicits.
Arguments record F : clear implicits.

(** ** numpy operations on vectors and matrices *)

(** [map] with a function that may raise *)
Fixpoint map_result {A B} (f : A → result B) (xs : list A) : result (list B) :=
  match xs with
  | [] => Ok []
  | x :: xs' => y ← f x; ys ← map_result f xs'; Ok (y :: ys)
  end.

(** Python slice bounds: [a[lo:hi]] along an axis of extent [n]. *)
Definition slice_bound (n : nat) (i : Z) : nat :=
  Z.to_nat (Z.min (Z.of_nat n) (if (i <? 0)%Z then Z.max 0 (i + Z.of_nat n) else i)).

Definition np_slice {A} (a : list A) (lo hi : Z) : list A :=
  let lo' := slice_bound (length a) lo in
  let hi' := slice_bound (length a) hi in
  take (hi' - lo') (drop lo' a).

Section LinearAlgebra.
Context {F : Type} `{Number F}.
Local Open Scope num_scope.

(** The literal [0.5]. *)
Definition half : F := of_int 1 / of_int 2.

(** Sum of a sequence, left to right. *)
Definition sum_list (xs : list F) : F := foldl fadd (of_int 0) xs.

(** [np.mean] of a sequence *)
Definition mean (xs : list F) : F := sum_list xs / of_int (Z.of_nat (length xs)).

Definition dot (u v : list F) : F := sum_list (zip_with fmul u v).

(** Number of columns of a (non-empty) matrix, and its [j]-th column. *)
Definition ncols (a : matrix F) : nat :=
  match a with [] => 0 | r :: _ => length r end.
Definition column (j : nat) (a : matrix F) : list F := omap (.!! j) a.

(** [a.T] *)
Definition transpose (a : matrix F) : matrix F :=
  (λ j, column j a) <$> seq 0 (ncols a).

(** [a @ b] for two-dimensional arrays *)
Definition matmul (a b : matrix F) : result (matrix F) :=
  if forallb (λ r, length r =? length b) a
  then Ok ((λ r, (λ j, dot r (column j b)) <$> seq 0 (ncols b)) <$> a)
  else Raise ValueError.

(** [a.diagonal()] *)
Definition diagonal (a : matrix F) : list F :=
  omap (λ k, a !! k ≫= (.!! k)) (seq 0 (min (length a) (ncols a))).

(** [a[r0:r1, c0:c1]] *)
Definition slice2 (a : matrix F) (r0 r1 c0 c1 : Z) : matrix F :=
  (λ r, np_slice r c0 c1) <$> np_slice a r0 r1.

(** Element-wise operation of a vector with a scalar operand. *)
Definition broadcast (f : F → F) (u : list F) : list F := f <$> u.

(** Element-wise binary operation on two vectors of the same shape. *)
Definition elementwise (op : F → F → F) (u v : list F) : result (list F) :=
  if length u =? length v then Ok (zip_with op u v) else Raise ValueError.

(** [a.mean(axis=0)] for a matrix: the mean of every column *)
Definition mean_axis0 (a : matrix F) : list F :=
  (λ j, mean (column j a)) <$> seq 0 (ncols a).

(** [a.mean(axis=2)] for a three-dimensional array, [a.mean(axis=3)] for a
    four-dimensional one: the mean along the last axis *)
Definition mean_axis2 (a : tensor3 F) : matrix F :=
  (λ m : matrix F, mean <$> m) <$> a.
Definition mean_axis3 (a : tensor4 F) : tensor3 F :=
  (λ t : tensor3 F, mean_axis2 t) <$> a.

(** [np.cumsum(a, axis=0)] *)
Fixpoint cumsum_from (acc : list F) (rows : matrix F) : matrix F :=
  match rows with
  | [] => []
  | r :: rows' => let acc' := zip_with fadd acc r in acc' :: cumsum_from acc' rows'
  end.
Definition cumsum0 (a : matrix F) : matrix F :=
  match a with [] => [] | r :: rows => r :: cumsum_from r rows end.

(** [a[:, cols]] with a list of column indices *)
Definition take_columns (a : matrix F) (cols : list Z) : result (matrix F) :=
  map_result (λ r, map_result (np_get r) cols) a.

(** [a[:, i] = col] *)
Fixpoint set_column (a : matrix F) (i : Z) (col : list F) : result (matrix F) :=
  match a, col with
  | [], [] => Ok []
  | r :: a', c :: col' =>
      r' ← setitem1 r i c; rest ← set_column a' i col'; Ok (r' :: rest)
  | _, _ => Raise ValueError
  end.

(** [a[i, j, :] = row] and [a[i, j, k, :] = row] *)
Definition assign (old new : list F) : result (list F) :=
  if length old =? length new then Ok new else Raise ValueError.
Definition setrow3 (a : tensor3 F) (i j : Z) (row : list F) : result (tensor3 F) :=
  np_at a i (λ m, np_at m j (λ old, assign old row)).
Definition setrow4 (a : tensor4 F) (i j k : Z) (row : list F) : result (tensor4 F) :=
  np_at a i (λ t, np_at t j (λ m, np_at m k (λ old, assign old row))).

(** [a[i, j, :]] and [a[i, j, k, :]] *)
Definition getrow3 (a : tensor3 F) (i j : Z) : result (list F) :=
  m ← np_get a i; np_get m j.
Definition getrow4 (a : tensor4 F) (i j k : Z) : result (list F) :=
  t ← np_get a i; m ← np_get t j; np_get m k.
End LinearAlgebra.

(** ** Basis builder: [__init__] lines 160-166 and
       [__add_legendre_coefficients__] *)

Section Basis.
Context {F : Type} `{Number F}.
Local Open Scope num_scope.

(** [np.arange(lo, hi)] *)
Definition arange (lo hi : Z) : list Z := seqZ lo (hi - lo).

(** [scipy.special.legendre(n)(x)]: the value at [x] of the Legendre
    polynomial of degree [n].  scipy is outside the repository; the
    polynomial is given here by Bonnet's recurrence
    [(n+1) P_{n+1}(x) = (2n+1) x P_n(x) - n P_{n-1}(x)], [P_0 = 1], [P_1 = x].
    [legendre_pair n x] is [(P_n(x), P_{n+1}(x))].  scipy evaluates the same
    polynomial from its coefficients, so on [binary64] the two agree up to
    rounding. *)
Fixpoint legendre_pair (n : nat) (x : F) : F * F :=
  match n with
  | O => (of_int 1, x)
  | S m =>
      let '(p, q) := legendre_pair m x in
      (q, (of_int (2 * Z.of_nat m + 3) * x * q - of_int (Z.of_nat m + 1) * p)
          / of_int (Z.of_nat m + 2))
  end.
Definition legendre (n : nat) (x : F) : F := (legendre_pair n x).1.

Record basis := {
  scaled_dim_range : list F;
  legendre_coefficients : matrix F;
  legendre_random_coefficients : matrix F;
  legendre_partial_sums : matrix F;
  legendre_random_sums : matrix F
}.

(** Lines 160-161: the DIM grid rescaled to [-1, 1]. *)
Definition scale_dim_range (ly : layout) : list F :=
  (λ d, of_int (-1)
        + of_int (2 * (d - dim_min ly)) / of_int (dim_max ly - dim_min ly))
  <$> arange (dim_min ly) (dim_max ly + 1).

(** [__add_legendre_coefficients__] *)
Definition add_legendre_coefficients (ly : layout) (grid : list F)
    (table : matrix F) : result (matrix F) :=
  for_each (range (degree ly + 1))
    (λ i table,
       set_column table i
         ((λ x, legendre (Z.to_nat i) x * fsqrt (of_int i + half)) <$> grid))
    table.

(** Lines 160-166. *)
Definition build_basis (ly : layout) : result basis :=
  let grid := scale_dim_range ly in
  zeros ← np_zeros2 (dim_max ly - dim_min ly + 1) (degree ly + 1);
  table ← add_legendre_coefficients ly grid zeros;
  random ← take_columns table (range (random_degree ly + 1));
  let sums := cumsum0 table in
  random_sums ← take_columns sums (range (random_degree ly + 1));
  Ok {| scaled_dim_range := grid;
        legendre_coefficients := table;
        legendre_random_coefficients := random;
        legendre_partial_sums := sums;
        legendre_random_sums := random_sums |}.
End Basis.
Arguments basis F : clear implicits.

(** ** Variance and heritability engine:
       [__compute_variances_and_heritabilities__] *)

Section VarianceEngine.
Context {F : Type} `{Number F}.
Local Open Scope num_scope.

(** The fields the method writes. *)
Record variances := {
  var_G : tensor3 F;
  var_P : tensor3 F;
  var_R : matrix F;
  heritabilities : tensor3 F;
  repeatabilities : tensor3 F;
  avg_var_G : matrix F;
  avg_var_P : matrix F;
  avg_heritabilities : matrix F;
  avg_repeatabilities : matrix F
}.

(** [legendre_random_coefficients], [self.G], [self.P], [self.R] *)
Variable ly : layout.
Variable B : matrix F.
Variables G P R : matrix F.

(** [(B @ M[min_idx:max_idx, min_idx:max_idx] @ B.T).diagonal()] *)
Definition project_block (M : matrix F) (i : Z) : result (list F) :=
  let min_idx := (i * (random_degree ly + 1))%Z in
  let max_idx := ((i + 1) * (random_degree ly + 1))%Z in
  m1 ← matmul B (slice2 M min_idx max_idx min_idx max_idx);
  m2 ← matmul m1 (transpose B);
  Ok (diagonal m2).

(** The body of the loop over [i]. *)
Definition variance_step (i : Z) (st : variances) : result variances :=
  lactation ← py_floordiv i (number_of_traits ly);
  trait ← py_mod i (number_of_traits ly);
  vg ← project_block G i;
  var_G' ← setrow3 (var_G st) lactation trait vg;
  vp ← project_block P i;
  var_P' ← setrow3 (var_P st) lactation trait vp;
  r ← getitem2 R i i;
  var_R' ← setitem2 (var_R st) lactation trait r;
  g_row ← getrow3 var_G' lactation trait;
  p_row ← getrow3 var_P' lactation trait;
  repeat_variance ← elementwise fadd g_row p_row;
  r_lt ← getitem2 var_R' lactation trait;
  let pheno_variance := broadcast (λ x, x + r_lt) repeat_variance in
  h ← elementwise fdiv g_row pheno_variance;
  heritabilities' ← setrow3 (heritabilities st) lactation trait h;
  rp ← elementwise fdiv repeat_variance pheno_variance;
  repeatabilities' ← setrow3 (repeatabilities st) lactation trait rp;
  Ok {| var_G := var_G';
        var_P := var_P';
        var_R := var_R';
        heritabilities := heritabilities';
        repeatabilities := repeatabilities';
        avg_var_G := mean_axis2 var_G';
        avg_var_P := mean_axis2 var_P';
        avg_heritabilities := mean_axis2 heritabilities';
        avg_repeatabilities := mean_axis2 repeatabilities' |}.

Definition compute_variances_and_heritabilities (st : variances) : result variances :=
  for_each (range (number_of_traits ly * lactation_dim ly)) variance_step st.

(** The fields as [__init__] allocates them. *)
Definition variances_init : variances :=
  let L := lactation_dim ly in
  let T := number_of_traits ly in
  let D := (dim_max ly - dim_min ly + 1)%Z in
  {| var_G := zeros3 L T D;
     var_P := zeros3 L T D;
     var_R := zeros2 L T;
     heritabilities := zeros3 L T D;
     repeatabilities := zeros3 L T D;
     avg_var_G := zeros2 L T;
     avg_var_P := zeros2 L T;
     avg_heritabilities := zeros2 L T;
     avg_repeatabilities := zeros2 L T |}.
End VarianceEngine.
Arguments variances F : clear implicits.

(** ** PEV-PEC reader: [__read_pev_pec__] *)

Section PevPecReader.
Context {F : Type} `{Number F}.
Local Open Scope num_scope.

(** One parsed line of [pev_pec_bf90]: [int(values[0])] and the floats of
    [values[1:]]. *)
Definition pev_pec_line : Type := Z * list F.

(** The body of [for elem in values[1:]], on the array and the running
    [row] and [col]. *)
Definition store_packed (animal : Z) (elem : F) (s : tensor3 F * Z * Z)
  : result (tensor3 F * Z * Z) :=
  let '(a, row, col) := s in
  a' ← setitem3 a animal row col elem;
  if (col =? row)%Z then Ok (a', (row + 1)%Z, 0%Z) else Ok (a', row, (col + 1)%Z).

(** [m + m.T] *)
Definition add_transpose (m : matrix F) : result (matrix F) :=
  let mt := transpose m in
  if length m =? length mt
  then map_result (λ rs : list F * list F, elementwise fadd rs.1 rs.2) (zip m mt)
  else Raise ValueError.

(** [PEV_PECs.shape[1]] and [PEV_PECs.shape[2]] *)
Definition shape_1 (a : tensor3 F) : nat :=
  match a with [] => 0 | m :: _ => length m end.
Definition shape_2 (a : tensor3 F) : nat :=
  match a with [] => 0 | m :: _ => ncols m end.

(** [PEV_PECs[animal, range(shape[1]), range(shape[2])] /= 2] *)
Definition halve_diagonal (animal : Z) (a : tensor3 F) : result (tensor3 F) :=
  if shape_1 a =? shape_2 a then
    for_each (range (Z.of_nat (shape_1 a)))
      (λ k a, x ← getitem3 a animal k k; setitem3 a animal k k (x / of_int 2)) a
  else Raise IndexError.

(** The body of [for line in f.readlines()].  The in-place [+=] with the
    transposed view of the same memory gives [m + m.T] (numpy copies
    overlapping operands). *)
Definition read_pev_pec_line (line : pev_pec_line) (a : tensor3 F)
  : result (tensor3 F) :=
  let animal := (line.1 - 1)%Z in
  s ← for_each line.2 (store_packed animal) (a, 0%Z, 0%Z);
  let a1 := s.1.1 in
  m ← np_get a1 animal;
  m' ← add_transpose m;
  a2 ← np_at a1 animal (λ _, Ok m');
  halve_diagonal animal a2.

Definition read_pev_pec (lines : list pev_pec_line) (a : tensor3 F)
  : result (tensor3 F) :=
  for_each lines read_pev_pec_line a.
End PevPecReader.
Arguments pev_pec_line F : clear implicits.

(** ** PEV/REL engine: [__compute_pevs_rels__] *)

Section PevRelEngine.
Context {F : Type} `{Number F}.
Local Open Scope num_scope.

(** The fields the method writes. *)
Record reliabilities := {
  PEVs : tensor4 F;
  RELs : tensor4 F;
  avg_PEVs : tensor3 F;
  avg_RELs : tensor3 F
}.

(** [legendre_random_coefficients], [self.PEV_PECs], [self.var_G],
    [self.renum.inbreeding], [self.renum.inbreeding_coefficients] *)
Variable ly : layout.
Variable B : matrix F.
Variable PEV_PECs : tensor3 F.
Variable var_G : tensor3 F.
Variable inbreeding : bool.
Variable inbreeding_coefficients : list F.

(** The right-hand sides of the two assignments to [RELs[lactation, trait, j, :]]. *)
Definition reliability_row (j : Z) (pev vg : list F) : result (list F) :=
  if inbreeding then
    c ← np_get inbreeding_coefficients j;
    q ← elementwise fdiv pev (broadcast (λ x, x * (of_int 1 + c)) vg);
    Ok (broadcast (λ x, of_int 1 - x) q)
  else
    q ← elementwise fdiv pev vg;
    Ok (broadcast (λ x, of_int 1 - x) q).

(** The body of the loop over [j], for the [i] of the outer loop. *)
Definition pev_rel_step (i lactation trait : Z) (j : Z) (st : reliabilities)
  : result reliabilities :=
  let lo := (i * (random_degree ly + 1))%Z in
  let hi := ((i + 1) * (random_degree ly + 1))%Z in
  m ← np_get PEV_PECs j;
  let pev_pec_block := slice2 m lo hi lo hi in
  m1 ← matmul B pev_pec_block;
  m2 ← matmul m1 (transpose B);
  PEVs' ← setrow4 (PEVs st) lactation trait j (mean_axis0 m2);
  pev ← getrow4 PEVs' lactation trait j;
  vg ← getrow3 var_G lactation trait;
  rel ← reliability_row j pev vg;
  RELs' ← setrow4 (RELs st) lactation trait j rel;
  Ok {| PEVs := PEVs'; RELs := RELs';
        avg_PEVs := avg_PEVs st; avg_RELs := avg_RELs st |}.

Definition compute_pevs_rels (st : reliabilities) : result reliabilities :=
  st' ← for_each (range (lactation_dim ly * number_of_traits ly))
          (λ i st,
             lactation ← py_floordiv i (number_of_traits ly);
             trait ← py_mod i (number_of_traits ly);
             for_each (range (animal_count ly)) (pev_rel_step i lactation trait) st)
          st;
  Ok {| PEVs := PEVs st'; RELs := RELs st';
        avg_PEVs := mean_axis3 (PEVs st');
        avg_RELs := mean_axis3 (RELs st') |}.

(** The fields as [__init__] allocates them. *)
Definition reliabilities_init : reliabilities :=
  let L := lactation_dim ly in
  let T := number_of_traits ly in
  let N := animal_count ly in
  let D := (dim_max ly - dim_min ly + 1)%Z in
  {| PEVs := zeros4 L T N D; RELs := zeros4 L T N D;
     avg_PEVs := zeros3 L T N; avg_RELs := zeros3 L T N |}.
End PevRelEngine.
Arguments reliabilities F : clear implicits.

(** ** DRP engine: [__compute_DRPs__] *)

Section DrpEngine.
Context {F : Type} `{Number F}.
Local Open Scope num_scope.

(** The fields the method writes. *)
Record deregressed := {
  DRPs : tensor3 F;
  DRP_RELs : tensor3 F;
  DRP_weights : tensor3 F
}.

(** [self.renum.sires], [self.renum.dams], [self.avg_RELs],
    [self.avg_heritabilities], [self.EBVs] *)
Variables sires dams : list Z.
Variable avg_RELs : tensor3 F.
Variable avg_heritabilities : matrix F.
Variable EBVs : tensor4 F.

(** [row[idx]] with an array of indices *)
Definition gather {A} (row : list A) (idx : list Z) : result (list A) :=
  map_result (np_get row) idx.

(** [np.where(sel > 0, xs, 0)] *)
Definition where_positive (sel : list Z) (xs : list F) : result (list F) :=
  if length sel =? length xs
  then Ok (zip_with (λ (s : Z) x, if (0 <? s)%Z then x else of_int 0) sel xs)
  else Raise ValueError.

(** [np.where(w > 0.0, xs, 0.0)] *)
Definition where_gt_zero (w xs : list F) : result (list F) :=
  if length w =? length xs
  then Ok (zip_with (λ wi x, if fgt wi (of_int 0) then x else of_int 0) w xs)
  else Raise ValueError.

Definition parents (ps : list Z) : list Z := (λ p, (p - 1)%Z) <$> ps.

Definition compute_DRPs (lactation trait : Z) (st : deregressed) : result deregressed :=
  rel ← getrow3 avg_RELs lactation trait;
  rel_s ← gather rel (parents sires);
  rel_d ← gather rel (parents dams);
  ws ← where_positive sires rel_s;
  wd ← where_positive dams rel_d;
  r2_sum ← elementwise fadd ws wd;
  let r2_gm := broadcast (λ x, x / of_int 4) r2_sum in
  let alfa := broadcast (λ x, of_int 1 / (half - x)) r2_gm in
  delta ← elementwise fdiv (broadcast (λ x, half - x) r2_gm)
                           (broadcast (λ x, of_int 1 - x) rel);
  alfa_delta ← elementwise fadd (broadcast (λ a, a * a) alfa)
                                (broadcast (λ d, of_int 16 / d) delta);
  h2 ← getitem2 avg_heritabilities lactation trait;
  let lambda_star := (of_int 1 - h2) / h2 in
  Zlgm_Zgm ← elementwise fadd
     (broadcast (λ a, lambda_star * (half * a - of_int 4)) alfa)
     (broadcast (λ x, half * lambda_star * fsqrt x) alfa_delta);
  dz ← elementwise fmul delta Zlgm_Zgm;
  Zli_Zi ← elementwise fadd dz
     (broadcast (λ d, of_int 2 * lambda_star * (of_int 2 * d - of_int 1)) delta);
  let r2i := broadcast (λ z, of_int 1 - lambda_star / (z + lambda_star)) Zli_Zi in
  ebv_t ← np_get EBVs lactation;
  ebv ← np_get ebv_t trait;
  ebv_last ← map_result (λ curve : list F, np_get curve (-1)) ebv;
  ebv_s ← gather ebv_last (parents sires);
  ebv_d ← gather ebv_last (parents dams);
  es ← where_positive sires ebv_s;
  ed ← where_positive dams ebv_d;
  gm_sum ← elementwise fadd es ed;
  let gm := broadcast (λ x, x / of_int 2) gm_sum in
  own ← elementwise fmul
     (broadcast (λ z, z + of_int 2 * lambda_star) Zli_Zi) ebv_last;
  y1 ← elementwise fadd (broadcast (λ g, of_int (-2) * lambda_star * g) gm) own;
  DRP ← elementwise fdiv y1 Zli_Zi;
  let wi := broadcast (λ r, (of_int 1 - h2) / ((half + (of_int 1 - r) / r) * h2)) r2i in
  out_drp ← where_gt_zero wi DRP;
  DRPs' ← setrow3 (DRPs st) lactation trait out_drp;
  out_rel ← where_gt_zero wi r2i;
  DRP_RELs' ← setrow3 (DRP_RELs st) lactation trait out_rel;
  out_w ← where_gt_zero wi wi;
  DRP_weights' ← setrow3 (DRP_weights st) lactation trait out_w;
  Ok {| DRPs := DRPs'; DRP_RELs := DRP_RELs'; DRP_weights := DRP_weights' |}.

(** Garrick's formulas for one animal, as section 4.6 of the specification
    writes them: [h2] the average heritability, [rel_s], [rel_d], [rel_i] the
    average reliabilities and [ebv_s], [ebv_d], [ebv_i] the terminal breeding
    values of sire, dam and animal, [s] and [d] the parents' numbers
    (0 for unknown). *)
Record garrick_terms := {
  g_Zli_Zi : F;
  g_r2i : F;
  g_y1 : F;
  g_DRP : F;
  g_wi : F
}.

Definition garrick (h2 rel_s rel_d rel_i ebv_s ebv_d ebv_i : F) (s d : Z)
  : garrick_terms :=
  let r2_gm := ((if (0 <? s)%Z then rel_s else of_int 0)
                + (if (0 <? d)%Z then rel_d else of_int 0)) / of_int 4 in
  let alfa := of_int 1 / (half - r2_gm) in
  let delta := (half - r2_gm) / (of_int 1 - rel_i) in
  let alfa_delta := alfa * alfa + of_int 16 / delta in
  let lambda_star := (of_int 1 - h2) / h2 in
  let Zlgm_Zgm := lambda_star * (half * alfa - of_int 4)
                  + half * lambda_star * fsqrt alfa_delta in
  let Zli_Zi := delta * Zlgm_Zgm
                + of_int 2 * lambda_star * (of_int 2 * delta - of_int 1) in
  let r2i := of_int 1 - lambda_star / (Zli_Zi + lambda_star) in
  let gm := ((if (0 <? s)%Z then ebv_s else of_int 0)
             + (if (0 <? d)%Z then ebv_d else of_int 0)) / of_int 2 in
  let y1 := of_int (-2) * lambda_star * gm
            + (Zli_Zi + of_int 2 * lambda_star) * ebv_i in
  let DRP := y1 / Zli_Zi in
  let wi := (of_int 1 - h2) / ((half + (of_int 1 - r2i) / r2i) * h2) in
  {| g_Zli_Zi := Zli_Zi; g_r2i := r2i; g_y1 := y1; g_DRP := DRP; g_wi := wi |}.
End DrpEngine.
Arguments deregressed F : clear implicits.
Arguments garrick_terms F : clear implicits.

(** ** Mathematical reading of arrays

    Entries of vectors and matrices as total functions of their indices, and
    finite sums over an index range; the statements below describe what the
    numpy expressions compute in these terms. *)

Section Entries.
Context {F : Type} `{Number F}.
Local Open Scope num_scope.

Definition entry1 (u : list F) (k : nat) : F := default (of_int 0) (u !! k).
Definition entry2 (a : matrix F) (i j : nat) : F := default (of_int 0) (cell2 a i j).
Definition entry3 (a : tensor3 F) (i j k : nat) : F :=
  default (of_int 0) (cell3 a i j k).
Definition entry4 (a : tensor4 F) (i j k l : nat) : F :=
  default (of_int 0) (cell4 a i j k l).

(** [sigma n f] is [f 0 + f 1 + ... + f (n-1)]. *)
Definition sigma (n : nat) (f : nat → F) : F := sum_list (f <$> seq 0 n).

(** Entry [(d, d')] of [B · block · Bᵗ], where [block] is the [K]×[K]
    diagonal block of [M] at offset [i·K]. *)
Definition block_projection (B M : matrix F) (K i d d' : nat) : F :=
  sigma K (λ b,
    sigma K (λ a, entry2 B d a * entry2 M (i * K + a) (i * K + b)) * entry2 B d' b).
End Entries.

(** ** The variance formulas of the specification (section 4.4)

    For the flat index [i = lactation·T + trait] and the DIM offset [d]. *)

Section VarianceFormulas.
Context {F : Type} `{Number F}.
Local Open Scope num_scope.
Variable ly : layout.
Variable B : matrix F.
Variables G P R : matrix F.

Definition genetic_variance (i d : nat) : F :=
  block_projection B G (Z.to_nat (random_degree ly + 1)) i d d.
Definition permanent_variance (i d : nat) : F :=
  block_projection B P (Z.to_nat (random_degree ly + 1)) i d d.
Definition residual_variance (i : nat) : F := entry2 R i i.
Definition repeatable_variance (i d : nat) : F :=
  genetic_variance i d + permanent_variance i d.
Definition phenotypic_variance (i d : nat) : F :=
  repeatable_variance i d + residual_variance i.
Definition heritability (i d : nat) : F :=
  genetic_variance i d / phenotypic_variance i d.
Definition repeatability (i d : nat) : F :=
  repeatable_variance i d / phenotypic_variance i d.

(** Arithmetic mean of [f 0 .. f (n-1)]. *)
Definition mean_over (n : nat) (f : nat → F) : F :=
  sigma n f / of_int (Z.of_nat n).

(** The curves over the DIM axis. *)
Definition curve (f : nat → F) : list F :=
  f <$> seq 0 (Z.to_nat (dim_max ly - dim_min ly + 1)).

(** The shapes [__init__] allocates the fields with. *)
Definition variances_allocated (st : variances F) : Prop :=
  let L := Z.to_nat (lactation_dim ly) in
  let T := Z.to_nat (number_of_traits ly) in
  let D := Z.to_nat (dim_max ly - dim_min ly + 1) in
  shape3 L T D (var_G st) ∧ shape3 L T D (var_P st) ∧ shape2 L T (var_R st) ∧
  shape3 L T D (heritabilities st) ∧ shape3 L T D (repeatabilities st).

(** The inputs of the engine have the shapes the layout prescribes: the
    random basis is [D]×[K], [G] and [P] are square of size [K·T·L] and [R] is
    square of size [T·L], with [K = random_degree + 1]. *)
Definition variance_inputs : Prop :=
  let L := Z.to_nat (lactation_dim ly) in
  let T := Z.to_nat (number_of_traits ly) in
  let D := Z.to_nat (dim_max ly - dim_min ly + 1) in
  let K := Z.to_nat (random_degree ly + 1) in
  (0 < lactation_dim ly)%Z ∧ (0 < number_of_traits ly)%Z ∧
  (0 ≤ random_degree ly)%Z ∧ (dim_min ly ≤ dim_max ly)%Z ∧
  shape2 D K B ∧
  shape2 (K * T * L)%nat (K * T * L)%nat G ∧
  shape2 (K * T * L)%nat (K * T * L)%nat P ∧
  shape2 (T * L)%nat (T * L)%nat R.
(** The loop invariant: the fields keep their shapes, the rows of the flat
    indices below [n] hold their final values, and from the first iteration
    on the averages are those of the current arrays. *)
Definition variance_invariant (n : Z) (st : variances F) : Prop :=
  variances_allocated st ∧
  (∀ i : nat, (Z.of_nat i < n)%Z →
     let l := (i / Z.to_nat (number_of_traits ly))%nat in
     let t := (i mod Z.to_nat (number_of_traits ly))%nat in
     cell2 (var_G st) l t = Some (curve (genetic_variance i)) ∧
     cell2 (var_P st) l t = Some (curve (permanent_variance i)) ∧
     cell2 (var_R st) l t = Some (residual_variance i) ∧
     cell2 (heritabilities st) l t = Some (curve (heritability i)) ∧
     cell2 (repeatabilities st) l t = Some (curve (repeatability i))) ∧
  ((0 < n)%Z →
     avg_var_G st = mean_axis2 (var_G st) ∧
     avg_var_P st = mean_axis2 (var_P st) ∧
     avg_heritabilities st = mean_axis2 (heritabilities st) ∧
     avg_repeatabilities st = mean_axis2 (repeatabilities st)).
End VarianceFormulas.

(** ** The lower-triangular packing of a PEV-PEC line

    Row-major, diagonal included: row [r] starts after the [r (r+1) / 2]
    entries of the rows above it. *)

Definition triangular (r : nat) : nat := r * (r + 1) / 2.
Definition packed_index (r c : nat) : nat := triangular r + c.

(** Where the [k]-th value of a line goes, starting from [(row, col)]. *)
Definition packed_covers (row col len r c : nat) : Prop :=
  c ≤ r ∧ packed_index row col ≤ packed_index r c < packed_index row col + len.

#[export] Instance packed_covers_dec row col len r c :
  Decision (packed_covers row col len r c).
Proof. unfold packed_covers. apply _. Defined.

Section PevPecFormulas.
Context {F : Type} `{Number F}.
Local Open Scope num_scope.

(** Entry [(r, c)] of an animal's matrix after the values of its line have
    been stored over the previous content [a[an]]. *)
Definition unpacked (a : tensor3 F) (an : nat) (elems : list F) (r c : nat) : F :=
  if decide (packed_covers 0 0 (length elems) r c)
  then entry1 elems (packed_index r c)
  else entry3 a an r c.

(** Entry [(r, c)] after [M += Mᵗ] and the halving of the diagonal. *)
Definition symmetrized (a : tensor3 F) (an : nat) (elems : list F) (r c : nat) : F :=
  if decide (r = c)
  then (unpacked a an elems r r + unpacked a an elems r r) / of_int 2
  else unpacked a an elems r c + unpacked a an elems c r.
End PevPecFormulas.

(** A well-formed line for [N] animals and [K]×[K] matrices: a 1-based animal
    number and at most [K (K+1) / 2] packed values. *)
Definition pev_pec_line_ok {F} (N K : nat) (line : pev_pec_line F) : Prop :=
  (1 ≤ line.1 ≤ Z.of_nat N)%Z ∧ length line.2 ≤ triangular K.

(** ** The PEV and reliability formulas of the specification (section 4.5) *)

Section PevRelFormulas.
Context {F : Type} `{Number F}.
Local Open Scope num_scope.
Variable ly : layout.
Variable B : matrix F.
Variable PEV_PECs : tensor3 F.
Variable var_G : tensor3 F.
Variable inbreeding : bool.
Variable inbreeding_coefficients : list F.

(** [PEV[d]]: the mean over the basis rows [r] of entry [(r, d)] of
    [B · block · Bᵗ], for the block of animal [j] at offset [i·K]. *)
Definition prediction_error_variance (i j d : nat) : F :=
  mean_over (Z.to_nat (dim_max ly - dim_min ly + 1))
    (λ r, block_projection B (default [] (PEV_PECs !! j))
            (Z.to_nat (random_degree ly + 1)) i r d).

(** The genetic variance the reliability of animal [j] is taken against. *)
Definition reliability_base (i j d : nat) : F :=
  let vg := entry3 var_G (i / Z.to_nat (number_of_traits ly))
                   (i mod Z.to_nat (number_of_traits ly)) d in
  if inbreeding then vg * (of_int 1 + entry1 inbreeding_coefficients j) else vg.

(** [REL = 1 - PEV / var_G] *)
Definition reliability (i j d : nat) : F :=
  of_int 1 - prediction_error_variance i j d / reliability_base i j d.

(** The inputs of the engine have the shapes the layout prescribes. *)
Definition pev_rel_inputs : Prop :=
  let L := Z.to_nat (lactation_dim ly) in
  let T := Z.to_nat (number_of_traits ly) in
  let N := Z.to_nat (animal_count ly) in
  let D := Z.to_nat (dim_max ly - dim_min ly + 1) in
  let K := Z.to_nat (random_degree ly + 1) in
  (0 < lactation_dim ly)%Z ∧ (0 < number_of_traits ly)%Z ∧
  (0 ≤ animal_count ly)%Z ∧
  (0 ≤ random_degree ly)%Z ∧ (dim_min ly ≤ dim_max ly)%Z ∧
  shape2 D K B ∧
  shape3 N (K * T * L)%nat (K * T * L)%nat PEV_PECs ∧
  shape3 L T D var_G ∧
  (inbreeding = true → length inbreeding_coefficients = N).

Definition reliabilities_allocated (st : reliabilities F) : Prop :=
  let L := Z.to_nat (lactation_dim ly) in
  let T := Z.to_nat (number_of_traits ly) in
  let N := Z.to_nat (animal_count ly) in
  let D := Z.to_nat (dim_max ly - dim_min ly + 1) in
  shape4 L T N D (PEVs st) ∧ shape4 L T N D (RELs st).

(** The loop invariant, at the start of iteration [(i, j)] of the nested
    loops: the curves of the pairs already visited are final. *)
Definition pev_rel_invariant (i j : Z) (st : reliabilities F) : Prop :=
  reliabilities_allocated st ∧
  ∀ i' j' : nat,
    (Z.of_nat j' < animal_count ly)%Z →
    (Z.of_nat i' < i)%Z ∨ (Z.of_nat i' = i ∧ Z.of_nat j' < j)%Z →
    let l := (i' / Z.to_nat (number_of_traits ly))%nat in
    let t := (i' mod Z.to_nat (number_of_traits ly))%nat in
    cell3 (PEVs st) l t j'
      = Some (curve ly (prediction_error_variance i' j')) ∧
    cell3 (RELs st) l t j' = Some (curve ly (reliability i' j')).

(** The reading of [REL averaged over DIM and animals]: one mean per
    (lactation, trait) over all animals and all DIM offsets. *)
Definition mean_over_dim_and_animals (rels : tensor4 F) (l t : nat) : option F :=
  (λ curves : matrix F, mean (concat curves)) <$> cell2 rels l t.
End PevRelFormulas.

(** ** Garrick's deregression per animal (section 4.6) *)

Section DrpFormulas.
Context {F : Type} `{Number F}.
Variables sires dams : list Z.
Variable avg_RELs : tensor3 F.
Variable avg_heritabilities : matrix F.
Variable EBVs : tensor4 F.

(** The 0-based slot of parent number [p]; numpy reads the last slot for the
    index [-1] of an unknown parent, a value [np.where] then discards. *)
Definition parent_slot (n : nat) (p : Z) : nat :=
  if (p =? 0)%Z then n - 1 else Z.to_nat (p - 1).

(** The terms of animal [a] for the pair [(l, t)], from the average
    reliabilities, the average heritability and the breeding values at the
    last DIM offset. *)
Definition deregression (n dims l t a : nat) : garrick_terms F :=
  let s := default 0%Z (sires !! a) in
  let d := default 0%Z (dams !! a) in
  garrick (entry2 avg_heritabilities l t)
          (entry3 avg_RELs l t (parent_slot n s))
          (entry3 avg_RELs l t (parent_slot n d))
          (entry3 avg_RELs l t a)
          (entry4 EBVs l t (parent_slot n s) (dims - 1))
          (entry4 EBVs l t (parent_slot n d) (dims - 1))
          (entry4 EBVs l t a (dims - 1))
          s d.

(** The inputs have the shapes of [L] lactations, [T] traits, [n] animals and
    [dims] DIM offsets; parents are numbered from 1, 0 standing for an
    unknown parent. *)
Definition drp_inputs (L T n dims : nat) : Prop :=
  0 < dims ∧
  shape3 L T n avg_RELs ∧ shape2 L T avg_heritabilities ∧
  shape4 L T n dims EBVs ∧
  length sires = n ∧ length dams = n ∧
  Forall (λ p, (0 ≤ p ≤ Z.of_nat n)%Z) sires ∧
  Forall (λ p, (0 ≤ p ≤ Z.of_nat n)%Z) dams.

Definition deregressed_allocated (L T n : nat) (st : deregressed F) : Prop :=
  shape3 L T n (DRPs st) ∧ shape3 L T n (DRP_RELs st) ∧
  shape3 L T n (DRP_weights st).
End DrpFormulas.

(** ** Scenarios

    Small concrete inputs, run on IEEE binary64. *)

(** One trait, one lactation, one animal, both degrees 0, no fixed effect,
    DIM range (5, 6). *)
Definition minimal_layout : layout :=
  {| len_fixed_effects := 0; fixed_degree := 0; random_degree := 0;
     number_of_traits := 1; lactation_dim := 1; animal_count := 1;
     dim_min := 5; dim_max := 6 |}.

Definition minimal_solutions : solutions float :=
  {| FE := [];
     fixed_curve_coefficients := zeros3 1 1 1;
     additive_coefficients := zeros4 1 1 1 1;
     permanent_coefficients := zeros4 1 1 1 1 |}.

(** The same model with one fixed effect, whose classes are numbered
    independently of the animals. *)
Definition one_fixed_effect_layout : layout :=
  {| len_fixed_effects := 1; fixed_degree := 0; random_degree := 0;
     number_of_traits := 1; lactation_dim := 1; animal_count := 1;
     dim_min := 5; dim_max := 6 |}.

(** Two traits, one lactation, two animals, random degree 1, DIM range
    (5, 6), with a basis and (co)variance matrices of small integers. *)
Definition sample_layout : layout :=
  {| len_fixed_effects := 0; fixed_degree := 0; random_degree := 1;
     number_of_traits := 2; lactation_dim := 1; animal_count := 2;
     dim_min := 5; dim_max := 6 |}.

Definition sample_basis : matrix float :=
  [[of_int 1; of_int (-1)]; [of_int 1; of_int 1]].

Definition sample_G : matrix float :=
  [[of_int 1; of_int 0; of_int 0; of_int 0];
   [of_int 0; of_int 2; of_int 0; of_int 0];
   [of_int 0; of_int 0; of_int 3; of_int 1];
   [of_int 0; of_int 0; of_int 1; of_int 4]].

Definition sample_R : matrix float :=
  [[of_int 5; of_int 0]; [of_int 0; of_int 6]].

Definition sample_variances : variances float := variances_init sample_layout.

(** A degenerate input of the variance engine: one trait, one lactation, a
    basis of ones, and (co)variances chosen so that the phenotypic variance is
    zero ([degenerate_zero]) or negative ([degenerate_negative_R] with
    [G = 1], [P = 0]). *)
Definition ones_basis : matrix float := [[of_int 1]; [of_int 1]].
Definition degenerate_zero : matrix float := [[of_int 0]].
Definition degenerate_one : matrix float := [[of_int 1]].
Definition degenerate_negative_R : matrix float := [[of_int (-3)]].
Definition minimal_variances : variances float := variances_init minimal_layout.


(** The same layout over exact arithmetic, with [G = 2], [P = 1], [R = 1]. *)
Definition exact_ones_basis : matrix R := [[1%R]; [1%R]].

(** Two animals with 2×2 PEV-PEC matrices over exact arithmetic; the line of
    animal 1 packs [[1], [2, 3]]. *)
Definition exact_pev_pec_lines : list (pev_pec_line R) :=
  [(1%Z, [1%R; 2%R; 3%R])].
Definition exact_PEV_PECs : tensor3 R := zeros3 2 2 2.

(** Inputs of the PEV/REL engine for [sample_layout]: both animals have the
    PEV-PEC matrix [sample_G]; the genetic variances are powers of two and the
    inbreeding coefficients are 0 and 1. *)
Definition sample_PEV_PECs : tensor3 float := [sample_G; sample_G].
Definition sample_var_G : tensor3 float :=
  [[[of_int 1; of_int 2]; [of_int 4; of_int 8]]].
Definition sample_inbreeding : list float := [of_int 0; of_int 1].
Definition sample_reliabilities : reliabilities float :=
  reliabilities_init sample_layout.

(** Inputs of the DRP engine: one lactation, one trait, two animals without
    known parents, two DIM offsets; average heritability 1/2, average
    reliabilities 0 and 3/4, terminal breeding values 2 and 4. *)
Definition drp_sires : list Z := [0%Z; 0%Z].
Definition drp_dams : list Z := [0%Z; 0%Z].
Definition drp_avg_RELs : tensor3 float :=
  [[[of_int 0; fdiv (of_int 3) (of_int 4)]]].
Definition drp_avg_heritabilities : matrix float := [[half]].
Definition drp_EBVs : tensor4 float :=
  [[[[of_int 1; of_int 2]; [of_int 3; of_int 4]]]].
Definition drp_state : deregressed float :=
  {| DRPs := zeros3 1 1 2; DRP_RELs := zeros3 1 1 2; DRP_weights := zeros3 1 1 2 |}.

(** ** Lactation curves: [__compute_fixed_curve_values__] and
       [__compute_random_curves_values__] *)

Section Curves.
Context {F : Type} `{Number F}.
Local Open Scope num_scope.

(** [a @ v] for a two-dimensional [a] and a one-dimensional [v] *)
Definition matvec (a : matrix F) (v : list F) : result (list F) :=
  if forallb (λ r, length r =? length v) a
  then Ok ((λ r, dot r v) <$> a)
  else Raise ValueError.

(** [self.legendre_partial_sums] *)
Variable ly : layout.
Variable sums : matrix F.

(** In [sums[:, range(fixed_degree + 1)] @ coefficients[i, j, :].T] the [.T]
    of a one-dimensional array is the array itself. *)
Definition compute_fixed_curve_values (fixed_curve_coefficients : tensor3 F)
    (fixed_curve_values : tensor3 F) : result (tensor3 F) :=
  for_each (range (lactation_dim ly))
    (λ i values,
       for_each (range (number_of_traits ly))
         (λ j values,
            columns ← take_columns sums (range (fixed_degree ly + 1));
            coefficients ← getrow3 fixed_curve_coefficients i j;
            row ← matvec columns coefficients;
            setrow3 values i j row)
         values)
    fixed_curve_values.

(** The fields [__compute_random_curves_values__] writes. *)
Record random_curves := {
  EBVs : tensor4 F;
  PERMs : tensor4 F
}.

Definition compute_random_curves_values
    (additive_coefficients permanent_coefficients : tensor4 F)
    (st : random_curves) : result random_curves :=
  for_each (range (lactation_dim ly))
    (λ i st,
       for_each (range (number_of_traits ly))
         (λ j st,
            for_each (range (animal_count ly))
              (λ k st,
                 columns ← take_columns sums (range (random_degree ly + 1));
                 additive ← getrow4 additive_coefficients i j k;
                 ebv ← matvec columns additive;
                 EBVs' ← setrow4 (EBVs st) i j k ebv;
                 columns' ← take_columns sums (range (random_degree ly + 1));
                 permanent ← getrow4 permanent_coefficients i j k;
                 perm ← matvec columns' permanent;
                 PERMs' ← setrow4 (PERMs st) i j k perm;
                 Ok {| EBVs := EBVs'; PERMs := PERMs' |})
              st)
         st)
    st.
End Curves.
Arguments random_curves F : clear implicits.

(** The value at DIM offset [d] of the curve with [n] coefficients [c]:
    the sum over [k < n] of [sums[d, k] · c k]. *)
Definition curve_value {F} `{Number F} (sums : matrix F) (n : nat)
    (c : nat → F) (d : nat) : F :=
  sigma n (λ k, fmul (entry2 sums d k) (c k)).

(** The pairs [(l, t)] two nested loops have visited when they reach
    [(i, j)]. *)
Definition visited (i j : Z) (l t : nat) : Prop :=
  (Z.of_nat l < i)%Z ∨ (Z.of_nat l = i ∧ Z.of_nat t < j)%Z.

(** The triples three nested loops have visited when they reach
    [(i, j, k)]. *)
Definition visited3 (i j k : Z) (l t a : nat) : Prop :=
  (Z.of_nat l < i)%Z ∨ (Z.of_nat l = i ∧ visited j k t a).

(** The random regression on the normalised Legendre polynomials: the value
    at the grid point [x] of the curve with [n] coefficients [c]. *)
Definition random_regression {F} `{Number F} (n : nat) (c : nat → F) (x : F) : F :=
  sigma n (λ k, fmul (fmul (legendre k x)
                           (fsqrt (fadd (of_int (Z.of_nat k)) half)))
                     (c k)).

(** ** The analysis at the end of [__init__]: lines 188-195 *)

Section Analysis.
Context {F : Type} `{Number F}.
Variable ly : layout.

(** Lines 193-195: [__compute_DRPs__] for every lactation and trait. *)
Definition compute_all_DRPs (sires dams : list Z) (avg_RELs : tensor3 F)
    (avg_heritabilities : matrix F) (EBVs : tensor4 F) (st : deregressed F)
  : result (deregressed F) :=
  for_each (range (lactation_dim ly))
    (λ i st,
       for_each (range (number_of_traits ly))
         (λ j st,
            compute_DRPs sires dams avg_RELs avg_heritabilities EBVs i j st)
         st)
    st.

(** The fields the analysis writes. *)
Record analysis := {
  fixed_curve_values : tensor3 F;
  curves : random_curves F;
  genetic : variances F;
  accuracy : reliabilities F;
  deregressed_proofs : deregressed F
}.

(** Lines 188-195, on the basis of lines 160-166, the (co)variances [G], [P]
    and [R], the coefficients read from [solutions], the matrices read from
    [pev_pec_bf90] and the pedigree attributes of [self.renum]. *)
Definition init_analysis (b : basis F) (G P R : matrix F)
    (sol : solutions F) (PEV_PECs : tensor3 F)
    (inbreeding : bool) (inbreeding_coefficients : list F)
    (sires dams : list Z) (st : analysis) : result analysis :=
  fixed ← compute_fixed_curve_values ly (legendre_partial_sums b)
             (fixed_curve_coefficients sol) (fixed_curve_values st);
  random ← compute_random_curves_values ly (legendre_partial_sums b)
             (additive_coefficients sol) (permanent_coefficients sol)
             (curves st);
  v ← compute_variances_and_heritabilities ly
         (legendre_random_coefficients b) G P R (genetic st);
  r ← compute_pevs_rels ly (legendre_random_coefficients b) PEV_PECs
         (var_G v) inbreeding inbreeding_coefficients (accuracy st);
  d ← compute_all_DRPs sires dams (avg_RELs r) (avg_heritabilities v)
         (EBVs random) (deregressed_proofs st);
  Ok {| fixed_curve_values := fixed; curves := random; genetic := v;
        accuracy := r; deregressed_proofs := d |}.

(** The fields of the analysis have the shapes [__init__] allocates. *)
Definition analysis_allocated (st : analysis) : Prop :=
  let L := Z.to_nat (lactation_dim ly) in
  let T := Z.to_nat (number_of_traits ly) in
  let N := Z.to_nat (animal_count ly) in
  let D := Z.to_nat (dim_max ly - dim_min ly + 1) in
  shape3 L T D (fixed_curve_values st) ∧
  shape4 L T N D (EBVs (curves st)) ∧ shape4 L T N D (PERMs (curves st)) ∧
  variances_allocated ly (genetic st) ∧
  reliabilities_allocated ly (accuracy st) ∧
  deregressed_allocated L T N (deregressed_proofs st).
End Analysis.
Arguments analysis F : clear implicits.

(** ** Destinations of the solution demultiplexer

    The cell a record of the [solutions] file is routed to, by the bands of
    [__read_blupf90_solutions__], and the value a cell holds after a whole
    stream. *)

Inductive destination :=
| to_FE
| to_fixed_curve (l t k : nat)
| to_additive (l t a k : nat)
| to_permanent (l t a k : nat).

#[export] Instance destination_eq_dec : EqDecision destination.
Proof. solve_decision. Defined.

Section Destinations.
Context {F : Type}.
Variable ly : layout.

Definition destination_of (rec : record F) : destination :=
  let '(trait, effect, level, _) := rec in
  let l := Z.to_nat ((trait - 1) / number_of_traits ly) in
  let t := Z.to_nat ((trait - 1) mod number_of_traits ly) in
  let a := Z.to_nat (level - 1) in
  let nF := len_fixed_effects ly in
  if (effect <=? nF)%Z then to_FE
  else if (effect <=? nF + fixed_degree ly + 1)%Z
  then to_fixed_curve l t (Z.to_nat (effect - nF - 1))
  else if (effect <=? nF + fixed_degree ly + random_degree ly + 2)%Z
  then to_additive l t a (Z.to_nat (effect - nF - fixed_degree ly - 2))
  else to_permanent l t a
         (Z.to_nat (effect - nF - fixed_degree ly - random_degree ly - 3)).

(** The value of the last record of the stream routed to [d], if any. *)
Fixpoint last_value (d : destination) (lines : list (record F)) : option F :=
  match lines with
  | [] => None
  | rec :: rest =>
      match last_value d rest with
      | Some v => Some v
      | None => if decide (destination_of rec = d) then Some rec.2 else None
      end
  end.

(** The cell of the coefficient tensors a destination names. *)
Definition cell_at (st : solutions F) (d : destination) : option F :=
  match d with
  | to_FE => None
  | to_fixed_curve l t k => cell3 (fixed_curve_coefficients st) l t k
  | to_additive l t a k => cell4 (additive_coefficients st) l t a k
  | to_permanent l t a k => cell4 (permanent_coefficients st) l t a k
  end.

(** The cells of the allocated tensors. *)
Definition in_tensors (d : destination) : Prop :=
  let L := Z.to_nat (lactation_dim ly) in
  let T := Z.to_nat (number_of_traits ly) in
  let N := Z.to_nat (animal_count ly) in
  match d with
  | to_FE => False
  | to_fixed_curve l t k => l < L ∧ t < T ∧ k < Z.to_nat (fixed_degree ly + 1)
  | to_additive l t a k | to_permanent l t a k =>
      l < L ∧ t < T ∧ a < N ∧ k < Z.to_nat (random_degree ly + 1)
  end.
End Destinations.

(** ** Text files

    A text file is the sequence of its characters, as Python's text mode
    delivers and takes them: every line end is the single character
    ['\n'].  The methods below read and rewrite [renf90.par]; its content is
    their argument and their result.  What is stored in the file itself
    differs from this text by the newline translation of [open], which
    [universal_newlines] and [write_newlines] below describe. *)

Import Ascii.AsciiSyntax String.StringSyntax.
Delimit Scope string_scope with string.
Delimit Scope char_scope with char.

Abbreviation text := (list Ascii.ascii).

#[export] Instance ascii_eq_dec : EqDecision Ascii.ascii := Ascii.ascii_dec.

(** A string literal. *)
Definition chars (s : String.string) : text := String.list_ascii_of_string s.
Arguments chars s%_string.

Definition newline : Ascii.ascii := "010"%char.

(** [f.readlines()]: the lines of the file, each with its line end; the
    last line has none when the file does not end with one. *)
Fixpoint readlines (s : text) : list text :=
  match s with
  | [] => []
  | c :: s' =>
      if decide (c = newline) then [c] :: readlines s'
      else match readlines s' with
           | [] => [[c]]
           | line :: lines => (c :: line) :: lines
           end
  end.

(** [f.writelines(lines)] on a file opened with ['w'] *)
Definition writelines (lines : list text) : text := concat lines.

(** [y in x] for two strings: [y] occurs in [x]. *)
Fixpoint contains (y x : text) : bool :=
  bool_decide (y `prefix_of` x)
  || match x with [] => false | _ :: x' => contains y x' end.

(** [str(n)] for an integer *)
Definition str_int (n : Z) : text :=
  String.list_ascii_of_string (DecimalString.NilZero.string_of_int (Z.to_int n)).

(** *** [remove_postgsf90_incompatible_options] *)

Definition incompatible_options : list text :=
  [chars "OPTION sol se"; chars "OPTION store accuracy";
   chars "OPTION store_pev_pec"].

Definition remove_postgsf90_incompatible_options (renf90_par : text) : text :=
  let lines := readlines renf90_par in
  let filtered_lines :=
    filter (λ x, filter (λ y, contains y x) incompatible_options = []) lines in
  writelines filtered_lines.

(** *** [__add_pev_pec__] and [__add_snp_effects__]: a line appended to the
    file opened with ['a'] *)

Definition add_pev_pec (ly : layout) (renf90_par : text) : text :=
  renf90_par
  ++ chars "OPTION store_pev_pec "
  ++ str_int (len_fixed_effects ly + fixed_degree ly + 2) ++ [newline].

Definition add_snp_effects (snp_p_values : bool) (renf90_par : text) : text :=
  if snp_p_values then renf90_par ++ chars "OPTION snp_p_value" ++ [newline]
  else renf90_par.

(** *** Lines

    A line is terminated when it ends with its only ['\n']; the lines of a
    file are terminated, but for the last one, which may be a non-empty line
    without line end. *)

Definition terminated (l : text) : Prop :=
  ∃ body, l = body ++ [newline] ∧ newline ∉ body.

Definition unterminated (l : text) : Prop := l ≠ [] ∧ newline ∉ l.

Fixpoint proper_lines (ls : list text) : Prop :=
  match ls with
  | [] => True
  | [l] => terminated l ∨ unterminated l
  | l :: ls' => terminated l ∧ proper_lines ls'
  end.

(** A line that holds none of the incompatible options. *)
Definition compatible (x : text) : Prop :=
  Forall (λ y, contains y x = false) incompatible_options.

#[export] Instance compatible_dec (x : text) : Decision (compatible x).
Proof. unfold compatible. apply _. Defined.

(** A file that is empty or ends with a line end. *)
Definition ends_with_newline (s : text) : Prop :=
  s = [] ∨ last s = Some newline.

(** *** [__add_updated_genetic_parameters__]

    The (co)variance matrices are written into the blocks of [renf90.par]
    that follow the lines ['RANDOM_RESIDUAL VALUES'] and ['(CO)VARIANCES'].
    [str] is Python's rendering of a matrix entry, which the method does not
    depend on; [G], [P] and [R] are two-dimensional arrays. *)

(** [sep.join(parts)] *)
Definition join (sep : text) (parts : list text) : text :=
  match parts with
  | [] => []
  | p :: ps => p ++ concat ((λ q, sep ++ q) <$> ps)
  end.

(** The local variables of the method. *)
Record parameter_scan := {
  file_lines : list text;
  read_residual : bool;
  read_additive : bool;
  read_permanent : bool;
  residual_line : Z;
  additive_line : Z;
  permanent_line : Z
}.

(** [file_lines.append(line)] *)
Definition append_line (line : text) (st : parameter_scan) : parameter_scan :=
  {| file_lines := file_lines st ++ [line];
     read_residual := read_residual st;
     read_additive := read_additive st;
     read_permanent := read_permanent st;
     residual_line := residual_line st;
     additive_line := additive_line st;
     permanent_line := permanent_line st |}.

Section ParameterFile.
Context {F : Type}.
Variable str : F → text.
Variables G P R : matrix F.

(** [' '.join(map(str, row)) + '\n'] *)
Definition matrix_line (row : list F) : text :=
  join (chars " ") (str <$> row) ++ [newline].

(** The lines that [for _ in range(((n - 1) // 7) * n)] reads and drops
    after the last row of a matrix with [n] rows. *)
Definition continuation_lines (M : matrix F) : Z :=
  (Z.of_nat (length M) - 1) / 7 * Z.of_nat (length M).

(** The body of the [while line:] loop, up to its last statement: the new
    state and the number of lines the inner [for] loop drops. *)
Definition scan_line (line : text) (st : parameter_scan)
  : result (parameter_scan * Z) :=
  if contains (chars "RANDOM_RESIDUAL VALUES") line then
    Ok ({| file_lines := file_lines st ++ [line];
           read_residual := true;
           read_additive := read_additive st;
           read_permanent := read_permanent st;
           residual_line := residual_line st;
           additive_line := additive_line st;
           permanent_line := permanent_line st |}, 0%Z)
  else if contains (chars "(CO)VARIANCES") line then
    if (0 <? additive_line st)%Z then
      Ok ({| file_lines := file_lines st ++ [line];
             read_residual := read_residual st;
             read_additive := read_additive st;
             read_permanent := true;
             residual_line := residual_line st;
             additive_line := additive_line st;
             permanent_line := permanent_line st |}, 0%Z)
    else
      Ok ({| file_lines := file_lines st ++ [line];
             read_residual := read_residual st;
             read_additive := true;
             read_permanent := read_permanent st;
             residual_line := residual_line st;
             additive_line := additive_line st;
             permanent_line := permanent_line st |}, 0%Z)
  else if read_residual st then
    row ← np_get R (residual_line st);
    let residual_line' := (residual_line st + 1)%Z in
    let done := (Z.of_nat (length R) <=? residual_line')%Z in
    Ok ({| file_lines := file_lines st ++ [matrix_line row];
           read_residual := if done then false else read_residual st;
           read_additive := read_additive st;
           read_permanent := read_permanent st;
           residual_line := residual_line';
           additive_line := additive_line st;
           permanent_line := permanent_line st |},
        if done then continuation_lines R else 0%Z)
  else if read_additive st then
    row ← np_get G (additive_line st);
    let additive_line' := (additive_line st + 1)%Z in
    let done := (Z.of_nat (length G) <=? additive_line')%Z in
    Ok ({| file_lines := file_lines st ++ [matrix_line row];
           read_residual := read_residual st;
           read_additive := if done then false else read_additive st;
           read_permanent := read_permanent st;
           residual_line := residual_line st;
           additive_line := additive_line';
           permanent_line := permanent_line st |},
        if done then continuation_lines G else 0%Z)
  else if read_permanent st then
    row ← np_get P (permanent_line st);
    let permanent_line' := (permanent_line st + 1)%Z in
    let done := (Z.of_nat (length P) <=? permanent_line')%Z in
    Ok ({| file_lines := file_lines st ++ [matrix_line row];
           read_residual := read_residual st;
           read_additive := read_additive st;
           read_permanent := if done then false else read_permanent st;
           residual_line := residual_line st;
           additive_line := additive_line st;
           permanent_line := permanent_line' |},
        if done then continuation_lines P else 0%Z)
  else Ok (append_line line st, 0%Z).

(** The [while line:] loop over the lines [f.readline()] delivers; [skip]
    counts the lines still to drop. *)
Fixpoint scan_lines (lines : list text) (skip : nat) (st : parameter_scan)
  : result parameter_scan :=
  match lines with
  | [] => Ok st
  | line :: rest =>
      match skip with
      | S k => scan_lines rest k st
      | O => r ← scan_line line st; scan_lines rest (Z.to_nat r.2) r.1
      end
  end.

Definition scan_start : parameter_scan :=
  {| file_lines := [];
     read_residual := false; read_additive := false; read_permanent := false;
     residual_line := 0; additive_line := 0; permanent_line := 0 |}.

(** The method: the new content of [renf90.par]. *)
Definition add_updated_genetic_parameters (renf90_par : text) : result text :=
  st ← scan_lines (readlines renf90_par) 0 scan_start;
  Ok (writelines (file_lines st)).
End ParameterFile.

(** The lines of the parameter file, by the markers they hold. *)
Definition residual_header (l : text) : Prop :=
  contains (chars "RANDOM_RESIDUAL VALUES") l = true.
Definition covariance_header (l : text) : Prop :=
  contains (chars "RANDOM_RESIDUAL VALUES") l = false ∧
  contains (chars "(CO)VARIANCES") l = true.
Definition plain (l : text) : Prop :=
  contains (chars "RANDOM_RESIDUAL VALUES") l = false ∧
  contains (chars "(CO)VARIANCES") l = false.

(** The block of a matrix with [n] rows in the file: [n] plain lines, one
    for each row, and the continuation lines that follow them. *)
Definition matrix_block {F} (M : matrix F) (ls : list text) : Prop :=
  length ls = length M + Z.to_nat (continuation_lines M) ∧
  Forall plain (take (length M) ls).

(** *** Newline translation

    [open('renf90.par')] and [open('renf90.par', 'w')] leave [newline] at
    its default.  On reading, the line ends ['\r\n'] and ['\r'] of the file
    are translated into ['\n']; on writing, every ['\n'] is translated into
    the line separator of the platform, [os.linesep]. *)

Definition carriage_return : Ascii.ascii := "013"%char.

Fixpoint universal_newlines (s : text) : text :=
  match s with
  | [] => []
  | c :: s' =>
      if decide (c = carriage_return) then
        newline :: match s' with
                   | c' :: s'' =>
                       if decide (c' = newline) then universal_newlines s''
                       else universal_newlines s'
                   | [] => []
                   end
      else c :: universal_newlines s'
  end.

Definition write_newlines (linesep : text) (s : text) : text :=
  concat ((λ c, if decide (c = newline) then linesep else [c]) <$> s).

(** The two functions that rewrite [renf90.par], from the stored file to
    the stored file.  A method that raises leaves the file as it is: it
    opens it for writing only after the last line is processed. *)
Definition remove_postgsf90_incompatible_options_file (linesep : text)
    (stored : text) : text :=
  write_newlines linesep
    (remove_postgsf90_incompatible_options (universal_newlines stored)).

Definition add_updated_genetic_parameters_file {F} (str : F → text)
    (G P R : matrix F) (linesep : text) (stored : text) : result text :=
  write_newlines linesep
  <$> add_updated_genetic_parameters str G P R (universal_newlines stored).

(** ** SNP effects and p-values: [__read_SNP_effects__],
       [__read_SNP_p_values__], [__compute_SNP_effects__] and
       [__compute_SNP_p_values__] *)

Section Snp.
Context {F : Type} `{Number F}.
Variable ly : layout.

(** One parsed line of [snp_sol] or [chrsnp_pval]: the stacked trait, the
    effect number, the SNP number and the value
    ([values[0]], [values[1]], [values[2]], [values[5]] of [snp_sol];
    [values[0]], [values[1]], [values[3]], [values[2]] of [chrsnp_pval]). *)
Definition snp_record : Type := Z * Z * Z * F.

(** The body of the [while line:] loop of [__read_SNP_effects__]. *)
Definition read_SNP_effect (rec : snp_record) (a : tensor4 F)
  : result (tensor4 F) :=
  let '(count, coef, snp, effect) := rec in
  lactation ← py_floordiv (count - 1) (number_of_traits ly);
  trait ← py_mod (count - 1) (number_of_traits ly);
  setitem4 a lactation trait
    (coef - len_fixed_effects ly - fixed_degree ly - 2) (snp - 1) effect.

Definition read_SNP_effects (snp_effects : bool) (lines : list snp_record)
    (SNP_effects_coefficients : tensor4 F) : result (tensor4 F) :=
  if snp_effects then for_each lines read_SNP_effect SNP_effects_coefficients
  else Ok SNP_effects_coefficients.

(** [10 ** -x] for a float [x], which the arithmetic of [Number] does not
    provide: the power, or nothing where it overflows.  Python's float
    power raises [OverflowError] when the result is too large for a
    float. *)
Variable ten_to_minus : F → option F.

Definition py_pow_ten_to_minus (x : F) : result F :=
  match ten_to_minus x with
  | Some p => Ok p
  | None => Raise OverflowError
  end.

(** The body of the [while line:] loop of [__read_SNP_p_values__].  The
    right-hand side of the assignment is evaluated before the item is
    assigned. *)
Definition read_SNP_p_value (rec : snp_record) (a : tensor4 F)
  : result (tensor4 F) :=
  let '(count, coef, snp, effect) := rec in
  lactation ← py_floordiv (count - 1) (number_of_traits ly);
  trait ← py_mod (count - 1) (number_of_traits ly);
  p_value ← py_pow_ten_to_minus effect;
  setitem4 a lactation trait
    (coef - len_fixed_effects ly - fixed_degree ly - 2) (snp - 1) p_value.

Definition read_SNP_p_values (snp_p_values : bool) (lines : list snp_record)
    (SNP_p_values_coefficients : tensor4 F) : result (tensor4 F) :=
  if snp_p_values
  then for_each lines read_SNP_p_value SNP_p_values_coefficients
  else Ok SNP_p_values_coefficients.

(** [a @ b] for a two-dimensional [a] and a four-dimensional [b]: the
    product with every matrix [b[i, j]]. *)
Definition matmul_stack (a : matrix F) (b : tensor4 F) : result (tensor4 F) :=
  map_result (map_result (matmul a)) b.

(** [__compute_SNP_effects__]: every iteration of the three loops assigns
    the same product to the whole field. *)
Definition compute_SNP_effects (sums : matrix F)
    (SNP_effects_coefficients : tensor4 F) (SNP_effects : tensor4 F)
  : result (tensor4 F) :=
  for_each (range (lactation_dim ly))
    (λ i st,
       for_each (range (number_of_traits ly))
         (λ j st,
            for_each (range (animal_count ly))
              (λ k st,
                 columns ← take_columns sums (range (random_degree ly + 1));
                 matmul_stack columns SNP_effects_coefficients)
              st)
         st)
    SNP_effects.

(** [__compute_SNP_p_values__] *)
Definition compute_SNP_p_values (sums : matrix F)
    (SNP_p_values_coefficients : tensor4 F) (SNP_p_values : tensor4 F)
  : result (tensor4 F) :=
  for_each (range (lactation_dim ly))
    (λ i st,
       for_each (range (number_of_traits ly))
         (λ j st,
            for_each (range (animal_count ly))
              (λ k st,
                 columns ← take_columns sums (range (random_degree ly + 1));
                 matmul_stack columns SNP_p_values_coefficients)
              st)
         st)
    SNP_p_values.

(** A record of the SNP files that respects the layout, for [S] SNPs. *)
Definition snp_in_layout (S : Z) (rec : snp_record) : Prop :=
  let '(count, coef, snp, _) := rec in
  let first := (len_fixed_effects ly + fixed_degree ly + 2)%Z in
  (1 ≤ count ≤ lactation_dim ly * number_of_traits ly)%Z ∧
  (first ≤ coef ≤ first + random_degree ly)%Z ∧
  (1 ≤ snp ≤ S)%Z.

(** The cell a record is stored in. *)
Definition snp_cell (rec : snp_record) : nat * nat * nat * nat :=
  let '(count, coef, snp, _) := rec in
  (Z.to_nat ((count - 1) / number_of_traits ly),
   Z.to_nat ((count - 1) mod number_of_traits ly),
   Z.to_nat (coef - len_fixed_effects ly - fixed_degree ly - 2),
   Z.to_nat (snp - 1)).

(** The value of the last record of the stream stored in [cell], if any. *)
Fixpoint snp_last_value (cell : nat * nat * nat * nat)
    (lines : list snp_record) : option F :=
  match lines with
  | [] => None
  | rec :: rest =>
      match snp_last_value cell rest with
      | Some v => Some v
      | None => if decide (snp_cell rec = cell) then Some rec.2 else None
      end
  end.
End Snp.
Arguments snp_record F : clear implicits.

(** ** Further scenarios *)

(** Inputs of the curve methods for [sample_layout]: the running sums of
    [sample_basis] and coefficients that are small integers. *)
Definition sample_sums : matrix float :=
  [[of_int 1; of_int (-1)]; [of_int 2; of_int 0]].
Definition sample_fixed_coefficients : tensor3 float :=
  [[[of_int 3]; [of_int 5]]].
Definition sample_fixed_values : tensor3 float := zeros3 1 2 2.
Definition sample_additive : tensor4 float :=
  [[[[of_int 1; of_int 2]; [of_int 3; of_int 4]];
    [[of_int 5; of_int 6]; [of_int 7; of_int 8]]]].
Definition sample_permanent : tensor4 float :=
  [[[[of_int 1; of_int 0]; [of_int 0; of_int 1]];
    [[of_int 2; of_int 0]; [of_int 0; of_int 2]]]].
Definition sample_random_curves : random_curves float :=
  {| EBVs := zeros4 1 2 2 2; PERMs := zeros4 1 2 2 2 |}.

(** Coefficients and curves of [minimal_layout] over exact arithmetic. *)
Definition exact_additive : tensor4 R := [[[[2%R]]]].
Definition exact_permanent : tensor4 R := [[[[3%R]]]].
Definition exact_random_curves : random_curves R :=
  {| EBVs := zeros4 1 1 1 2; PERMs := zeros4 1 1 1 2 |}.

(** Inputs of the DRP loop for [sample_layout]: two traits, two animals
    without known parents, two DIM offsets. *)
Definition loop_avg_RELs : tensor3 float :=
  [[[of_int 0; fdiv (of_int 3) (of_int 4)];
    [half; fdiv (of_int 1) (of_int 4)]]].
Definition loop_avg_heritabilities : matrix float := [[half; half]].
Definition loop_EBVs : tensor4 float :=
  [[[[of_int 1; of_int 2]; [of_int 3; of_int 4]];
    [[of_int 5; of_int 6]; [of_int 7; of_int 8]]]].
Definition loop_state : deregressed float :=
  {| DRPs := zeros3 1 2 2; DRP_RELs := zeros3 1 2 2; DRP_weights := zeros3 1 2 2 |}.

(** A whole analysis for [sample_layout], from the sample inputs of its
    steps. *)
Definition sample_solutions : solutions float :=
  {| FE := [];
     fixed_curve_coefficients := sample_fixed_coefficients;
     additive_coefficients := sample_additive;
     permanent_coefficients := sample_permanent |}.
Definition sample_analysis : analysis float :=
  {| fixed_curve_values := sample_fixed_values;
     curves := sample_random_curves;
     genetic := sample_variances;
     accuracy := sample_reliabilities;
     deregressed_proofs := loop_state |}.

(** A parameter file with one trait: the residual block and the blocks of
    the additive and the permanent effect hold the placeholder [1.0]; the
    matrices to write have integer entries. *)
Definition sample_R_int : matrix Z := [[5%Z]].
Definition sample_G_int : matrix Z := [[2%Z]].
Definition sample_P_int : matrix Z := [[3%Z]].
Definition par_line (s : String.string) : text := chars s ++ [newline].
Arguments par_line s%_string.
Definition sample_par_pre : list text := [par_line "DATAFILE"; par_line "renf90.dat"].
Definition sample_par_mid : list text := [par_line "RANDOM_GROUP"; par_line "3"].
Definition sample_par_post : list text := [par_line "OPTION missing 0"].
Definition sample_par : list text :=
  sample_par_pre ++ [par_line "RANDOM_RESIDUAL VALUES"] ++ [par_line "1.0"]
  ++ sample_par_mid ++ [par_line "(CO)VARIANCES"] ++ [par_line "1.0"]
  ++ sample_par_mid ++ [par_line "(CO)VARIANCES"] ++ [par_line "1.0"]
  ++ sample_par_post.

(** SNP coefficients for [sample_layout] (one lactation, two traits, random
    degree 1) and three SNPs; the effects of the random regression are
    numbered 2 and 3. *)
Definition sample_snp_coefficients : tensor4 float := zeros4 1 2 2 3.
Definition sample_snp_lines : list (snp_record float) :=
  [(1, 2, 1, of_int 4); (2, 3, 3, of_int 6); (1, 2, 1, of_int 8)]%Z.

(** Inputs of the PEV/REL engine for [minimal_layout] over exact
    arithmetic: a PEV-PEC matrix [[1]] against the genetic variance 2. *)
Definition exact_unit_PEV_PECs : tensor3 R := [[[1%R]]].
Definition exact_var_G : tensor3 R := [[[2%R; 2%R]]].
Definition exact_reliabilities : reliabilities R := reliabilities_init minimal_layout.

(** A parameter file without marker and without option, stored with the line
    ends ['\r\n']. *)
Definition crlf_par : text :=
  chars "RANDOM_GROUP" ++ [carriage_return; newline]
  ++ chars "OPTION missing 0" ++ [carriage_return; newline].

(** The SNP records of [sample_snp_lines] over exact arithmetic, where a
    power of ten never overflows. *)
Definition exact_ten_to_minus (x : R) : option R := Some (Rpower 10 (- x)).
Definition exact_snp_coefficients : tensor4 R := zeros4 1 2 2 3.
Definition exact_snp_lines : list (snp_record R) :=
  [(1, 2, 1, 4%R); (2, 3, 3, 6%R); (1, 2, 1, 8%R)]%Z.

(** A model without fixed curve ([fixed_degree = -1]) on a DIM range of a
    single day. *)
Definition no_fixed_curve_layout : layout :=
  {| len_fixed_effects := 0; fixed_degree := -1; random_degree := 0;
     number_of_traits := 1; lactation_dim := 1; animal_count := 1;
     dim_min := 5; dim_max := 5 |}.

(** * Properties *)

(** ** numpy indexing *)

Lemma np_index_nonneg (n : nat) (i : Z) :
  (0 ≤ i < Z.of_nat n)%Z → np_index n i = Ok (Z.to_nat i).
Proof.
  intros Hi. unfold np_index.
  destruct (Z.leb_spec 0 i), (Z.ltb_spec i (Z.of_nat n)); simpl; (done || lia).
Qed.

Lemma np_index_negative (n : nat) (i : Z) :
  (- Z.of_nat n ≤ i < 0)%Z → np_index n i = Ok (Z.to_nat (i + Z.of_nat n)).
Proof.
  intros Hi. unfold np_index.
  destruct (Z.leb_spec 0 i), (Z.ltb_spec i (Z.of_nat n)),
    (Z.leb_spec (- Z.of_nat n) i), (Z.ltb_spec i 0); simpl; (done || lia).
Qed.

Lemma np_index_beyond (n : nat) (i : Z) :
  (Z.of_nat n ≤ i)%Z → np_index n i = Raise IndexError.
Proof.
  intros Hi. unfold np_index.
  destruct (Z.leb_spec 0 i), (Z.ltb_spec i (Z.of_nat n)),
    (Z.leb_spec (- Z.of_nat n) i), (Z.ltb_spec i 0); simpl; (done || lia).
Qed.

Lemma np_get_nonneg {A} (a : list A) (i : Z) (x : A) :
  (0 ≤ i)%Z → a !! Z.to_nat i = Some x → np_get a i = Ok x.
Proof.
  intros Hi Hx. unfold np_get.
  rewrite np_index_nonneg by (apply lookup_lt_Some in Hx; lia).
  simpl. by rewrite Hx.
Qed.

Lemma np_get_negative {A} (a : list A) (i : Z) (x : A) :
  (- Z.of_nat (length a) ≤ i < 0)%Z →
  a !! Z.to_nat (i + Z.of_nat (length a)) = Some x → np_get a i = Ok x.
Proof.
  intros Hi Hx. unfold np_get. rewrite np_index_negative by done.
  simpl. by rewrite Hx.
Qed.

Lemma np_at_nonneg {A} (a : list A) (i : Z) (f : A → result A) (x x' : A) :
  (0 ≤ i)%Z → a !! Z.to_nat i = Some x → f x = Ok x' →
  np_at a i f = Ok (<[Z.to_nat i := x']> a).
Proof.
  intros Hi Hx Hf. unfold np_at.
  rewrite np_index_nonneg by (apply lookup_lt_Some in Hx; lia).
  simpl. rewrite Hx. by rewrite Hf.
Qed.

Lemma np_at_beyond {A} (a : list A) (i : Z) (f : A → result A) :
  (Z.of_nat (length a) ≤ i)%Z → np_at a i f = Raise IndexError.
Proof. intros Hi. unfold np_at. by rewrite np_index_beyond. Qed.

Lemma alter_insert {A} (f : A → A) (a : list A) (i : nat) (x : A) :
  a !! i = Some x → alter f i a = <[i := f x]> a.
Proof.
  intros Hx. apply list_eq. intros k.
  destruct (decide (k = i)) as [->|Hne].
  - rewrite list_lookup_alter_eq, Hx.
    by rewrite list_lookup_insert_eq by (by eapply lookup_lt_Some).
  - by rewrite list_lookup_alter_ne, list_lookup_insert_ne.
Qed.

Section ArrayFacts.
Context {F : Type}.
Implicit Types (v : F) (i j k l : Z).

Lemma setitem1_nonneg (a : list F) i v :
  (0 ≤ i < Z.of_nat (length a))%Z →
  setitem1 a i v = Ok (store1 (Z.to_nat i) v a).
Proof.
  intros Hi. unfold setitem1, store1.
  destruct (lookup_lt_is_Some_2 a (Z.to_nat i)) as [x Hx]; [lia|].
  by apply (np_at_nonneg a i _ x v); [lia| |].
Qed.

Lemma setitem2_nonneg n0 n1 (a : list (list F)) i j v :
  shape2 n0 n1 a → (0 ≤ i < Z.of_nat n0)%Z → (0 ≤ j < Z.of_nat n1)%Z →
  setitem2 a i j v = Ok (store2 (Z.to_nat i) (Z.to_nat j) v a).
Proof.
  intros [Hlen Hall] Hi Hj. unfold setitem2, store2.
  destruct (lookup_lt_is_Some_2 a (Z.to_nat i)) as [x Hx]; [lia|].
  assert (shape1 n1 x) as Hs by (eapply Forall_lookup_1; eauto).
  unfold shape1 in Hs.
  rewrite (np_at_nonneg a i _ x (store1 (Z.to_nat j) v x));
    [|lia|done|apply setitem1_nonneg; lia].
  by erewrite alter_insert.
Qed.

Lemma setitem3_nonneg n0 n1 n2 (a : list (list (list F))) i j k v :
  shape3 n0 n1 n2 a →
  (0 ≤ i < Z.of_nat n0)%Z → (0 ≤ j < Z.of_nat n1)%Z → (0 ≤ k < Z.of_nat n2)%Z →
  setitem3 a i j k v = Ok (store3 (Z.to_nat i) (Z.to_nat j) (Z.to_nat k) v a).
Proof.
  intros [Hlen Hall] Hi Hj Hk. unfold setitem3, store3.
  destruct (lookup_lt_is_Some_2 a (Z.to_nat i)) as [x Hx]; [lia|].
  assert (shape2 n1 n2 x) as Hs by (eapply Forall_lookup_1; eauto).
  rewrite (np_at_nonneg a i _ x (store2 (Z.to_nat j) (Z.to_nat k) v x));
    [|lia|done|by eapply setitem2_nonneg].
  by erewrite alter_insert.
Qed.

Lemma setitem4_nonneg n0 n1 n2 n3 (a : list (list (list (list F)))) i j k l v :
  shape4 n0 n1 n2 n3 a →
  (0 ≤ i < Z.of_nat n0)%Z → (0 ≤ j < Z.of_nat n1)%Z →
  (0 ≤ k < Z.of_nat n2)%Z → (0 ≤ l < Z.of_nat n3)%Z →
  setitem4 a i j k l v
  = Ok (store4 (Z.to_nat i) (Z.to_nat j) (Z.to_nat k) (Z.to_nat l) v a).
Proof.
  intros [Hlen Hall] Hi Hj Hk Hl. unfold setitem4, store4.
  destruct (lookup_lt_is_Some_2 a (Z.to_nat i)) as [x Hx]; [lia|].
  assert (shape3 n1 n2 n3 x) as Hs by (eapply Forall_lookup_1; eauto).
  rewrite (np_at_nonneg a i _ x (store3 (Z.to_nat j) (Z.to_nat k) (Z.to_nat l) v x));
    [|lia|done|by eapply setitem3_nonneg].
  by erewrite alter_insert.
Qed.

(** What a cell update does to the cells of the array. *)
Lemma cell2_store2 (a : list (list F)) (i j i' j' : nat) v :
  cell2 (store2 i j v a) i' j'
  = if decide (i' = i ∧ j' = j) then (λ _, v) <$> cell2 a i j else cell2 a i' j'.
Proof.
  unfold cell2, store2, store1.
  destruct (decide (i' = i)) as [->|Hi].
  - rewrite list_lookup_alter_eq. destruct (a !! i) as [r|] eqn:Hr; simpl.
    + destruct (decide (j' = j)) as [->|Hj].
      * rewrite decide_True by done.
        destruct (r !! j) eqn:Hj; simpl.
        -- by rewrite list_lookup_insert_eq by (by eapply lookup_lt_Some).
        -- rewrite list_insert_ge; [done|by apply lookup_ge_None].
      * rewrite decide_False by tauto.
        by rewrite list_lookup_insert_ne.
    + by case_decide.
  - rewrite list_lookup_alter_ne by done. rewrite decide_False by tauto. done.
Qed.

Lemma cell3_store3 (a : list (list (list F))) (i j k i' j' k' : nat) v :
  cell3 (store3 i j k v a) i' j' k'
  = if decide (i' = i ∧ j' = j ∧ k' = k) then (λ _, v) <$> cell3 a i j k
    else cell3 a i' j' k'.
Proof.
  unfold cell3, store3.
  destruct (decide (i' = i)) as [->|Hi].
  - rewrite list_lookup_alter_eq. destruct (a !! i) as [m|] eqn:Hm; simpl.
    + rewrite cell2_store2. repeat case_decide; intuition congruence.
    + by case_decide.
  - rewrite list_lookup_alter_ne by done. rewrite decide_False by tauto. done.
Qed.

Lemma cell4_store4 (a : list (list (list (list F)))) (i j k l i' j' k' l' : nat) v :
  cell4 (store4 i j k l v a) i' j' k' l'
  = if decide (i' = i ∧ j' = j ∧ k' = k ∧ l' = l) then (λ _, v) <$> cell4 a i j k l
    else cell4 a i' j' k' l'.
Proof.
  unfold cell4, store4.
  destruct (decide (i' = i)) as [->|Hi].
  - rewrite list_lookup_alter_eq. destruct (a !! i) as [m|] eqn:Hm; simpl.
    + rewrite cell3_store3. repeat case_decide; intuition congruence.
    + by case_decide.
  - rewrite list_lookup_alter_ne by done. rewrite decide_False by tauto. done.
Qed.
End ArrayFacts.

(** ** Solution demultiplexer *)

Section DemultiplexerFacts.
Context {F : Type}.
Variable ly : layout.
Implicit Types (st : solutions F) (v : F).

Lemma stacked_trait_split (trait : Z) :
  (0 < number_of_traits ly)%Z →
  (1 ≤ trait ≤ lactation_dim ly * number_of_traits ly)%Z →
  (0 ≤ (trait - 1) / number_of_traits ly < lactation_dim ly)%Z ∧
  (0 ≤ (trait - 1) mod number_of_traits ly < number_of_traits ly)%Z.
Proof.
  intros HT Htr. split; [split|].
  - apply Z.div_pos; lia.
  - apply Z.div_lt_upper_bound; lia.
  - apply Z.mod_pos_bound; lia.
Qed.

(** C1.  Every record is routed by its effect band to exactly one
    destination, with the bounds each band needs and no others.
    Up to [F = len(fixed_effects)] the value is appended to [FE], whatever the
    trait and the level are (the code reads neither).  Up to
    [F + fixed_degree + 1], for a 1-based trait within the [L*T] stacked
    traits, it is stored in the fixed-curve tensor at
    [((trait-1) div T, (trait-1) mod T, effect-F-1)], whatever the level is.
    Up to [F + fixed_degree + random_degree + 2], for such a trait and a
    1-based level within the [N] animals, it is stored in the additive tensor
    at [(lactation, trait', level-1, effect-F-fixed_degree-2)]; above that, and
    up to the last effect [F + fixed_degree + 2*random_degree + 3] of the
    layout, in the permanent tensor at
    [(lactation, trait', level-1, effect-F-fixed_degree-random_degree-3)].
    Every other field, and every other cell, is left as it was. *)
Theorem read_solution_routes st (trait effect level : Z) v :
  let nF := len_fixed_effects ly in
  let fd := fixed_degree ly in
  let rd := random_degree ly in
  let lactation := Z.to_nat ((trait - 1) / number_of_traits ly) in
  let trait' := Z.to_nat ((trait - 1) mod number_of_traits ly) in
  let animal := Z.to_nat (level - 1) in
  ((effect ≤ nF)%Z →
     read_solution ly (trait, effect, level, v) st
     = Ok {| FE := FE st ++ [v];
             fixed_curve_coefficients := fixed_curve_coefficients st;
             additive_coefficients := additive_coefficients st;
             permanent_coefficients := permanent_coefficients st |}) ∧
  (allocated ly st → (0 < number_of_traits ly)%Z →
   (1 ≤ trait ≤ lactation_dim ly * number_of_traits ly)%Z →
   (nF < effect ≤ nF + fd + 1)%Z →
     read_solution ly (trait, effect, level, v) st
     = Ok {| FE := FE st;
             fixed_curve_coefficients :=
               store3 lactation trait' (Z.to_nat (effect - nF - 1)) v
                      (fixed_curve_coefficients st);
             additive_coefficients := additive_coefficients st;
             permanent_coefficients := permanent_coefficients st |}) ∧
  (allocated ly st → (0 < number_of_traits ly)%Z → (0 ≤ fd + 1)%Z →
   (1 ≤ trait ≤ lactation_dim ly * number_of_traits ly)%Z →
   (1 ≤ level ≤ animal_count ly)%Z →
   (nF + fd + 1 < effect ≤ nF + fd + rd + 2)%Z →
     read_solution ly (trait, effect, level, v) st
     = Ok {| FE := FE st;
             fixed_curve_coefficients := fixed_curve_coefficients st;
             additive_coefficients :=
               store4 lactation trait' animal (Z.to_nat (effect - nF - fd - 2)) v
                      (additive_coefficients st);
             permanent_coefficients := permanent_coefficients st |}) ∧
  (allocated ly st → (0 < number_of_traits ly)%Z →
   (0 ≤ fd + 1)%Z → (0 ≤ rd + 1)%Z →
   (1 ≤ trait ≤ lactation_dim ly * number_of_traits ly)%Z →
   (1 ≤ level ≤ animal_count ly)%Z →
   (nF + fd + rd + 2 < effect ≤ nF + fd + 2 * rd + 3)%Z →
     read_solution ly (trait, effect, level, v) st
     = Ok {| FE := FE st;
             fixed_curve_coefficients := fixed_curve_coefficients st;
             additive_coefficients := additive_coefficients st;
             permanent_coefficients :=
               store4 lactation trait' animal
                      (Z.to_nat (effect - nF - fd - rd - 3)) v
                      (permanent_coefficients st) |}).
Proof.
  cbv zeta. unfold read_solution, py_floordiv, py_mod.
  split; [|split; [|split]].
  - intros Hband.
    destruct (Z.leb_spec effect (len_fixed_effects ly)); [done|lia].
  - intros (Hfix & _ & _) HT Htr Hband.
    destruct (stacked_trait_split trait HT Htr) as [Hl Ht].
    assert ((number_of_traits ly =? 0)%Z = false) as -> by lia.
    destruct (Z.leb_spec effect (len_fixed_effects ly)); [lia|].
    destruct (Z.leb_spec effect (len_fixed_effects ly + fixed_degree ly + 1)); [|lia].
    simpl. rewrite (setitem3_nonneg _ _ _ _ _ _ _ v Hfix); [done|lia|lia|lia].
  - intros (_ & Hadd & _) HT Hfd Htr Hlev Hband.
    destruct (stacked_trait_split trait HT Htr) as [Hl Ht].
    assert ((number_of_traits ly =? 0)%Z = false) as -> by lia.
    destruct (Z.leb_spec effect (len_fixed_effects ly)); [lia|].
    destruct (Z.leb_spec effect (len_fixed_effects ly + fixed_degree ly + 1)); [lia|].
    destruct (Z.leb_spec effect
      (len_fixed_effects ly + fixed_degree ly + random_degree ly + 2)); [|lia].
    simpl. rewrite (setitem4_nonneg _ _ _ _ _ _ _ _ _ v Hadd); [done|lia|lia|lia|lia].
  - intros (_ & _ & Hperm) HT Hfd Hrd Htr Hlev Hband.
    destruct (stacked_trait_split trait HT Htr) as [Hl Ht].
    assert ((number_of_traits ly =? 0)%Z = false) as -> by lia.
    destruct (Z.leb_spec effect (len_fixed_effects ly)); [lia|].
    destruct (Z.leb_spec effect (len_fixed_effects ly + fixed_degree ly + 1)); [lia|].
    destruct (Z.leb_spec effect
      (len_fixed_effects ly + fixed_degree ly + random_degree ly + 2)); [lia|].
    simpl. rewrite (setitem4_nonneg _ _ _ _ _ _ _ _ _ v Hperm); [done|lia|lia|lia|lia].
Qed.

(** X23.  Beyond the last band of the layout nothing is stored: for a record
    whose effect number exceeds [len(fixed_effects) + fixed_degree +
    2·random_degree + 3] numpy rejects the coefficient offset, and
    [__read_blupf90_solutions__] raises [IndexError]. *)
Lemma read_solution_beyond_layout st (trait effect level : Z) v :
  allocated ly st →
  (0 < number_of_traits ly)%Z →
  (1 ≤ trait ≤ lactation_dim ly * number_of_traits ly)%Z →
  (1 ≤ level ≤ animal_count ly)%Z →
  (0 ≤ fixed_degree ly)%Z → (0 ≤ random_degree ly)%Z →
  (len_fixed_effects ly + fixed_degree ly + 2 * random_degree ly + 3 < effect)%Z →
  read_solution ly (trait, effect, level, v) st = Raise IndexError.
Proof.
  intros (Hfix & Hadd & [Hlen Hperm]) HT Htr Hlev Hfd Hrd Heff.
  destruct (stacked_trait_split trait HT Htr) as [Hl Ht].
  assert ((number_of_traits ly =? 0)%Z = false) as HT0 by lia.
  unfold read_solution, py_floordiv, py_mod. rewrite HT0.
  destruct (Z.leb_spec effect (len_fixed_effects ly)); [lia|].
  destruct (Z.leb_spec effect (len_fixed_effects ly + fixed_degree ly + 1)); [lia|].
  destruct (Z.leb_spec effect
    (len_fixed_effects ly + fixed_degree ly + random_degree ly + 2)); [lia|].
  simpl. unfold setitem4, setitem3, setitem2, setitem1.
  set (a := permanent_coefficients st) in *.
  destruct (lookup_lt_is_Some_2 a (Z.to_nat ((trait - 1) / number_of_traits ly)))
    as [t3 H3]; [lia|].
  pose proof (Forall_lookup_1 _ _ _ _ Hperm H3) as [Hlen3 Hall3].
  destruct (lookup_lt_is_Some_2 t3 (Z.to_nat ((trait - 1) mod number_of_traits ly)))
    as [t2 H2']; [lia|].
  pose proof (Forall_lookup_1 _ _ _ _ Hall3 H2') as [Hlen2 Hall2].
  destruct (lookup_lt_is_Some_2 t2 (Z.to_nat (level - 1))) as [t1 H1']; [lia|].
  pose proof (Forall_lookup_1 _ _ _ _ Hall2 H1') as Hlen1. unfold shape1 in Hlen1.
  unfold np_at at 1. rewrite np_index_nonneg by lia. simpl. rewrite H3.
  unfold np_at at 1. rewrite np_index_nonneg by lia. simpl. rewrite H2'.
  unfold np_at at 1. rewrite np_index_nonneg by lia. simpl. rewrite H1'.
  rewrite np_at_beyond by lia. done.
Qed.

(** The fixed-effect estimates are collected in stream order. *)
Lemma read_blupf90_solutions_FE (lines : list (record F)) st st' :
  read_blupf90_solutions ly lines st = Ok st' →
  FE st' = FE st
    ++ ((λ r : record F, r.2) <$>
        filter (λ r : record F, (r.1.1.2 ≤ len_fixed_effects ly)%Z) lines).
Proof.
  unfold read_blupf90_solutions. revert st.
  induction lines as [|[[[trait effect] level] v] lines IH]; intros st;
    cbn [for_each].
  - intros [= <-]. simpl. by rewrite app_nil_r.
  - destruct (read_solution ly (trait, effect, level, v) st) as [st1|] eqn:Hst1;
      simpl; [|intros [=]].
    intros Hrest. rewrite (IH _ Hrest).
    rewrite filter_cons; simpl. unfold read_solution in Hst1.
    destruct (Z.leb_spec effect (len_fixed_effects ly)).
    + rewrite decide_True by done. injection Hst1 as <-. simpl.
      by rewrite <- app_assoc.
    + rewrite decide_False by lia. f_equal.
      repeat (match type of Hst1 with
              | context [if ?b then _ else _] => destruct b
              | context [py_floordiv ?a ?b] => destruct (py_floordiv a b); simpl in Hst1
              | context [py_mod ?a ?b] => destruct (py_mod a b); simpl in Hst1
              | context [setitem3 ?a ?b ?c ?d ?e] =>
                  destruct (setitem3 a b c d e); simpl in Hst1
              | context [setitem4 ?a ?b ?c ?d ?e ?f] =>
                  destruct (setitem4 a b c d e f); simpl in Hst1
              end; try discriminate);
        by injection Hst1 as <-.
Qed.
End DemultiplexerFacts.

(** The scenario of the specification: with no fixed effect and both degrees
    0, the record [(1, 1, 1, 2.0)] lands in [fixed_curve_coefficients[0,0,0]];
    and with one fixed effect a record of that effect is collected in [FE]
    though its class level 5 exceeds the single animal. *)
Lemma read_solution_routes_witness :
  read_solution minimal_layout (1, 1, 1, float_of_int 2)%Z minimal_solutions
  = Ok {| FE := [];
          fixed_curve_coefficients := [[[float_of_int 2]]];
          additive_coefficients := [[[[float_of_int 0]]]];
          permanent_coefficients := [[[[float_of_int 0]]]] |} ∧
  read_solution one_fixed_effect_layout (1, 1, 5, float_of_int 2)%Z
    minimal_solutions
  = Ok {| FE := [float_of_int 2];
          fixed_curve_coefficients := [[[float_of_int 0]]];
          additive_coefficients := [[[[float_of_int 0]]]];
          permanent_coefficients := [[[[float_of_int 0]]]] |}.
Proof.
  split.
  - refine (proj1 (proj2 (read_solution_routes minimal_layout minimal_solutions
                            1 1 1 (float_of_int 2))) _ _ _ _).
    + repeat split; repeat constructor.
    + reflexivity.
    + split; discriminate.
    + split; [reflexivity|discriminate].
  - refine (proj1 (read_solution_routes one_fixed_effect_layout
                     minimal_solutions 1 1 5 (float_of_int 2)) _).
    discriminate.
Defined.

(** ** Loops *)

Lemma for_each_app {A St} (xs ys : list A) (body : A → St → result St) (s : St) :
  for_each (xs ++ ys) body s = for_each xs body s ≫= for_each ys body.
Proof.
  revert s. induction xs as [|x xs IH]; intros s; simpl; [done|].
  destruct (body x s) as [s'|e]; simpl; [apply IH|done].
Qed.

(** Invariant rule for [for i in range(n)]. *)
Lemma for_each_range {St} (I : Z → St → Prop) (n : Z)
    (body : Z → St → result St) (s : St) :
  (0 ≤ n)%Z →
  I 0%Z s →
  (∀ i s, (0 ≤ i < n)%Z → I i s → ∃ s', body i s = Ok s' ∧ I (i + 1)%Z s') →
  ∃ s', for_each (range n) body s = Ok s' ∧ I n s'.
Proof.
  intros Hn H0. rewrite <- (Z2Nat.id n) by done.
  generalize (Z.to_nat n). clear n Hn. intros k.
  induction k as [|k IH]; intros Hstep.
  - exists s. by split.
  - destruct IH as (s1 & Hs1 & HI1).
    { intros i s0 Hi. apply Hstep. lia. }
    destruct (Hstep (Z.of_nat k) s1) as (s2 & Hs2 & HI2); [lia|done|].
    exists s2. split.
    + unfold range in *. rewrite seqZ_S, for_each_app, Hs1. simpl.
      rewrite Z.add_0_l, Hs2. done.
    + by replace (Z.of_nat (S k)) with (Z.of_nat k + 1)%Z by lia.
Qed.

(** ** Vectors and matrices *)

Section MatrixFacts.
Context {F : Type} `{Number F}.
Implicit Types (u v : list F) (a b : matrix F).

Lemma tabulate_entries u :
  u = (λ k, entry1 u k) <$> seq 0 (length u).
Proof.
  apply list_eq. intros k. rewrite list_lookup_fmap.
  destruct (u !! k) as [x|] eqn:Hk.
  - rewrite lookup_seq_lt by (by eapply lookup_lt_Some). simpl.
    unfold entry1. by rewrite Hk.
  - rewrite lookup_seq_ge; [done|by apply lookup_ge_None].
Qed.

Lemma entry1_lookup u k x : u !! k = Some x → entry1 u k = x.
Proof. unfold entry1. by intros ->. Qed.

Lemma entry2_cell a i j x : cell2 a i j = Some x → entry2 a i j = x.
Proof. unfold entry2. by intros ->. Qed.

Lemma lookup_entry1 u k : k < length u → u !! k = Some (entry1 u k).
Proof.
  intros Hk. destruct (lookup_lt_is_Some_2 u k Hk) as [x Hx].
  by rewrite (entry1_lookup _ _ _ Hx).
Qed.

Lemma shape2_row n m a i r : shape2 n m a → a !! i = Some r → length r = m.
Proof. intros [_ Hall] Hr. by apply (Forall_lookup_1 _ _ _ _ Hall Hr). Qed.

Lemma shape2_cell n m a i j :
  shape2 n m a → i < n → j < m → cell2 a i j = Some (entry2 a i j).
Proof.
  intros Hs Hi Hj. pose proof Hs as [Hlen _].
  destruct (lookup_lt_is_Some_2 a i) as [r Hr]; [lia|].
  pose proof (shape2_row _ _ _ _ _ Hs Hr) as Hm.
  destruct (lookup_lt_is_Some_2 r j) as [x Hx]; [lia|].
  unfold entry2, cell2. rewrite Hr. simpl. by rewrite Hx.
Qed.

Lemma shape2_ncols n m a : shape2 n m a → 0 < n → ncols a = m.
Proof.
  intros [Hlen Hall] Hn. destruct a as [|r a]; simpl in *; [lia|].
  by inversion Hall.
Qed.

Lemma zip_with_entries (op : F → F → F) u v n :
  length u = n → length v = n →
  zip_with op u v = (λ k, op (entry1 u k) (entry1 v k)) <$> seq 0 n.
Proof.
  intros Hu Hv. apply list_eq. intros k.
  rewrite lookup_zip_with, list_lookup_fmap.
  destruct (decide (k < n)) as [Hk|Hk].
  - rewrite lookup_seq_lt by done.
    rewrite (lookup_entry1 u k), (lookup_entry1 v k) by lia. done.
  - rewrite lookup_seq_ge by lia.
    rewrite (lookup_ge_None_2 u k) by lia. done.
Qed.

Lemma dot_sigma u v n :
  length u = n → length v = n →
  dot u v = sigma n (λ k, entry1 u k * entry1 v k)%num.
Proof. intros Hu Hv. unfold dot, sigma. by rewrite (zip_with_entries _ u v n). Qed.

Lemma sigma_ext n (f g : nat → F) :
  (∀ k, k < n → f k = g k) → sigma n f = sigma n g.
Proof.
  intros Hfg. unfold sigma. f_equal. apply list_eq. intros k.
  rewrite !list_lookup_fmap.
  destruct (decide (k < n)) as [Hk|Hk].
  - rewrite lookup_seq_lt by done. simpl. by rewrite Hfg.
  - by rewrite lookup_seq_ge by lia.
Qed.

Lemma column_entries n m a j :
  shape2 n m a → j < m → column j a = (λ i, entry2 a i j) <$> seq 0 n.
Proof.
  intros Hs Hj. unfold column. pose proof Hs as [Hlen Hall].
  clear Hs. revert n Hlen. induction a as [|r a IH]; intros n Hlen; simpl in *.
  - by subst n.
  - inversion Hall as [|? ? Hr Hall']; subst. unfold shape1 in Hr.
    destruct (lookup_lt_is_Some_2 r j) as [x Hx]; [lia|].
    rewrite Hx. simpl.
    change (list_omap (list F) F (lookup j) a) with (omap (.!! j) a).
    rewrite (IH Hall' _ eq_refl).
    f_equal; [unfold entry2, cell2; simpl; by rewrite Hx|].
    rewrite <- fmap_S_seq, <- list_fmap_compose. done.
Qed.

Lemma length_column n m a j : shape2 n m a → j < m → length (column j a) = n.
Proof.
  intros Hs Hj. rewrite (column_entries n m) by done.
  by rewrite length_fmap, length_seq.
Qed.

(** Transposition *)
Lemma transpose_shape n m a : shape2 n m a → 0 < n → shape2 m n (transpose a).
Proof.
  intros Hs Hn. unfold transpose. rewrite (shape2_ncols n m) by done. split.
  - by rewrite length_fmap, length_seq.
  - apply Forall_fmap, Forall_forall. intros j Hj%elem_of_seq. simpl.
    apply (length_column n m); [done|lia].
Qed.

Lemma transpose_entry n m a i j :
  shape2 n m a → i < n → j < m → entry2 (transpose a) j i = entry2 a i j.
Proof.
  intros Hs Hi Hj. apply entry2_cell. unfold transpose, cell2.
  rewrite (shape2_ncols n m) by (done || lia).
  rewrite list_lookup_fmap, lookup_seq_lt by done. simpl.
  rewrite (column_entries n m) by done.
  by rewrite list_lookup_fmap, lookup_seq_lt by done.
Qed.

(** Matrix product *)
Lemma matmul_Ok n k m a b :
  shape2 n k a → shape2 k m b →
  matmul a b
  = Ok ((λ r, (λ j, dot r (column j b)) <$> seq 0 (ncols b)) <$> a).
Proof.
  intros [Hn Ha] [Hk Hb]. unfold matmul.
  rewrite (proj2 (forallb_forall _ a)); [done|].
  intros r Hr%list_elem_of_In. rewrite Nat.eqb_eq, Hk.
  by apply (proj1 (Forall_forall _ a) Ha).
Qed.

Lemma matmul_spec n k m a b :
  shape2 n k a → shape2 k m b → 0 < k →
  ∃ c, matmul a b = Ok c ∧ shape2 n m c ∧
       ∀ i j, i < n → j < m →
         entry2 c i j = sigma k (λ l, entry2 a i l * entry2 b l j)%num.
Proof.
  intros Ha Hb Hk. eexists. split; [by eapply matmul_Ok|].
  rewrite (shape2_ncols k m b) by done.
  destruct Ha as [Hn Ha]. split; [split|].
  - by rewrite length_fmap.
  - apply Forall_fmap, Forall_forall. intros r _. simpl.
    by unfold shape1; rewrite length_fmap, length_seq.
  - intros i j Hi Hj. apply entry2_cell. unfold cell2.
    rewrite list_lookup_fmap.
    destruct (lookup_lt_is_Some_2 a i) as [r Hr]; [lia|]. rewrite Hr. simpl.
    rewrite list_lookup_fmap, lookup_seq_lt by done. simpl. f_equal.
    pose proof (Forall_lookup_1 _ _ _ _ Ha Hr) as Hlen. unfold shape1 in Hlen.
    rewrite (dot_sigma _ _ k) by (done || by eapply length_column).
    apply sigma_ext. intros l Hl. f_equal.
    + unfold entry1, entry2, cell2. by rewrite Hr.
    + rewrite (column_entries k m) by done.
      apply entry1_lookup. by rewrite list_lookup_fmap, lookup_seq_lt by done.
Qed.
End MatrixFacts.

(** ** Slices, diagonals and rows *)

Lemma slice_bound_nonneg (n : nat) (i : Z) :
  (0 ≤ i ≤ Z.of_nat n)%Z → slice_bound n i = Z.to_nat i.
Proof.
  intros Hi. unfold slice_bound.
  destruct (Z.ltb_spec i 0); [lia|]. f_equal. lia.
Qed.

Lemma np_slice_nonneg {A} (a : list A) (lo hi : Z) :
  (0 ≤ lo ≤ hi)%Z → (hi ≤ Z.of_nat (length a))%Z →
  np_slice a lo hi = take (Z.to_nat hi - Z.to_nat lo) (drop (Z.to_nat lo) a).
Proof.
  intros Hlo Hhi. unfold np_slice.
  by rewrite !slice_bound_nonneg by lia.
Qed.

Lemma np_slice_length {A} (a : list A) (lo hi : Z) :
  (0 ≤ lo ≤ hi)%Z → (hi ≤ Z.of_nat (length a))%Z →
  length (np_slice a lo hi) = Z.to_nat hi - Z.to_nat lo.
Proof.
  intros Hlo Hhi. rewrite np_slice_nonneg by done.
  rewrite length_take, length_drop. lia.
Qed.

Lemma np_slice_lookup {A} (a : list A) (lo hi : Z) (k : nat) :
  (0 ≤ lo ≤ hi)%Z → (hi ≤ Z.of_nat (length a))%Z →
  k < Z.to_nat hi - Z.to_nat lo →
  np_slice a lo hi !! k = a !! (Z.to_nat lo + k).
Proof.
  intros Hlo Hhi Hk. rewrite np_slice_nonneg by done.
  by rewrite lookup_take_lt, lookup_drop by done.
Qed.

Section SliceFacts.
Context {F : Type} `{Number F}.
Implicit Types (u v : list F) (a b : matrix F).

Lemma slice2_shape n m a (r0 r1 c0 c1 : Z) :
  shape2 n m a →
  (0 ≤ r0 ≤ r1)%Z → (r1 ≤ Z.of_nat n)%Z →
  (0 ≤ c0 ≤ c1)%Z → (c1 ≤ Z.of_nat m)%Z →
  shape2 (Z.to_nat r1 - Z.to_nat r0) (Z.to_nat c1 - Z.to_nat c0)
         (slice2 a r0 r1 c0 c1).
Proof.
  intros [Hn Ha] Hr0 Hr1 Hc0 Hc1. unfold slice2. split.
  - rewrite length_fmap. apply np_slice_length; lia.
  - apply Forall_fmap, Forall_forall. intros r Hr. simpl.
    apply list_elem_of_lookup in Hr as [k Hk].
    pose proof (lookup_lt_Some _ _ _ Hk) as Hlt.
    rewrite np_slice_length in Hlt by lia.
    rewrite np_slice_lookup in Hk by lia.
    pose proof (Forall_lookup_1 _ _ _ _ Ha Hk) as Hlen. unfold shape1 in *.
    apply np_slice_length; lia.
Qed.

Lemma slice2_entry n m a (r0 r1 c0 c1 : Z) (i j : nat) :
  shape2 n m a →
  (0 ≤ r0 ≤ r1)%Z → (r1 ≤ Z.of_nat n)%Z →
  (0 ≤ c0 ≤ c1)%Z → (c1 ≤ Z.of_nat m)%Z →
  i < Z.to_nat r1 - Z.to_nat r0 → j < Z.to_nat c1 - Z.to_nat c0 →
  entry2 (slice2 a r0 r1 c0 c1) i j = entry2 a (Z.to_nat r0 + i) (Z.to_nat c0 + j).
Proof.
  intros Hs Hr0 Hr1 Hc0 Hc1 Hi Hj. pose proof Hs as [Hn Ha].
  unfold entry2, cell2, slice2. rewrite list_lookup_fmap.
  rewrite np_slice_lookup by lia.
  destruct (lookup_lt_is_Some_2 a (Z.to_nat r0 + i)) as [r Hr]; [lia|].
  rewrite Hr. simpl.
  pose proof (shape2_row _ _ _ _ _ Hs Hr) as Hlen.
  by rewrite np_slice_lookup by lia.
Qed.

Lemma omap_length_le {A B} (f : A → option B) (l : list A) :
  length (omap f l) ≤ length l.
Proof.
  induction l as [|x l IH]; simpl; [done|].
  change (list_omap A B f l) with (omap f l).
  destruct (f x); simpl; lia.
Qed.

Lemma omap_diagonal n a (l : list nat) :
  shape2 n n a → (∀ x, x ∈ l → x < n) →
  omap (λ k, a !! k ≫= (.!! k)) l = (λ k, entry2 a k k) <$> l.
Proof.
  intros Hs. induction l as [|x l IH]; intros Hl; [done|]. simpl.
  pose proof (shape2_cell n n a x x Hs) as Hx. unfold cell2 in Hx.
  rewrite Hx by (apply Hl; left). simpl.
  change (list_omap nat F (λ k, a !! k ≫= (.!! k)) l)
    with (omap (λ k, a !! k ≫= (.!! k)) l).
  rewrite IH; [done|]. intros y Hy. apply Hl. by right.
Qed.

Lemma diagonal_entries n a :
  shape2 n n a → 0 < n → diagonal a = (λ k, entry2 a k k) <$> seq 0 n.
Proof.
  intros Hs Hn. unfold diagonal. rewrite (shape2_ncols n n) by done.
  pose proof Hs as [Hlen Ha]. rewrite Hlen, Nat.min_id.
  apply (omap_diagonal n); [done|]. intros x Hx%elem_of_seq. lia.
Qed.

(** [(B @ M[lo:hi, lo:hi] @ B.T).diagonal()] is the diagonal of
    [B · block · Bᵗ]. *)
Lemma project_block_spec (ly : layout) (B M : matrix F) (D Kt : nat) (i : Z) :
  let K := Z.to_nat (random_degree ly + 1) in
  shape2 D K B → shape2 Kt Kt M → 0 < D → 0 < K →
  (0 ≤ i)%Z → (Z.to_nat i + 1) * K ≤ Kt →
  project_block ly B M i
  = Ok ((λ d, block_projection B M K (Z.to_nat i) d d) <$> seq 0 D).
Proof.
  intros K HB HM HD HK Hi Hfit. unfold project_block.
  assert (0 ≤ random_degree ly)%Z as Hrd by lia.
  assert (Z.of_nat K = random_degree ly + 1)%Z as HKz by lia.
  set (lo := (i * (random_degree ly + 1))%Z).
  set (hi := ((i + 1) * (random_degree ly + 1))%Z).
  assert (Z.to_nat lo = Z.to_nat i * K) as Hlo by (unfold lo; nia).
  assert (Z.to_nat hi = (Z.to_nat i + 1) * K) as Hhi by (unfold hi; nia).
  assert (0 ≤ lo ≤ hi)%Z as Hlohi by (unfold lo, hi; nia).
  assert (hi ≤ Z.of_nat Kt)%Z as Hhik by nia.
  assert (Z.to_nat hi - Z.to_nat lo = K) as Hsz by nia.
  pose proof (slice2_shape Kt Kt M lo hi lo hi HM Hlohi Hhik Hlohi Hhik) as Hblk.
  rewrite Hsz in Hblk.
  destruct (matmul_spec D K K B _ HB Hblk HK) as (m1 & -> & Hm1 & Hm1e). simpl.
  pose proof (transpose_shape D K B HB HD) as HBt.
  destruct (matmul_spec D K D m1 _ Hm1 HBt HK) as (m2 & -> & Hm2 & Hm2e). simpl.
  rewrite (diagonal_entries D m2) by done. f_equal.
  apply list_eq. intros d. rewrite !list_lookup_fmap.
  destruct (decide (d < D)) as [Hd|Hd]; [|by rewrite lookup_seq_ge by lia].
  rewrite lookup_seq_lt by done. simpl. f_equal.
  rewrite Hm2e by done. unfold block_projection.
  apply sigma_ext. intros b Hb.
  rewrite (transpose_entry D K B) by done. f_equal.
  rewrite Hm1e by done. apply sigma_ext. intros a Ha. f_equal.
  rewrite (slice2_entry Kt Kt) by (done || lia).
  by rewrite Hlo.
Qed.
End SliceFacts.

(** ** Rows of three- and four-dimensional arrays *)

Section RowFacts.
Context {F : Type}.

Lemma shape3_rows n0 n1 n2 (a : tensor3 F) :
  shape3 n0 n1 n2 a → @shape2 (list F) n0 n1 a.
Proof.
  intros [Hlen Hall]. split; [done|].
  eapply Forall_impl; [exact Hall|]. by intros m [? _].
Qed.

Lemma shape3_row n0 n1 n2 (a : tensor3 F) (i j : nat) :
  shape3 n0 n1 n2 a → i < n0 → j < n1 →
  ∃ row, cell2 a i j = Some row ∧ length row = n2.
Proof.
  intros [Hlen Hall] Hi Hj.
  destruct (lookup_lt_is_Some_2 a i) as [m Hm]; [lia|].
  pose proof (Forall_lookup_1 _ _ _ _ Hall Hm) as [Hlm Hallm].
  destruct (lookup_lt_is_Some_2 m j) as [row Hrow]; [lia|].
  exists row. split.
  - unfold cell2. rewrite Hm. simpl. done.
  - by apply (Forall_lookup_1 _ _ _ _ Hallm Hrow).
Qed.

Lemma store2_length {A} (a : list (list A)) (i j : nat) (v : A) :
  length (store2 i j v a) = length a.
Proof. unfold store2. apply length_alter. Qed.

Lemma store2_shape2 {A} n0 n1 (a : list (list A)) (i j : nat) (v : A) :
  shape2 n0 n1 a → shape2 n0 n1 (store2 i j v a).
Proof.
  intros [Hlen Hall]. split; [by rewrite store2_length|].
  unfold store2. apply Forall_alter; [done|].
  intros r _ Hr. unfold shape1, store1 in *. by rewrite length_insert.
Qed.

Lemma store2_shape3 n0 n1 n2 (a : tensor3 F) (i j : nat) (row : list F) :
  shape3 n0 n1 n2 a → length row = n2 → shape3 n0 n1 n2 (store2 i j row a).
Proof.
  intros [Hlen Hall] Hrow. split; [by rewrite store2_length|].
  unfold store2. apply Forall_alter; [done|].
  intros m _ [Hlm Hallm]. unfold store1. split; [by rewrite length_insert|].
  by apply Forall_insert.
Qed.

Lemma setrow3_nonneg `{Number F} n0 n1 n2 (a : tensor3 F) (i j : Z) (row : list F) :
  shape3 n0 n1 n2 a →
  (0 ≤ i < Z.of_nat n0)%Z → (0 ≤ j < Z.of_nat n1)%Z → length row = n2 →
  setrow3 a i j row = Ok (store2 (Z.to_nat i) (Z.to_nat j) row a).
Proof.
  intros Hs Hi Hj Hrow. unfold setrow3, store2, store1.
  destruct (shape3_row n0 n1 n2 a (Z.to_nat i) (Z.to_nat j) Hs)
    as (old & Hold & Hlen); [lia|lia|].
  unfold cell2 in Hold.
  destruct (a !! Z.to_nat i) as [m|] eqn:Hm; [simpl in Hold|done].
  rewrite (np_at_nonneg a i _ m (<[Z.to_nat j := row]> m)); [|lia|done|].
  - by erewrite alter_insert.
  - apply (np_at_nonneg m j _ old row); [lia|done|].
    unfold assign. by rewrite Hlen, Hrow, Nat.eqb_refl.
Qed.

Lemma getrow3_nonneg `{Number F} (a : tensor3 F) (i j : Z) (row : list F) :
  (0 ≤ i)%Z → (0 ≤ j)%Z →
  cell2 a (Z.to_nat i) (Z.to_nat j) = Some row → getrow3 a i j = Ok row.
Proof.
  intros Hi Hj Hrow. unfold getrow3, cell2 in *.
  destruct (a !! Z.to_nat i) as [m|] eqn:Hm; [simpl in Hrow|done].
  rewrite (np_get_nonneg a i m) by done. simpl.
  by apply np_get_nonneg.
Qed.

Lemma getitem2_nonneg (a : matrix F) (i j : Z) (x : F) :
  (0 ≤ i)%Z → (0 ≤ j)%Z →
  cell2 a (Z.to_nat i) (Z.to_nat j) = Some x → getitem2 a i j = Ok x.
Proof.
  intros Hi Hj Hx. unfold getitem2, cell2 in *.
  destruct (a !! Z.to_nat i) as [m|] eqn:Hm; [simpl in Hx|done].
  rewrite (np_get_nonneg a i m) by done. simpl.
  by apply np_get_nonneg.
Qed.

Lemma cell2_store2_eq {A} n0 n1 (a : list (list A)) (i j : nat) (v : A) :
  shape2 n0 n1 a → i < n0 → j < n1 → cell2 (store2 i j v a) i j = Some v.
Proof.
  intros [Hlen Hall] Hi Hj. rewrite cell2_store2, decide_True by done.
  destruct (lookup_lt_is_Some_2 a i) as [r Hr]; [lia|].
  pose proof (Forall_lookup_1 _ _ _ _ Hall Hr) as Hlr. unfold shape1 in Hlr.
  destruct (lookup_lt_is_Some_2 r j) as [x Hx]; [lia|].
  unfold cell2. rewrite Hr. simpl. by rewrite Hx.
Qed.

Lemma cell2_store2_ne {A} (a : list (list A)) (i j i' j' : nat) (v : A) :
  (i', j') ≠ (i, j) → cell2 (store2 i j v a) i' j' = cell2 a i' j'.
Proof.
  intros Hne. rewrite cell2_store2, decide_False; [done|].
  intros [-> ->]. done.
Qed.
End RowFacts.

Lemma zip_with_fmap_seq {A B C} (op : A → B → C) (f : nat → A) (g : nat → B) (n : nat) :
  zip_with op (f <$> seq 0 n) (g <$> seq 0 n) = (λ d, op (f d) (g d)) <$> seq 0 n.
Proof.
  rewrite zip_with_fmap_l, zip_with_fmap_r, zip_with_diag.
  done.
Qed.

(** ** Variance and heritability engine *)

Section VarianceFacts.
Context {F : Type} `{Number F}.
Variable ly : layout.
Variables B G P R : matrix F.
Hypothesis Hin : variance_inputs ly B G P R.

Local Abbreviation L := (Z.to_nat (lactation_dim ly)).
Local Abbreviation T := (Z.to_nat (number_of_traits ly)).
Local Abbreviation D := (Z.to_nat (dim_max ly - dim_min ly + 1)).
Local Abbreviation K := (Z.to_nat (random_degree ly + 1)).

Lemma length_curve (f : nat → F) : length (curve ly f) = D.
Proof. unfold curve. by rewrite length_fmap, length_seq. Qed.

Lemma lookup_curve (f : nat → F) (d : nat) : d < D → curve ly f !! d = Some (f d).
Proof. intros Hd. unfold curve. by rewrite list_lookup_fmap, lookup_seq_lt. Qed.

Lemma elementwise_curve (op : F → F → F) (f g : nat → F) :
  elementwise op (curve ly f) (curve ly g) = Ok (curve ly (λ d, op (f d) (g d))).
Proof.
  unfold elementwise. rewrite !length_curve, Nat.eqb_refl.
  unfold curve. by rewrite zip_with_fmap_seq.
Qed.

Lemma broadcast_curve (h : F → F) (f : nat → F) :
  broadcast h (curve ly f) = curve ly (λ d, h (f d)).
Proof. unfold broadcast, curve. by rewrite <- list_fmap_compose. Qed.

Lemma mean_curve (f : nat → F) : mean (curve ly f) = mean_over D f.
Proof. unfold mean, mean_over, sigma. by rewrite length_curve. Qed.

Lemma flat_index_split (i : Z) :
  (0 ≤ i < number_of_traits ly * lactation_dim ly)%Z →
  (0 ≤ i / number_of_traits ly < lactation_dim ly)%Z ∧
  (0 ≤ i mod number_of_traits ly < number_of_traits ly)%Z.
Proof.
  destruct Hin as (HL & HT & _). intros Hi. split; [split|].
  - apply Z.div_pos; lia.
  - apply Z.div_lt_upper_bound; lia.
  - apply Z.mod_pos_bound; lia.
Qed.

Lemma variance_step_spec (i : Z) (st : variances F) :
  variances_allocated ly st →
  (0 ≤ i < number_of_traits ly * lactation_dim ly)%Z →
  let l := Z.to_nat (i / number_of_traits ly) in
  let t := Z.to_nat (i mod number_of_traits ly) in
  let n := Z.to_nat i in
  let vg := store2 l t (curve ly (genetic_variance ly B G n)) (var_G st) in
  let vp := store2 l t (curve ly (permanent_variance ly B P n)) (var_P st) in
  let h := store2 l t (curve ly (heritability ly B G P R n)) (heritabilities st) in
  let rp := store2 l t (curve ly (repeatability ly B G P R n)) (repeatabilities st) in
  variance_step ly B G P R i st
  = Ok {| var_G := vg;
          var_P := vp;
          var_R := store2 l t (residual_variance R n) (var_R st);
          heritabilities := h;
          repeatabilities := rp;
          avg_var_G := mean_axis2 vg;
          avg_var_P := mean_axis2 vp;
          avg_heritabilities := mean_axis2 h;
          avg_repeatabilities := mean_axis2 rp |}.
Proof.
  intros (HvG & HvP & HvR & Hh & Hrp) Hi. cbv zeta.
  destruct (flat_index_split i Hi) as [Hl Ht].
  destruct Hin as (HL & HT & Hrd & Hdim & HB & HG & HP & HR).
  unfold variance_step, py_floordiv, py_mod.
  assert ((number_of_traits ly =? 0)%Z = false) as -> by lia. simpl.
  assert ((Z.to_nat i + 1) * K ≤ K * T * L) as Hfit by nia.
  rewrite (project_block_spec ly B G D (K * T * L) i) by (done || lia). simpl.
  fold (curve ly (λ d, block_projection B G K (Z.to_nat i) d d)).
  fold (genetic_variance ly B G (Z.to_nat i)).
  rewrite (setrow3_nonneg L T D) by (done || lia || apply length_curve). simpl.
  rewrite (project_block_spec ly B P D (K * T * L) i) by (done || lia). simpl.
  fold (curve ly (λ d, block_projection B P K (Z.to_nat i) d d)).
  fold (permanent_variance ly B P (Z.to_nat i)).
  rewrite (setrow3_nonneg L T D) by (done || lia || apply length_curve). simpl.
  rewrite (getitem2_nonneg R i i (residual_variance R (Z.to_nat i)));
    [|lia|lia|apply (shape2_cell (T * L) (T * L)); (done || nia)]. simpl.
  rewrite (setitem2_nonneg L T) by (done || lia). simpl.
  rewrite (getrow3_nonneg (store2 _ _ _ (var_G st)) _ _
             (curve ly (genetic_variance ly B G (Z.to_nat i))));
    [|lia|lia|apply (cell2_store2_eq L T); [by eapply shape3_rows|lia|lia]]. simpl.
  rewrite (getrow3_nonneg (store2 _ _ _ (var_P st)) _ _
             (curve ly (permanent_variance ly B P (Z.to_nat i))));
    [|lia|lia|apply (cell2_store2_eq L T); [by eapply shape3_rows|lia|lia]]. simpl.
  rewrite elementwise_curve. simpl.
  rewrite (getitem2_nonneg _ _ _ (residual_variance R (Z.to_nat i)));
    [|lia|lia|by apply (cell2_store2_eq L T); [|lia|lia]]. simpl.
  rewrite broadcast_curve, !elementwise_curve. simpl.
  rewrite (setrow3_nonneg L T D) by (done || lia || apply length_curve). simpl.
  rewrite (setrow3_nonneg L T D) by (done || lia || apply length_curve). simpl.
  done.
Qed.

Lemma cell3_row (a : tensor3 F) (i j k : nat) :
  cell3 a i j k = cell2 a i j ≫= (.!! k).
Proof. unfold cell3, cell2. by destruct (a !! i). Qed.

Lemma cell2_mean_axis2 (a : tensor3 F) (i j : nat) :
  cell2 (mean_axis2 a) i j = mean <$> cell2 a i j.
Proof.
  unfold cell2, mean_axis2. rewrite list_lookup_fmap.
  destruct (a !! i) as [m|]; simpl; [|done]. by rewrite list_lookup_fmap.
Qed.

Lemma variance_step_invariant (i : Z) (st : variances F) :
  (0 ≤ i < number_of_traits ly * lactation_dim ly)%Z →
  variance_invariant ly B G P R i st →
  ∃ st', variance_step ly B G P R i st = Ok st'
         ∧ variance_invariant ly B G P R (i + 1) st'.
Proof.
  intros Hi (Hal & Hrows & _).
  pose proof (variance_step_spec i st Hal Hi) as Hstep. cbv zeta in Hstep.
  rewrite Hstep. eexists. split; [done|].
  destruct (flat_index_split i Hi) as [Hl Ht].
  pose proof Hal as (HvG & HvP & HvR & Hh & Hrp).
  destruct Hin as (HL & HT & _).
  split; [|split]; simpl.
  - split; [|split; [|split; [|split]]]; simpl;
      try (by apply store2_shape3; [|apply length_curve]);
      by apply store2_shape2.
  - intros i' Hi'. cbv zeta.
    assert (Z.of_nat (i' / T) = Z.of_nat i' / number_of_traits ly)%Z as Hdiv.
    { rewrite Nat2Z.inj_div. f_equal. lia. }
    assert (Z.of_nat (i' mod T) = Z.of_nat i' mod number_of_traits ly)%Z as Hmod.
    { rewrite Nat2Z.inj_mod. f_equal. lia. }
    destruct (decide (Z.of_nat i' = i)) as [<-|Hne].
    + rewrite Nat2Z.id, <- Hdiv, <- Hmod, !Nat2Z.id.
      rewrite <- Hdiv in Hl. rewrite <- Hmod in Ht.
      repeat split;
        (apply (cell2_store2_eq L T);
         [(by eapply shape3_rows) || done|lia|lia]).
    + assert ((i' / T, i' mod T)
              ≠ (Z.to_nat (i / number_of_traits ly),
                 Z.to_nat (i mod number_of_traits ly))) as Hcell.
      { intros [= Hq Hr]. apply Hne.
        rewrite (Z.div_mod (Z.of_nat i') (number_of_traits ly)) by lia.
        rewrite (Z.div_mod i (number_of_traits ly)) by lia.
        rewrite <- Hdiv, <- Hmod. lia. }
      rewrite !cell2_store2_ne by done. apply Hrows. lia.
  - done.
Qed.

(** The loop returns, and the invariant holds after its last iteration. *)
Lemma variance_engine_rows (st : variances F) :
  variances_allocated ly st →
  ∃ out,
    compute_variances_and_heritabilities ly B G P R st = Ok out ∧
    variance_invariant ly B G P R (number_of_traits ly * lactation_dim ly) out.
Proof.
  intros Hal. pose proof Hin as (HL & HT & _).
  apply (for_each_range (variance_invariant ly B G P R)).
  - lia.
  - split; [done|]. split; [intros i Hi; lia|lia].
  - intros i s Hi Hs. by apply variance_step_invariant.
Qed.

(** The rows of the pair (lactation, trait) once the loop is over. *)
Lemma variance_invariant_row (out : variances F) (lactation trait : nat) :
  variance_invariant ly B G P R (number_of_traits ly * lactation_dim ly) out →
  lactation < L → trait < T →
  let i := lactation * T + trait in
  cell2 (var_G out) lactation trait = Some (curve ly (genetic_variance ly B G i)) ∧
  cell2 (var_P out) lactation trait = Some (curve ly (permanent_variance ly B P i)) ∧
  cell2 (var_R out) lactation trait = Some (residual_variance R i) ∧
  cell2 (heritabilities out) lactation trait
    = Some (curve ly (heritability ly B G P R i)) ∧
  cell2 (repeatabilities out) lactation trait
    = Some (curve ly (repeatability ly B G P R i)).
Proof.
  intros (_ & Hrows & _) Hl Ht. cbv zeta.
  pose proof (Hrows (lactation * T + trait) ltac:(nia)) as Hrow. cbv zeta in Hrow.
  rewrite Nat.div_add_l, Nat.div_small, Nat.add_0_r in Hrow by lia.
  rewrite (Nat.add_comm _ trait), Nat.Div0.mod_add, Nat.mod_small in Hrow by lia.
  by rewrite (Nat.add_comm trait) in Hrow.
Qed.

(** C2.  For every pair (lactation, trait), with flat index
    [i = lactation·T + trait] and [K = random_degree + 1], the engine stores at
    every DIM offset [d]: [var_G = diag(B · G_block · Bᵗ)[d]] for the [K]×[K]
    diagonal block of [G] at offset [i·K], [var_P] likewise from [P],
    [var_R = R[i,i]], heritability [var_G / (var_G + var_P + var_R)] and
    repeatability [(var_G + var_P) / (var_G + var_P + var_R)]; the four
    averages are the arithmetic means over the DIM axis. *)
Theorem compute_variances_and_heritabilities_spec (st : variances F) :
  variances_allocated ly st →
  ∃ out,
    compute_variances_and_heritabilities ly B G P R st = Ok out ∧
    ∀ lactation trait d : nat,
      lactation < L → trait < T → d < D →
      let i := lactation * T + trait in
      cell3 (var_G out) lactation trait d = Some (genetic_variance ly B G i d) ∧
      cell3 (var_P out) lactation trait d = Some (permanent_variance ly B P i d) ∧
      cell2 (var_R out) lactation trait = Some (residual_variance R i) ∧
      cell3 (heritabilities out) lactation trait d
        = Some (heritability ly B G P R i d) ∧
      cell3 (repeatabilities out) lactation trait d
        = Some (repeatability ly B G P R i d) ∧
      cell2 (avg_var_G out) lactation trait
        = Some (mean_over D (genetic_variance ly B G i)) ∧
      cell2 (avg_var_P out) lactation trait
        = Some (mean_over D (permanent_variance ly B P i)) ∧
      cell2 (avg_heritabilities out) lactation trait
        = Some (mean_over D (heritability ly B G P R i)) ∧
      cell2 (avg_repeatabilities out) lactation trait
        = Some (mean_over D (repeatability ly B G P R i)).
Proof.
  intros Hal. pose proof Hin as (HL & HT & _).
  destruct (variance_engine_rows st Hal) as (out & Hout & Hinv).
  exists out. split; [done|]. intros l t d Hl Ht Hd. cbv zeta.
  destruct (variance_invariant_row out l t Hinv Hl Ht) as (HG & HP & HR & Hh & Hr).
  destruct Hinv as (_ & _ & Havg).
  destruct Havg as (HaG & HaP & Hah & Har); [nia|].
  rewrite !cell3_row, HaG, HaP, Hah, Har, !cell2_mean_axis2.
  rewrite HG, HP, HR, Hh, Hr. simpl.
  rewrite !lookup_curve, !mean_curve by done. done.
Qed.

(** C7, as the code has it.  The engine has no guard on the phenotypic
    variance: on inputs of the prescribed shapes it never raises, whatever the
    sign of [var_G + var_P + var_R], and stores the numpy quotients
    [var_G / phenotypic_variance] and
    [(var_G + var_P) / phenotypic_variance]. *)
Theorem degenerate_variance_not_fatal (st : variances F) :
  variances_allocated ly st →
  ∃ out,
    compute_variances_and_heritabilities ly B G P R st = Ok out ∧
    ∀ lactation trait d : nat,
      lactation < L → trait < T → d < D →
      let i := lactation * T + trait in
      cell3 (heritabilities out) lactation trait d
        = Some (fdiv (genetic_variance ly B G i d)
                     (phenotypic_variance ly B G P R i d)) ∧
      cell3 (repeatabilities out) lactation trait d
        = Some (fdiv (repeatable_variance ly B G P i d)
                     (phenotypic_variance ly B G P R i d)).
Proof.
  intros Hal. destruct (variance_engine_rows st Hal) as (out & Hout & Hinv).
  exists out. split; [done|]. intros l t d Hl Ht Hd. cbv zeta.
  destruct (variance_invariant_row out l t Hinv Hl Ht) as (_ & _ & _ & Hh & Hr).
  rewrite !cell3_row, Hh, Hr. simpl. by rewrite !lookup_curve by done.
Qed.

End VarianceFacts.

Lemma sample_variance_inputs :
  variance_inputs sample_layout sample_basis sample_G sample_G sample_R.
Proof.
  unfold variance_inputs. simpl.
  repeat split; try lia; repeat constructor.
Defined.

Lemma sample_variances_allocated :
  variances_allocated sample_layout sample_variances.
Proof. repeat split; repeat constructor. Defined.

Lemma compute_variances_and_heritabilities_spec_witness :
  ∃ out,
    compute_variances_and_heritabilities sample_layout sample_basis
      sample_G sample_G sample_R sample_variances = Ok out ∧
    cell3 (heritabilities out) 0 1 1
    = Some (heritability sample_layout sample_basis sample_G sample_G sample_R 1 1).
Proof.
  destruct (compute_variances_and_heritabilities_spec sample_layout sample_basis
              sample_G sample_G sample_R sample_variance_inputs
              sample_variances sample_variances_allocated)
    as (out & Hout & Hcells).
  exists out. split; [exact Hout|].
  destruct (Hcells 0 1 1) as (_ & _ & _ & Hh & _); [simpl; lia..|].
  exact Hh.
Defined.

(** C7, as stated, fails: with a zero phenotypic variance the engine returns
    (heritability and repeatability are NaN), and with a negative one it
    returns negative ratios; nothing is raised. *)
Lemma zero_phenotypic_variance_returns :
  phenotypic_variance minimal_layout ones_basis
    degenerate_zero degenerate_zero degenerate_zero 0 0 = float_of_int 0 ∧
  compute_variances_and_heritabilities minimal_layout ones_basis
    degenerate_zero degenerate_zero degenerate_zero minimal_variances
  = Ok {| var_G := [[[float_of_int 0; float_of_int 0]]];
          var_P := [[[float_of_int 0; float_of_int 0]]];
          var_R := [[float_of_int 0]];
          heritabilities := [[[PrimFloat.nan; PrimFloat.nan]]];
          repeatabilities := [[[PrimFloat.nan; PrimFloat.nan]]];
          avg_var_G := [[float_of_int 0]];
          avg_var_P := [[float_of_int 0]];
          avg_heritabilities := [[PrimFloat.nan]];
          avg_repeatabilities := [[PrimFloat.nan]] |} ∧
  phenotypic_variance minimal_layout ones_basis
    degenerate_one degenerate_zero degenerate_negative_R 0 0 = float_of_int (-2) ∧
  heritabilities <$>
    compute_variances_and_heritabilities minimal_layout ones_basis
      degenerate_one degenerate_zero degenerate_negative_R minimal_variances
  = Ok [[[PrimFloat.div (float_of_int (-1)) (float_of_int 2);
          PrimFloat.div (float_of_int (-1)) (float_of_int 2)]]].
Proof. repeat split; vm_compute; reflexivity. Qed.

Lemma degenerate_variance_inputs :
  variance_inputs minimal_layout ones_basis
    degenerate_zero degenerate_zero degenerate_zero.
Proof.
  unfold variance_inputs. simpl.
  repeat split; try lia; repeat constructor.
Defined.

Lemma minimal_variances_allocated :
  variances_allocated minimal_layout minimal_variances.
Proof. repeat split; repeat constructor. Defined.

Lemma degenerate_variance_not_fatal_witness :
  ∃ out,
    compute_variances_and_heritabilities minimal_layout ones_basis
      degenerate_zero degenerate_zero degenerate_zero minimal_variances = Ok out ∧
    cell3 (heritabilities out) 0 0 0
    = Some (PrimFloat.div
              (genetic_variance minimal_layout ones_basis degenerate_zero 0 0)
              (phenotypic_variance minimal_layout ones_basis
                 degenerate_zero degenerate_zero degenerate_zero 0 0)).
Proof.
  destruct (degenerate_variance_not_fatal minimal_layout ones_basis
              degenerate_zero degenerate_zero degenerate_zero
              degenerate_variance_inputs
              minimal_variances minimal_variances_allocated)
    as (out & Hout & Hcells).
  exists out. split; [exact Hout|].
  destruct (Hcells 0 0 0) as [Hh _]; [simpl; lia..|].
  exact Hh.
Defined.

(** ** Heritability and repeatability over exact arithmetic *)







(** ** Basis builder *)

Section ColumnFacts.
Context {F : Type} `{Number F}.
Implicit Types (a : matrix F) (col : list F).

Lemma set_column_spec n m a (i : Z) col :
  shape2 n m a → length col = n → (0 ≤ i < Z.of_nat m)%Z →
  ∃ a', set_column a i col = Ok a' ∧ shape2 n m a' ∧
        ∀ r k, r < n → k < m →
          cell2 a' r k = if decide (k = Z.to_nat i) then col !! r else cell2 a r k.
Proof.
  intros [Hn Ha] Hcol Hi. revert n col Hn Hcol.
  induction a as [|row a IH]; intros n col Hn Hcol.
  - destruct col; [|simpl in *; lia]. exists []. simpl.
    split; [done|]. split; [by split|]. intros r k Hr. simpl in Hn. lia.
  - destruct col as [|c col]; [simpl in *; lia|].
    inversion Ha as [|? ? Hrow Ha']; subst. unfold shape1 in Hrow.
    destruct (IH Ha' (length a) col eq_refl) as (a' & Ha'eq & [Hlen' Hall'] & Hcells).
    { simpl in Hcol. lia. }
    simpl. rewrite setitem1_nonneg by lia. simpl. rewrite Ha'eq. simpl.
    eexists. split; [done|]. split; [split|].
    + simpl. by rewrite Hlen'.
    + constructor; [|done]. unfold shape1, store1. by rewrite length_insert.
    + intros r k Hr Hk. destruct r as [|r]; simpl.
      * unfold cell2, store1. simpl. case_decide as Hki.
        -- subst k. by rewrite list_lookup_insert_eq by lia.
        -- by rewrite list_lookup_insert_ne.
      * apply (Hcells r k); [simpl in Hr; lia|done].
Qed.

Lemma map_result_np_get_range (row : list F) (k : Z) :
  (k ≤ Z.of_nat (length row))%Z →
  map_result (np_get row) (range k) = Ok (take (Z.to_nat k) row).
Proof.
  intros Hk. unfold range.
  destruct (Z.le_gt_cases 0 k) as [Hk0|Hk0].
  2: { replace (Z.to_nat k) with 0 by lia.
       by replace (seqZ 0 k) with (@nil Z)
         by (symmetry; apply length_zero_iff_nil; rewrite length_seqZ; lia). }
  assert (Z.to_nat k ≤ length row) as Hle by lia.
  replace k with (Z.of_nat (Z.to_nat k)) at 1 by lia.
  generalize (Z.to_nat k) Hle. clear k Hk Hk0 Hle. intros k Hk.
  assert (∀ (start : nat) (len : nat), start + len ≤ length row →
    map_result (np_get row) (seqZ (Z.of_nat start) (Z.of_nat len))
    = Ok (take len (drop start row))) as Hgen.
  { intros start len. revert start. induction len as [|len IH]; intros start Hle.
    - done.
    - rewrite seqZ_cons by lia. simpl.
      destruct (lookup_lt_is_Some_2 row start) as [x Hx]; [lia|].
      rewrite (np_get_nonneg row _ x) by (lia || by rewrite Nat2Z.id). simpl.
      replace (Z.succ (Z.of_nat start)) with (Z.of_nat (S start)) by lia.
      replace (Z.pred (Z.of_nat (S len))) with (Z.of_nat len) by lia.
      rewrite IH by lia. simpl.
      by rewrite (drop_S _ _ _ Hx). }
  apply (Hgen 0 k). lia.
Qed.

Lemma take_columns_range n m a (k : Z) :
  shape2 n m a → (k ≤ Z.of_nat m)%Z →
  take_columns a (range k) = Ok (take (Z.to_nat k) <$> a).
Proof.
  intros [Hn Ha] Hk. unfold take_columns. clear Hn.
  induction a as [|row a IH]; [done|]. inversion Ha as [|? ? Hrow Ha']; subst.
  unfold shape1 in Hrow. simpl.
  rewrite map_result_np_get_range by lia. simpl. by rewrite IH.
Qed.

Lemma cumsum_from_lookup m (acc : list F) (rows : matrix F) (j k : nat) :
  length acc = m → Forall (shape1 m) rows → j < length rows → k < m →
  cell2 (cumsum_from acc rows) j k
  = Some (foldl fadd (entry1 acc k) ((λ r, entry2 rows r k) <$> seq 0 (S j))).
Proof.
  intros Hacc Hrows. revert acc Hacc j.
  induction rows as [|row rows IH]; intros acc Hacc j Hj Hk; [simpl in Hj; lia|].
  inversion Hrows as [|? ? Hrow Hrows']; subst. unfold shape1 in Hrow.
  assert (entry1 (zip_with fadd acc row) k = fadd (entry1 acc k) (entry1 row k)) as Hz.
  { apply entry1_lookup. rewrite lookup_zip_with.
    rewrite (lookup_entry1 acc k), (lookup_entry1 row k) by lia. done. }
  destruct j as [|j]; simpl.
  - unfold cell2. simpl. rewrite lookup_entry1.
    + by rewrite Hz.
    + rewrite length_zip_with. lia.
  - change (cell2 (cumsum_from (zip_with fadd acc row) rows) j k = Some
      (foldl fadd (fadd (entry1 acc k) (entry2 (row :: rows) 0 k))
         ((λ r, entry2 (row :: rows) r k) <$> seq 1 (S j)))).
    rewrite IH; [|done|rewrite length_zip_with; lia|simpl in Hj; lia|done].
    rewrite Hz. f_equal. f_equal.
    rewrite <- fmap_S_seq, <- list_fmap_compose. done.
Qed.

Lemma cumsum0_lookup n m a (r k : nat) :
  shape2 n m a → r < n → k < m →
  cell2 (cumsum0 a) r k
  = Some (foldl fadd (entry2 a 0 k) ((λ r', entry2 a r' k) <$> seq 1 r)).
Proof.
  intros [Hn Ha] Hr Hk. destruct a as [|row rows]; [simpl in Hn; lia|].
  inversion Ha as [|? ? Hrow Hrows]; subst. unfold shape1 in Hrow.
  destruct r as [|r]; simpl.
  - unfold cell2, entry2, cell2. simpl. by rewrite lookup_entry1 by lia.
  - change (cell2 (cumsum_from row rows) r k = Some
      (foldl fadd (entry2 (row :: rows) 0 k)
         ((λ r', entry2 (row :: rows) r' k) <$> seq 1 (S r)))).
    rewrite (cumsum_from_lookup m); [|done|done|simpl in Hr; lia|done].
    f_equal. f_equal.
    rewrite <- fmap_S_seq, <- list_fmap_compose. done.
Qed.
End ColumnFacts.

Section BasisFacts.
Context {F : Type} `{Number F}.
Variable ly : layout.

Local Abbreviation D := (Z.to_nat (dim_max ly - dim_min ly + 1)).
Local Abbreviation C := (Z.to_nat (degree ly + 1)).

Lemma zeros2_shape (n0 n1 : Z) :
  shape2 (Z.to_nat n0) (Z.to_nat n1) (zeros2 (F:=F) n0 n1).
Proof.
  unfold zeros2, zeros1. split; [by rewrite length_replicate|].
  apply Forall_replicate. unfold shape1. by rewrite length_replicate.
Qed.

Lemma cumsum_from_shape m (acc : list F) (rows : matrix F) :
  length acc = m → Forall (shape1 m) rows →
  length (cumsum_from acc rows) = length rows ∧
  Forall (shape1 m) (cumsum_from acc rows).
Proof.
  intros Hacc Hrows. revert acc Hacc.
  induction Hrows as [|row rows Hrow Hrows IH]; intros acc Hacc; simpl; [done|].
  unfold shape1 in Hrow.
  destruct (IH (zip_with fadd acc row)) as [Hlen Hall].
  { rewrite length_zip_with. lia. }
  split; [by rewrite Hlen|]. constructor; [|done].
  unfold shape1. rewrite length_zip_with. lia.
Qed.

Lemma cumsum0_shape n m (a : matrix F) : shape2 n m a → shape2 n m (cumsum0 a).
Proof.
  intros [Hn Ha]. destruct a as [|row rows]; [done|].
  inversion Ha as [|? ? Hrow Hrows]; subst.
  destruct (cumsum_from_shape m row rows Hrow Hrows) as [Hlen Hall].
  split; simpl; [by rewrite Hlen|]. by constructor.
Qed.

Lemma length_scale_dim_range : length (scale_dim_range (F:=F) ly) = D.
Proof.
  unfold scale_dim_range, arange. rewrite length_fmap, length_seqZ. lia.
Qed.

Lemma lookup_scale_dim_range (r : nat) :
  r < D →
  scale_dim_range (F:=F) ly !! r
  = Some (fadd (of_int (-1))
               (fdiv (of_int (2 * Z.of_nat r)) (of_int (dim_max ly - dim_min ly)))).
Proof.
  intros Hr. unfold scale_dim_range, arange.
  rewrite list_lookup_fmap, lookup_seqZ_lt by lia. simpl.
  do 4 f_equal. lia.
Qed.

(** The normalised Legendre value stored in column [k] for the grid point [x]. *)
Lemma add_legendre_coefficients_spec (grid : list F) (table : matrix F) :
  (0 ≤ degree ly)%Z → length grid = D → shape2 D C table →
  ∃ table',
    add_legendre_coefficients ly grid table = Ok table' ∧
    shape2 D C table' ∧
    ∀ r k, r < D → k < C →
      cell2 table' r k
      = (λ x, fmul (legendre k x) (fsqrt (fadd (of_int (Z.of_nat k)) half)))
        <$> grid !! r.
Proof.
  intros Hdeg Hgrid Htable. unfold add_legendre_coefficients.
  destruct (for_each_range
    (λ (i : Z) (tbl : matrix F),
       shape2 D C tbl ∧
       ∀ r k, r < D → k < C → (Z.of_nat k < i)%Z →
         cell2 tbl r k
         = (λ x, fmul (legendre k x) (fsqrt (fadd (of_int (Z.of_nat k)) half)))
           <$> grid !! r)
    (degree ly + 1)
    (λ i table,
       set_column table i
         ((λ x, fmul (legendre (Z.to_nat i) x) (fsqrt (fadd (of_int i) half)))
          <$> grid))
    table) as (table' & Hrun & Hshape & Hcells).
  - lia.
  - split; [done|]. intros; lia.
  - intros i tbl Hi [Hs Hc].
    destruct (set_column_spec D C tbl i
      ((λ x, fmul (legendre (Z.to_nat i) x) (fsqrt (fadd (of_int i) half))) <$> grid))
      as (tbl' & Heq & Hs' & Hc'); [done|by rewrite length_fmap|lia|].
    exists tbl'. split; [done|]. split; [done|].
    intros r k Hr Hk Hki. rewrite Hc' by done. case_decide as Hcol.
    + subst k. rewrite list_lookup_fmap. by rewrite Z2Nat.id by lia.
    + apply Hc; [done|done|lia].
  - exists table'. split; [done|]. split; [done|].
    intros r k Hr Hk. apply Hcells; [done|done|lia].
Qed.

Lemma build_basis_spec :
  (dim_min ly ≤ dim_max ly)%Z → (0 ≤ degree ly)%Z →
  ∃ b,
    build_basis (F:=F) ly = Ok b ∧
    scaled_dim_range b = scale_dim_range ly ∧
    shape2 D C (legendre_coefficients b) ∧
    (∀ r k, r < D → k < C →
       cell2 (legendre_coefficients b) r k
       = (λ x, fmul (legendre k x) (fsqrt (fadd (of_int (Z.of_nat k)) half)))
         <$> scale_dim_range ly !! r) ∧
    legendre_random_coefficients b
      = take (Z.to_nat (random_degree ly + 1)) <$> legendre_coefficients b ∧
    legendre_partial_sums b = cumsum0 (legendre_coefficients b) ∧
    legendre_random_sums b
      = take (Z.to_nat (random_degree ly + 1)) <$> cumsum0 (legendre_coefficients b) ∧
    add_legendre_coefficients ly (scale_dim_range ly)
      (zeros2 (dim_max ly - dim_min ly + 1) (degree ly + 1))
    = Ok (legendre_coefficients b).
Proof.
  intros Hdim Hdeg. unfold build_basis, np_zeros2.
  assert (random_degree ly + 1 ≤ degree ly + 1)%Z as Hle by (unfold degree; lia).
  assert (((dim_max ly - dim_min ly + 1 <? 0) || (degree ly + 1 <? 0))%Z = false)
    as -> by lia.
  destruct (add_legendre_coefficients_spec (scale_dim_range ly)
              (zeros2 (dim_max ly - dim_min ly + 1) (degree ly + 1)))
    as (table & Htable & Hshape & Hcells);
    [done|apply length_scale_dim_range|apply zeros2_shape|].
  simpl. rewrite Htable.
  simpl. rewrite (take_columns_range D C table) by (done || lia). simpl.
  rewrite (take_columns_range D C (cumsum0 table))
    by (by apply cumsum0_shape || lia). simpl.
  eexists. split; [done|]. simpl.
  split; [done|]. split; [done|]. split; [done|]. by repeat split.
Qed.
End BasisFacts.

(** *** Over exact arithmetic *)

Lemma legendre_pair_at_one (n : nat) : legendre_pair (F:=R) n 1%R = (1%R, 1%R).
Proof.
  induction n as [|n IH]; [done|]. simpl. rewrite IH. simpl. f_equal.
  rewrite !plus_IZR, mult_IZR, <- !INR_IZR_INZ.
  pose proof (pos_INR n). field. lra.
Qed.

(** The polynomials of the recurrence are normalised like Legendre's:
    [P_n(1) = 1]; and the first three are [1], [x] and [(3x² - 1)/2]. *)
Lemma legendre_at_one (n : nat) : legendre (F:=R) n 1%R = 1%R.
Proof. unfold legendre. by rewrite legendre_pair_at_one. Qed.

Lemma legendre_low_degrees (x : R) :
  legendre 0 x = 1%R ∧ legendre 1 x = x ∧ legendre 2 x = ((3 * x * x - 1) / 2)%R.
Proof.
  unfold legendre. simpl. split; [done|]. split; [done|].
  change (IZR (2 * Z.of_nat 0 + 3)) with 3%R.
  change (IZR (Z.of_nat 0 + 1)) with 1%R.
  change (IZR (Z.of_nat 0 + 2)) with 2%R. field.
Qed.

Lemma grid_point_exact (ly : layout) (r : nat) :
  (dim_min ly < dim_max ly)%Z →
  (fadd (of_int (-1))
        (fdiv (of_int (2 * Z.of_nat r)) (of_int (dim_max ly - dim_min ly))) : R)
  = (-1 + 2 * (IZR (dim_min ly + Z.of_nat r) - IZR (dim_min ly))
          / (IZR (dim_max ly) - IZR (dim_min ly)))%R.
Proof.
  intros Hdim. simpl. rewrite mult_IZR, minus_IZR, plus_IZR.
  f_equal. f_equal. lra.
Qed.

(** C4.  For a DIM range with [dim_min < dim_max] and non-negative degrees,
    the builder returns a grid of [dim_max - dim_min + 1] points, the image of
    [dim_min .. dim_max] under the increasing linear map onto [-1, 1]; column
    [k] of the Legendre table holds [P_k] at the grid points multiplied by
    [sqrt (k + 0.5)]; the cumulative table holds the running sums of the
    columns; the tables depend on the layout only through the range and the
    degree.  For the range (5, 6) and degree 0 the grid is [-1, 1] and column
    0 is [sqrt 0.5, sqrt 0.5]. *)
Theorem basis_builder_spec :
  (∀ ly : layout,
     (dim_min ly < dim_max ly)%Z → (0 ≤ degree ly)%Z →
     ∃ b : basis R,
       build_basis ly = Ok b ∧
       let grid := scaled_dim_range b in
       let n := Z.to_nat (dim_max ly - dim_min ly + 1) in
       length grid = n ∧
       (∀ r, r < n →
          grid !! r
          = Some (-1 + 2 * (IZR (dim_min ly + Z.of_nat r) - IZR (dim_min ly))
                       / (IZR (dim_max ly) - IZR (dim_min ly)))%R) ∧
       grid !! 0 = Some (-1)%R ∧
       grid !! (n - 1) = Some 1%R ∧
       (∀ r r' x x',
          r < r' → grid !! r = Some x → grid !! r' = Some x' → (x < x')%R) ∧
       (∀ r k x,
          grid !! r = Some x → k ≤ Z.to_nat (degree ly) →
          cell2 (legendre_coefficients b) r k
          = Some (legendre k x * sqrt (INR k + 1 / 2))%R) ∧
       (∀ r k,
          r < n → k ≤ Z.to_nat (degree ly) →
          cell2 (legendre_partial_sums b) r k
          = Some (sigma (S r) (λ r', entry2 (legendre_coefficients b) r' k)))) ∧
  (∀ ly1 ly2 : layout,
     (dim_min ly1 < dim_max ly1)%Z → (0 ≤ degree ly1)%Z →
     dim_min ly1 = dim_min ly2 → dim_max ly1 = dim_max ly2 →
     degree ly1 = degree ly2 →
     scaled_dim_range <$> build_basis (F:=R) ly1
       = scaled_dim_range <$> build_basis ly2 ∧
     legendre_coefficients <$> build_basis (F:=R) ly1
       = legendre_coefficients <$> build_basis ly2 ∧
     legendre_partial_sums <$> build_basis (F:=R) ly1
       = legendre_partial_sums <$> build_basis ly2) ∧
  (∃ b : basis R,
     build_basis minimal_layout = Ok b ∧
     scaled_dim_range b = [(-1)%R; 1%R] ∧
     column 0 (legendre_coefficients b) = [sqrt (1 / 2); sqrt (1 / 2)]).
Proof.
  assert (∀ ly : layout,
     (dim_min ly < dim_max ly)%Z → (0 ≤ degree ly)%Z →
     ∃ b : basis R,
       build_basis ly = Ok b ∧
       let grid := scaled_dim_range b in
       let n := Z.to_nat (dim_max ly - dim_min ly + 1) in
       length grid = n ∧
       (∀ r, r < n →
          grid !! r
          = Some (-1 + 2 * (IZR (dim_min ly + Z.of_nat r) - IZR (dim_min ly))
                       / (IZR (dim_max ly) - IZR (dim_min ly)))%R) ∧
       grid !! 0 = Some (-1)%R ∧
       grid !! (n - 1) = Some 1%R ∧
       (∀ r r' x x',
          r < r' → grid !! r = Some x → grid !! r' = Some x' → (x < x')%R) ∧
       (∀ r k x,
          grid !! r = Some x → k ≤ Z.to_nat (degree ly) →
          cell2 (legendre_coefficients b) r k
          = Some (legendre k x * sqrt (INR k + 1 / 2))%R) ∧
       (∀ r k,
          r < n → k ≤ Z.to_nat (degree ly) →
          cell2 (legendre_partial_sums b) r k
          = Some (sigma (S r) (λ r', entry2 (legendre_coefficients b) r' k))))
    as Hgeneral.
  { intros ly Hdim Hdeg.
    destruct (build_basis_spec (F:=R) ly) as
      (b & Hb & Hgrid & Hshape & Hcells & _ & Hsums & _); [lia|done|].
    exists b. split; [done|]. cbv zeta. rewrite Hgrid.
    assert (∀ r, r < Z.to_nat (dim_max ly - dim_min ly + 1) →
      scale_dim_range ly !! r
      = Some (-1 + 2 * (IZR (dim_min ly + Z.of_nat r) - IZR (dim_min ly))
                   / (IZR (dim_max ly) - IZR (dim_min ly)))%R) as Hpoint.
    { intros r Hr. rewrite lookup_scale_dim_range by done.
      by rewrite grid_point_exact. }
    assert (0 < IZR (dim_max ly) - IZR (dim_min ly))%R as Hpos.
    { rewrite <- minus_IZR. apply IZR_lt. lia. }
    split; [apply length_scale_dim_range|]. split; [done|].
    split; [|split; [|split; [|split]]].
    - rewrite Hpoint by lia. f_equal. rewrite Z.add_0_r. field. lra.
    - rewrite Hpoint by lia. f_equal.
      replace (dim_min ly + Z.of_nat (Z.to_nat (dim_max ly - dim_min ly + 1) - 1))%Z
        with (dim_max ly) by lia.
      field. lra.
    - intros r r' x x' Hlt Hx Hx'.
      pose proof (lookup_lt_Some _ _ _ Hx') as Hr'.
      rewrite length_scale_dim_range in Hr'.
      rewrite Hpoint in Hx, Hx' by lia.
      injection Hx as <-. injection Hx' as <-.
      rewrite !plus_IZR, <- !INR_IZR_INZ.
      apply lt_INR in Hlt.
      pose proof (Rinv_0_lt_compat _ Hpos) as Hinv.
      unfold Rdiv. nra.
    - intros r k x Hx Hk.
      pose proof (lookup_lt_Some _ _ _ Hx) as Hr.
      rewrite length_scale_dim_range in Hr.
      rewrite Hcells by lia. rewrite Hx. simpl.
      by rewrite <- INR_IZR_INZ.
    - intros r k Hr Hk. rewrite Hsums.
      rewrite (cumsum0_lookup (Z.to_nat (dim_max ly - dim_min ly + 1))
                 (Z.to_nat (degree ly + 1))) by (done || lia).
      f_equal. unfold sigma, sum_list. simpl. by rewrite Rplus_0_l. }
  split; [exact Hgeneral|]. split.
  - intros ly1 ly2 Hdim1 Hdeg1 Hmin Hmax Hdeg.
    destruct (build_basis_spec (F:=R) ly1) as
      (b1 & -> & Hgrid1 & _ & _ & _ & Hsums1 & _ & Htable1); [lia|done|].
    destruct (build_basis_spec (F:=R) ly2) as
      (b2 & -> & Hgrid2 & _ & _ & _ & Hsums2 & _ & Htable2); [lia|lia|].
    simpl. unfold add_legendre_coefficients, scale_dim_range in *.
    rewrite Hmin, Hmax, Hdeg in Htable1. rewrite Htable1 in Htable2.
    injection Htable2 as Htable.
    rewrite Hgrid1, Hgrid2, Hsums1, Hsums2, Hmin, Hmax, Htable. done.
  - destruct (Hgeneral minimal_layout) as
      (b & Hb & Hlen & _ & Hfirst & Hlast & _ & Hcol & _); [done|done|].
    exists b. split; [done|]. cbv zeta in *. simpl in Hlen, Hlast.
    destruct (scaled_dim_range b) as [|x0 [|x1 [|]]] eqn:Hgrid; try done.
    injection Hfirst as ->. injection Hlast as ->. split; [done|].
    pose proof (Hcol 0 0 _ eq_refl) as Hc0. pose proof (Hcol 1 0 _ eq_refl) as Hc1.
    simpl in Hc0, Hc1. specialize (Hc0 ltac:(lia)). specialize (Hc1 ltac:(lia)).
    destruct (build_basis_spec (F:=R) minimal_layout) as
      (b' & Hb' & _ & Hshape & _); [done|done|].
    rewrite Hb in Hb'. injection Hb' as <-.
    rewrite (column_entries 2 1) by (done || lia). simpl.
    rewrite (entry2_cell _ _ _ _ Hc0), (entry2_cell _ _ _ _ Hc1).
    unfold legendre. simpl. by rewrite !Rmult_1_l, Rplus_0_l.
Qed.

Lemma basis_builder_spec_witness :
  ∃ b : basis R,
    build_basis sample_layout = Ok b ∧ length (scaled_dim_range b) = 2.
Proof.
  destruct (proj1 basis_builder_spec sample_layout) as (b & Hb & Hlen & _).
  - reflexivity.
  - discriminate.
  - exists b. split; [exact Hb|exact Hlen].
Defined.

(** ** PEV-PEC reader *)

Lemma triangular_S (r : nat) : triangular (S r) = triangular r + S r.
Proof.
  unfold triangular.
  replace (S r * (S r + 1)) with (r * (r + 1) + S r * 2) by lia.
  by rewrite Nat.div_add.
Qed.

Lemma triangular_mono (r r' : nat) : r ≤ r' → triangular r ≤ triangular r'.
Proof.
  induction 1 as [|r' _ IH]; [done|]. rewrite triangular_S. lia.
Qed.

Lemma packed_index_inj (r c r' c' : nat) :
  c ≤ r → c' ≤ r' → packed_index r c = packed_index r' c' → r = r' ∧ c = c'.
Proof.
  unfold packed_index. intros Hc Hc' Heq.
  destruct (Nat.lt_trichotomy r r') as [Hlt|[->|Hlt]].
  - pose proof (triangular_mono (S r) r' Hlt). rewrite triangular_S in *. lia.
  - lia.
  - pose proof (triangular_mono (S r') r Hlt). rewrite triangular_S in *. lia.
Qed.

Lemma packed_index_bound (r c K : nat) :
  c ≤ r → packed_index r c < triangular K → r < K.
Proof.
  unfold packed_index. intros Hc Hlt.
  destruct (decide (r < K)) as [|Hge]; [done|].
  pose proof (triangular_mono K r ltac:(lia)). lia.
Qed.

Section PevPecFacts.
Context {F : Type} `{Number F}.
Implicit Types (a : tensor3 F) (elems : list F).

Lemma store3_shape3 n0 n1 n2 a (i j k : nat) (v : F) :
  shape3 n0 n1 n2 a → shape3 n0 n1 n2 (store3 i j k v a).
Proof.
  intros [Hlen Hall]. unfold store3. split; [by rewrite length_alter|].
  apply Forall_alter; [done|]. intros m _ Hm. by apply store2_shape2.
Qed.

Lemma store3_lookup_ne a (i j k i' : nat) (v : F) :
  i' ≠ i → store3 i j k v a !! i' = a !! i'.
Proof. intros Hne. unfold store3. by rewrite list_lookup_alter_ne. Qed.

Lemma shape3_cell n0 n1 n2 a (i j k : nat) :
  shape3 n0 n1 n2 a → i < n0 → j < n1 → k < n2 → is_Some (cell3 a i j k).
Proof.
  intros Hs Hi Hj Hk.
  destruct (shape3_row n0 n1 n2 a i j Hs Hi Hj) as (row & Hrow & Hlen).
  rewrite cell3_row, Hrow. simpl. apply lookup_lt_is_Some_2. lia.
Qed.

Lemma store_packed_step (animal : Z) (x : F) a (row col : Z) :
  store_packed animal x (a, row, col)
  = setitem3 a animal row col x ≫= λ a',
      if (col =? row)%Z then Ok (a', (row + 1)%Z, 0%Z)
      else Ok (a', row, (col + 1)%Z).
Proof. done. Qed.

(** The loop over the values of a line, from the position [(row, col)]. *)
Lemma store_packed_spec (N K : nat) (animal : Z) elems :
  (0 ≤ animal < Z.of_nat N)%Z →
  ∀ a (row col : nat),
    shape3 N K K a → col ≤ row →
    packed_index row col + length elems ≤ triangular K →
    ∃ a1 row' col',
      for_each elems (store_packed animal) (a, Z.of_nat row, Z.of_nat col)
      = Ok (a1, row', col') ∧
      shape3 N K K a1 ∧
      (∀ j, j ≠ Z.to_nat animal → a1 !! j = a !! j) ∧
      ∀ r c, r < K → c < K →
        cell3 a1 (Z.to_nat animal) r c
        = if decide (packed_covers row col (length elems) r c)
          then elems !! (packed_index r c - packed_index row col)
          else cell3 a (Z.to_nat animal) r c.
Proof.
  intros Han. induction elems as [|x elems IH]; intros a row col Hs Hcol Hfit.
  - exists a, (Z.of_nat row), (Z.of_nat col). simpl. split; [done|].
    split; [done|]. split; [done|]. intros r c Hr Hc.
    rewrite decide_False; [done|]. unfold packed_covers. simpl. lia.
  - simpl in Hfit. cbn [for_each].
    assert (row < K) as Hrow by (apply (packed_index_bound row col); lia).
    rewrite store_packed_step.
    rewrite (setitem3_nonneg N K K) by (done || lia). simpl.
    set (a' := store3 (Z.to_nat animal) (Z.to_nat (Z.of_nat row))
                 (Z.to_nat (Z.of_nat col)) x a).
    assert (shape3 N K K a') as Hs' by (by apply store3_shape3).
    destruct (decide (col = row)) as [->|Hne].
    + rewrite Z.eqb_refl.
      destruct (IH a' (S row) 0 Hs') as (a1 & row' & col' & Hrun & Hs1 & Hoth & Hcells).
      { lia. }
      { unfold packed_index in *. pose proof (triangular_S row) as HtS. lia. }
      exists a1, row', col'.
      replace (Z.of_nat (S row)) with (Z.of_nat row + 1)%Z in Hrun by lia.
      split; [done|]. split; [done|]. split.
      { intros j Hj. rewrite Hoth by done. by apply store3_lookup_ne. }
      intros r c Hr Hc. rewrite Hcells by done.
      unfold a'. rewrite !Nat2Z.id.
      destruct (decide (r = row ∧ c = row)) as [[-> ->]|Hrc].
      * rewrite decide_False, decide_True.
        -- rewrite cell3_store3, decide_True by done.
           rewrite Nat.sub_diag. simpl.
           by destruct (shape3_cell N K K a (Z.to_nat animal) row row) as [y ->];
             [|lia|..].
        -- unfold packed_covers, packed_index. simpl. lia.
        -- unfold packed_covers, packed_index. pose proof (triangular_S row) as HtS. lia.
      * rewrite cell3_store3, (decide_False (P := _ ∧ _ ∧ _)) by tauto.
        unfold packed_covers, packed_index in *. pose proof (triangular_S row) as HtS.
        repeat case_decide; try done.
        -- simpl length in *.
           replace (triangular r + c - (triangular row + row))
             with (S (triangular r + c - (triangular (S row) + 0))) by lia.
           done.
        -- exfalso. simpl length in *. lia.
        -- exfalso. simpl length in *.
           destruct (decide (triangular r + c = triangular row + row)) as [Heq|Hneq];
             [|lia].
           apply (packed_index_inj r c row row) in Heq; [tauto|lia|lia].
    + assert ((Z.of_nat col =? Z.of_nat row)%Z = false) as -> by lia.
      destruct (IH a' row (S col) Hs') as (a1 & row' & col' & Hrun & Hs1 & Hoth & Hcells).
      { lia. }
      { unfold packed_index in *. lia. }
      exists a1, row', col'.
      replace (Z.of_nat (S col)) with (Z.of_nat col + 1)%Z in Hrun by lia.
      split; [done|]. split; [done|]. split.
      { intros j Hj. rewrite Hoth by done. by apply store3_lookup_ne. }
      intros r c Hr Hc. rewrite Hcells by done.
      unfold a'. rewrite !Nat2Z.id.
      destruct (decide (r = row ∧ c = col)) as [[-> ->]|Hrc].
      * rewrite decide_False, decide_True.
        -- rewrite cell3_store3, decide_True by done.
           rewrite Nat.sub_diag. simpl.
           by destruct (shape3_cell N K K a (Z.to_nat animal) row col) as [y ->];
             [|lia|..].
        -- unfold packed_covers, packed_index. simpl. lia.
        -- unfold packed_covers, packed_index. lia.
      * rewrite cell3_store3, (decide_False (P := _ ∧ _ ∧ _)) by tauto.
        unfold packed_covers, packed_index in *.
        repeat case_decide; try done.
        -- simpl length in *.
           replace (triangular r + c - (triangular row + col))
             with (S (triangular r + c - (triangular row + S col))) by lia.
           done.
        -- exfalso. simpl length in *. lia.
        -- exfalso. simpl length in *.
           destruct (decide (triangular r + c = triangular row + col)) as [Heq|Hneq];
             [|lia].
           apply (packed_index_inj r c row col) in Heq; [tauto|lia|lia].
Qed.

Lemma map_result_Ok {A B} (f : A → result B) (g : A → B) (l : list A) :
  (∀ x, x ∈ l → f x = Ok (g x)) → map_result f l = Ok (g <$> l).
Proof.
  induction l as [|x l IH]; intros Hf; [done|]. simpl.
  rewrite Hf by left. simpl. rewrite IH; [done|].
  intros y Hy. apply Hf. by right.
Qed.

Lemma add_transpose_spec (K : nat) (m : matrix F) :
  shape2 K K m → 0 < K →
  ∃ m', add_transpose m = Ok m' ∧ shape2 K K m' ∧
        ∀ r c, r < K → c < K →
          cell2 m' r c = Some (fadd (entry2 m r c) (entry2 m c r)).
Proof.
  intros Hs HK. pose proof (transpose_shape K K m Hs HK) as Hst.
  pose proof Hs as [Hlen Hall]. pose proof Hst as [Hlent Hallt].
  unfold add_transpose. rewrite Hlen, Hlent, Nat.eqb_refl.
  rewrite (map_result_Ok _ (λ rs : list F * list F, zip_with fadd rs.1 rs.2)).
  - eexists. split; [done|]. split; [split|].
    + by rewrite length_fmap, length_zip_with, Hlen, Hlent, Nat.min_id.
    + apply Forall_fmap, Forall_forall. intros [u v] Huv. simpl.
      apply list_elem_of_lookup in Huv as [i Hi].
      apply lookup_zip_Some in Hi as [Hu Hv].
      pose proof (Forall_lookup_1 _ _ _ _ Hall Hu) as Hlu.
      pose proof (Forall_lookup_1 _ _ _ _ Hallt Hv) as Hlv.
      unfold shape1 in *. rewrite length_zip_with. lia.
    + intros r c Hr Hc. unfold cell2. rewrite list_lookup_fmap.
      destruct (lookup_lt_is_Some_2 m r) as [u Hu]; [lia|].
      destruct (lookup_lt_is_Some_2 (transpose m) r) as [v Hv]; [lia|].
      rewrite (proj2 (lookup_zip_Some m (transpose m) r u v)) by done. simpl.
      rewrite lookup_zip_with.
      pose proof (shape2_cell K K m r c Hs Hr Hc) as Hrc.
      pose proof (shape2_cell K K (transpose m) r c Hst Hr Hc) as Hcr.
      unfold cell2 in Hrc, Hcr. rewrite Hu in Hrc. rewrite Hv in Hcr.
      simpl in Hrc, Hcr. rewrite Hrc, Hcr. simpl.
      by rewrite (transpose_entry K K m c r) by done.
  - intros [u v] Huv. simpl.
    apply list_elem_of_lookup in Huv as [i Hi].
    apply lookup_zip_Some in Hi as [Hu Hv].
    pose proof (Forall_lookup_1 _ _ _ _ Hall Hu) as Hlu.
    pose proof (Forall_lookup_1 _ _ _ _ Hallt Hv) as Hlv.
    unfold shape1 in *. unfold elementwise. by rewrite Hlu, Hlv, Nat.eqb_refl.
Qed.

Lemma getitem3_nonneg a (i j k : Z) (x : F) :
  (0 ≤ i)%Z → (0 ≤ j)%Z → (0 ≤ k)%Z →
  cell3 a (Z.to_nat i) (Z.to_nat j) (Z.to_nat k) = Some x →
  getitem3 a i j k = Ok x.
Proof.
  intros Hi Hj Hk Hx. unfold getitem3, cell3 in *.
  destruct (a !! Z.to_nat i) as [m|] eqn:Hm; [simpl in Hx|done].
  rewrite (np_get_nonneg a i m) by done. simpl.
  by apply getitem2_nonneg.
Qed.

Lemma halve_diagonal_spec (N K : nat) (animal : Z) a :
  shape3 N K K a → 0 < K → (0 ≤ animal < Z.of_nat N)%Z →
  ∃ a', halve_diagonal animal a = Ok a' ∧ shape3 N K K a' ∧
        (∀ j, j ≠ Z.to_nat animal → a' !! j = a !! j) ∧
        ∀ r c, r < K → c < K →
          cell3 a' (Z.to_nat animal) r c
          = if decide (r = c)
            then (λ x, fdiv x (of_int 2)) <$> cell3 a (Z.to_nat animal) r c
            else cell3 a (Z.to_nat animal) r c.
Proof.
  intros Hs HK Han. unfold halve_diagonal.
  assert (shape_1 a = K ∧ shape_2 a = K) as [-> ->].
  { destruct Hs as [Hlen Hall]. destruct a as [|m a]; [simpl in Hlen; lia|].
    inversion Hall as [|? ? Hm _]; subst. simpl.
    split; [by destruct Hm|by apply (shape2_ncols K K)]. }
  rewrite Nat.eqb_refl.
  destruct (for_each_range
    (λ (k : Z) (a' : tensor3 F),
       shape3 N K K a' ∧
       (∀ j, j ≠ Z.to_nat animal → a' !! j = a !! j) ∧
       ∀ r c, r < K → c < K →
         cell3 a' (Z.to_nat animal) r c
         = if decide (r = c ∧ (Z.of_nat r < k)%Z)
           then (λ x, fdiv x (of_int 2)) <$> cell3 a (Z.to_nat animal) r c
           else cell3 a (Z.to_nat animal) r c)
    (Z.of_nat K)
    (λ k a', x ← getitem3 a' animal k k; setitem3 a' animal k k (fdiv x (of_int 2)))
    a) as (a' & Hrun & Hs' & Hoth & Hcells).
  - lia.
  - split; [done|]. split; [done|]. intros r c Hr Hc.
    rewrite decide_False; [done|lia].
  - intros k a' Hk (Hs' & Hoth & Hcells).
    destruct (shape3_cell N K K a (Z.to_nat animal) (Z.to_nat k) (Z.to_nat k))
      as [x Hx]; [done|lia|lia|lia|].
    rewrite (getitem3_nonneg a' animal k k x); [|lia|lia|lia|].
    2: { rewrite Hcells by lia. rewrite decide_False; [done|lia]. }
    simpl. rewrite (setitem3_nonneg N K K) by (done || lia).
    eexists. split; [done|]. split; [by apply store3_shape3|]. split.
    { intros j Hj. rewrite store3_lookup_ne by done. by apply Hoth. }
    intros r c Hr Hc. rewrite cell3_store3.
    destruct (decide (r = Z.to_nat k ∧ c = Z.to_nat k)) as [[-> ->]|Hrc].
    + rewrite decide_True by done. rewrite decide_True by lia.
      rewrite Hcells by lia. rewrite decide_False by lia. by rewrite Hx.
    + rewrite decide_False by tauto. rewrite Hcells by done.
      repeat case_decide; try done; exfalso; lia.
  - exists a'. split; [done|]. split; [done|]. split; [done|].
    intros r c Hr Hc. rewrite Hcells by done.
    repeat case_decide; try done; exfalso; lia.
Qed.

(** What reading one line of [pev_pec_bf90] leaves in the array. *)
Lemma read_pev_pec_line_spec (N K : nat) (id : Z) elems a :
  shape3 N K K a → 0 < K → (1 ≤ id ≤ Z.of_nat N)%Z →
  length elems ≤ triangular K →
  ∃ a',
    read_pev_pec_line (id, elems) a = Ok a' ∧
    shape3 N K K a' ∧
    (∀ j, j ≠ Z.to_nat (id - 1) → a' !! j = a !! j) ∧
    ∀ r c, r < K → c < K →
      cell3 a' (Z.to_nat (id - 1)) r c
      = Some (symmetrized a (Z.to_nat (id - 1)) elems r c).
Proof.
  intros Hs HK Hid Hlen. unfold read_pev_pec_line. simpl.
  destruct (store_packed_spec N K (id - 1) elems ltac:(lia) a 0 0 Hs)
    as (a1 & row' & col' & Hrun & Hs1 & Hoth1 & Hcells1); [lia|done|].
  change (Z.of_nat 0) with 0%Z in Hrun. rewrite Hrun. simpl.
  set (an := Z.to_nat (id - 1)) in *.
  assert (∀ r c, r < K → c < K → cell3 a1 an r c = Some (unpacked a an elems r c))
    as Hunpacked.
  { intros r c Hr Hc. rewrite Hcells1 by done. unfold unpacked.
    case_decide as Hcov.
    - rewrite Nat.sub_0_r. apply lookup_entry1.
      unfold packed_covers, packed_index in Hcov. simpl in Hcov.
      unfold packed_index. lia.
    - unfold entry3.
      by destruct (shape3_cell N K K a an r c) as [y ->]; [|lia|..]. }
  destruct (lookup_lt_is_Some_2 a1 an) as [m Hm]; [destruct Hs1; lia|].
  rewrite (np_get_nonneg a1 (id - 1) m) by (lia || done). simpl.
  assert (shape2 K K m) as Hsm.
  { destruct Hs1 as [_ Hall]. by apply (Forall_lookup_1 _ _ _ _ Hall Hm). }
  destruct (add_transpose_spec K m Hsm HK) as (m' & -> & Hsm' & Hm'). simpl.
  rewrite (np_at_nonneg a1 (id - 1) _ m m') by (lia || done). simpl.
  fold an.
  assert (shape3 N K K (<[an := m']> a1)) as Hs2.
  { destruct Hs1 as [Hlen1 Hall1]. split; [by rewrite length_insert|].
    by apply Forall_insert. }
  destruct (halve_diagonal_spec N K (id - 1) (<[an := m']> a1) Hs2 HK ltac:(lia))
    as (a3 & -> & Hs3 & Hoth3 & Hcells3).
  exists a3. split; [done|]. split; [done|]. split.
  { intros j Hj. rewrite Hoth3 by done. rewrite list_lookup_insert_ne by done.
    by apply Hoth1. }
  intros r c Hr Hc. fold an in Hcells3. rewrite Hcells3 by done.
  assert (∀ r c, r < K → c < K →
    cell3 (<[an := m']> a1) an r c
    = Some (fadd (unpacked a an elems r c) (unpacked a an elems c r))) as Hsum.
  { intros r0 c0 Hr0 Hc0. unfold cell3.
    rewrite list_lookup_insert_eq by (destruct Hs1; lia). simpl.
    rewrite Hm' by done. f_equal. f_equal; apply entry2_cell.
    - pose proof (Hunpacked r0 c0 Hr0 Hc0) as Hu. unfold cell3 in Hu.
      by rewrite Hm in Hu.
    - pose proof (Hunpacked c0 r0 Hc0 Hr0) as Hu. unfold cell3 in Hu.
      by rewrite Hm in Hu. }
  rewrite Hsum by done. unfold symmetrized.
  case_decide as Hrc; [subst c|]; done.
Qed.

End PevPecFacts.

(** *** Symmetry and the diagonal, over exact arithmetic *)

Lemma symmetric_of_entries (K : nat) (M : matrix R) :
  shape2 K K M → 0 < K →
  (∀ r c, r < K → c < K → entry2 M r c = entry2 M c r) →
  transpose M = M.
Proof.
  intros Hs HK Hsym. pose proof Hs as [Hlen Hall].
  unfold transpose. rewrite (shape2_ncols K K) by done.
  apply list_eq. intros j. rewrite list_lookup_fmap.
  destruct (decide (j < K)) as [Hj|Hj].
  - rewrite lookup_seq_lt by done. simpl.
    destruct (lookup_lt_is_Some_2 M j) as [row Hrow]; [lia|]. rewrite Hrow. f_equal.
    pose proof (shape2_row _ _ _ _ _ Hs Hrow) as Hlr.
    rewrite (column_entries K K) by done.
    rewrite (tabulate_entries row), Hlr.
    apply list_eq. intros c. rewrite !list_lookup_fmap.
    destruct (decide (c < K)) as [Hc|Hc]; [|by rewrite lookup_seq_ge by lia].
    rewrite lookup_seq_lt by done. simpl. f_equal.
    rewrite (Hsym c j) by done. unfold entry2, entry1, cell2. by rewrite Hrow.
  - rewrite lookup_seq_ge by lia. simpl. symmetry. apply lookup_ge_None_2. lia.
Qed.

Lemma symmetrized_comm (a : tensor3 R) (an : nat) (elems : list R) (r c : nat) :
  symmetrized a an elems r c = symmetrized a an elems c r.
Proof.
  unfold symmetrized. repeat case_decide; subst; try done.
  simpl. apply Rplus_comm.
Qed.

Lemma read_pev_pec_line_symmetric (N K : nat) (line : pev_pec_line R)
    (a : tensor3 R) :
  shape3 N K K a → 0 < K → pev_pec_line_ok N K line →
  Forall (λ M, transpose M = M) a →
  ∃ a', read_pev_pec_line line a = Ok a' ∧ shape3 N K K a' ∧
        Forall (λ M, transpose M = M) a'.
Proof.
  intros Hs HK [Hid Hlen] Hsym. destruct line as [id elems]. simpl in *.
  destruct (read_pev_pec_line_spec N K id elems a Hs HK Hid Hlen)
    as (a' & Hrun & Hs' & Hoth & Hcells).
  exists a'. split; [done|]. split; [done|].
  apply Forall_lookup. intros j M HM.
  destruct (decide (j = Z.to_nat (id - 1))) as [->|Hj].
  - apply (symmetric_of_entries K); [|done|].
    + destruct Hs' as [_ Hall]. by apply (Forall_lookup_1 _ _ _ _ Hall HM).
    + intros r c Hr Hc.
      pose proof (Hcells r c Hr Hc) as Hrc. pose proof (Hcells c r Hc Hr) as Hcr.
      unfold cell3 in Hrc, Hcr. rewrite HM in Hrc, Hcr. simpl in Hrc, Hcr.
      rewrite (entry2_cell _ _ _ _ Hrc), (entry2_cell _ _ _ _ Hcr).
      apply symmetrized_comm.
  - rewrite Hoth in HM by done. by apply (Forall_lookup_1 _ _ _ _ Hsym HM).
Qed.

(** C5.  After [__read_pev_pec__] every animal's matrix equals its own
    transpose: the matrix of an animal with a line because of the
    symmetrization, the others because they are left as they were. *)
Theorem read_pev_pec_symmetric (N K : nat) (lines : list (pev_pec_line R))
    (a : tensor3 R) :
  shape3 N K K a → 0 < K →
  Forall (pev_pec_line_ok N K) lines →
  Forall (λ M, transpose M = M) a →
  ∃ a', read_pev_pec lines a = Ok a' ∧ shape3 N K K a' ∧
        Forall (λ M, transpose M = M) a'.
Proof.
  intros Hs HK Hlines. revert a Hs. unfold read_pev_pec.
  induction Hlines as [|line lines Hline Hlines IH]; intros a Hs Hsym.
  - by exists a.
  - destruct (read_pev_pec_line_symmetric N K line a Hs HK Hline Hsym)
      as (a1 & Hrun & Hs1 & Hsym1).
    destruct (IH a1 Hs1 Hsym1) as (a' & Hrest & Hs' & Hsym').
    exists a'. cbn [for_each]. rewrite Hrun. simpl. by rewrite Hrest.
Qed.

Lemma read_pev_pec_symmetric_witness :
  ∃ a', read_pev_pec exact_pev_pec_lines exact_PEV_PECs = Ok a' ∧
        Forall (λ M, transpose M = M) a'.
Proof.
  destruct (read_pev_pec_symmetric 2 2 exact_pev_pec_lines exact_PEV_PECs)
    as (a' & Hrun & _ & Hsym).
  - repeat split; repeat constructor.
  - lia.
  - repeat constructor; simpl; lia.
  - repeat constructor.
  - exists a'. split; [exact Hrun|exact Hsym].
Defined.




(** ** PEV/REL engine *)

Section Tensor4Facts.
Context {F : Type} `{Number F}.
Implicit Types (a : tensor4 F) (row : list F).

Lemma shape4_row n0 n1 n2 n3 a (i j k : nat) :
  shape4 n0 n1 n2 n3 a → i < n0 → j < n1 → k < n2 →
  ∃ row, cell3 a i j k = Some row ∧ length row = n3.
Proof.
  intros [Hlen Hall] Hi Hj Hk.
  destruct (lookup_lt_is_Some_2 a i) as [t Ht]; [lia|].
  pose proof (Forall_lookup_1 _ _ _ _ Hall Ht) as Hst.
  destruct (shape3_row n1 n2 n3 t j k Hst Hj Hk) as (row & Hrow & Hlr).
  exists row. split; [|done]. unfold cell3. rewrite Ht. done.
Qed.

Lemma store3_shape4 n0 n1 n2 n3 a (i j k : nat) row :
  shape4 n0 n1 n2 n3 a → length row = n3 →
  shape4 n0 n1 n2 n3 (store3 i j k row a).
Proof.
  intros [Hlen Hall] Hrow. unfold store3. split; [by rewrite length_alter|].
  apply Forall_alter; [done|]. intros t _ Ht. by apply store2_shape3.
Qed.

Lemma setrow4_nonneg n0 n1 n2 n3 a (i j k : Z) row :
  shape4 n0 n1 n2 n3 a →
  (0 ≤ i < Z.of_nat n0)%Z → (0 ≤ j < Z.of_nat n1)%Z → (0 ≤ k < Z.of_nat n2)%Z →
  length row = n3 →
  setrow4 a i j k row = Ok (store3 (Z.to_nat i) (Z.to_nat j) (Z.to_nat k) row a).
Proof.
  intros [Hlen Hall] Hi Hj Hk Hrow. unfold setrow4, store3.
  destruct (lookup_lt_is_Some_2 a (Z.to_nat i)) as [t Ht]; [lia|].
  pose proof (Forall_lookup_1 _ _ _ _ Hall Ht) as Hst.
  rewrite (np_at_nonneg a i _ t (store2 (Z.to_nat j) (Z.to_nat k) row t));
    [|lia|done|].
  - by erewrite alter_insert.
  - by apply (setrow3_nonneg n1 n2 n3).
Qed.

Lemma getrow4_nonneg a (i j k : Z) row :
  (0 ≤ i)%Z → (0 ≤ j)%Z → (0 ≤ k)%Z →
  cell3 a (Z.to_nat i) (Z.to_nat j) (Z.to_nat k) = Some row →
  getrow4 a i j k = Ok row.
Proof.
  intros Hi Hj Hk Hrow. unfold getrow4, cell3, cell2 in *.
  destruct (a !! Z.to_nat i) as [t|] eqn:Ht; [simpl in Hrow|done].
  rewrite (np_get_nonneg a i t) by done. simpl.
  destruct (t !! Z.to_nat j) as [m|] eqn:Hm; [simpl in Hrow|done].
  rewrite (np_get_nonneg t j m) by done. simpl.
  by apply np_get_nonneg.
Qed.

Lemma cell3_store3_eq n0 n1 n2 n3 a (i j k : nat) row :
  shape4 n0 n1 n2 n3 a → i < n0 → j < n1 → k < n2 →
  cell3 (store3 i j k row a) i j k = Some row.
Proof.
  intros Hs Hi Hj Hk. rewrite cell3_store3, decide_True by done.
  by destruct (shape4_row n0 n1 n2 n3 a i j k Hs Hi Hj Hk) as (old & -> & _).
Qed.

Lemma cell3_store3_ne {A} (a : list (list (list A))) (i j k i' j' k' : nat) (v : A) :
  (i', j', k') ≠ (i, j, k) → cell3 (store3 i j k v a) i' j' k' = cell3 a i' j' k'.
Proof.
  intros Hne. rewrite cell3_store3, decide_False; [done|].
  intros (-> & -> & ->). done.
Qed.

Lemma cell4_row a (i j k l : nat) :
  cell4 a i j k l = cell3 a i j k ≫= (.!! l).
Proof.
  unfold cell4, cell3. destruct (a !! i) as [t|]; simpl; [|done].
  apply cell3_row.
Qed.

Lemma mean_axis3_shape n0 n1 n2 n3 a :
  shape4 n0 n1 n2 n3 a → shape3 n0 n1 n2 (mean_axis3 a).
Proof.
  intros [Hlen Hall]. unfold mean_axis3, mean_axis2.
  split; [by rewrite length_fmap|].
  apply Forall_fmap. eapply Forall_impl; [exact Hall|].
  intros t [Hlt Hallt]. simpl. split; [by rewrite length_fmap|].
  apply Forall_fmap. eapply Forall_impl; [exact Hallt|].
  intros m [Hlm _]. simpl. unfold shape1. by rewrite length_fmap.
Qed.

Lemma cell3_mean_axis3 a (i j k : nat) :
  cell3 (mean_axis3 a) i j k = mean <$> cell3 a i j k.
Proof.
  unfold cell3, mean_axis3. rewrite list_lookup_fmap.
  destruct (a !! i) as [t|]; simpl; [|done]. apply cell2_mean_axis2.
Qed.
End Tensor4Facts.

Section BlockProduct.
Context {F : Type} `{Number F}.

(** [B @ M[lo:hi, lo:hi] @ B.T] is [B · block · Bᵗ]. *)
Lemma block_product_spec (ly : layout) (B M : matrix F) (D Kt : nat) (i : Z) :
  let K := Z.to_nat (random_degree ly + 1) in
  let lo := (i * (random_degree ly + 1))%Z in
  let hi := ((i + 1) * (random_degree ly + 1))%Z in
  shape2 D K B → shape2 Kt Kt M → 0 < D → 0 < K →
  (0 ≤ i)%Z → (Z.to_nat i + 1) * K ≤ Kt →
  ∃ m2,
    matmul B (slice2 M lo hi lo hi) ≫= (λ m1, matmul m1 (transpose B)) = Ok m2 ∧
    shape2 D D m2 ∧
    ∀ d d', d < D → d' < D →
      entry2 m2 d d' = block_projection B M K (Z.to_nat i) d d'.
Proof.
  intros K lo hi HB HM HD HK Hi Hfit.
  assert (0 ≤ random_degree ly)%Z as Hrd by lia.
  assert (Z.of_nat K = random_degree ly + 1)%Z as HKz by lia.
  assert (Z.to_nat lo = Z.to_nat i * K) as Hlo by (unfold lo; nia).
  assert (Z.to_nat hi = (Z.to_nat i + 1) * K) as Hhi by (unfold hi; nia).
  assert (0 ≤ lo ≤ hi)%Z as Hlohi by (unfold lo, hi; nia).
  assert (hi ≤ Z.of_nat Kt)%Z as Hhik by nia.
  assert (Z.to_nat hi - Z.to_nat lo = K) as Hsz by nia.
  pose proof (slice2_shape Kt Kt M lo hi lo hi HM Hlohi Hhik Hlohi Hhik) as Hblk.
  rewrite Hsz in Hblk.
  destruct (matmul_spec D K K B _ HB Hblk HK) as (m1 & -> & Hm1 & Hm1e). simpl.
  pose proof (transpose_shape D K B HB HD) as HBt.
  destruct (matmul_spec D K D m1 _ Hm1 HBt HK) as (m2 & -> & Hm2 & Hm2e).
  exists m2. split; [done|]. split; [done|].
  intros d d' Hd Hd'. rewrite Hm2e by done. unfold block_projection.
  apply sigma_ext. intros b Hb.
  rewrite (transpose_entry D K B) by done. f_equal.
  rewrite Hm1e by done. apply sigma_ext. intros a Ha. f_equal.
  rewrite (slice2_entry Kt Kt) by (done || lia).
  by rewrite Hlo.
Qed.

Lemma mean_axis0_entries (D : nat) (m : matrix F) :
  shape2 D D m → 0 < D →
  mean_axis0 m
  = (λ d, mean_over D (λ r, entry2 m r d)) <$> seq 0 D.
Proof.
  intros Hs HD. unfold mean_axis0. rewrite (shape2_ncols D D) by done.
  apply list_eq. intros d. rewrite !list_lookup_fmap.
  destruct (decide (d < D)) as [Hd|Hd]; [|by rewrite lookup_seq_ge by lia].
  rewrite lookup_seq_lt by done. simpl. f_equal.
  rewrite (column_entries D D) by done.
  unfold mean, mean_over, sigma. by rewrite length_fmap, length_seq.
Qed.
End BlockProduct.

Section PevRelFacts.
Context {F : Type} `{Number F}.
Variable ly : layout.
Variable B : matrix F.
Variable PEV_PECs : tensor3 F.
Variable var_G : tensor3 F.
Variable inbreeding : bool.
Variable inbreeding_coefficients : list F.
Hypothesis Hin : pev_rel_inputs ly B PEV_PECs var_G inbreeding inbreeding_coefficients.

Local Abbreviation L := (Z.to_nat (lactation_dim ly)).
Local Abbreviation T := (Z.to_nat (number_of_traits ly)).
Local Abbreviation N := (Z.to_nat (animal_count ly)).
Local Abbreviation D := (Z.to_nat (dim_max ly - dim_min ly + 1)).
Local Abbreviation K := (Z.to_nat (random_degree ly + 1)).
Local Abbreviation pev :=
  (prediction_error_variance ly B PEV_PECs).
Local Abbreviation rel :=
  (reliability ly B PEV_PECs var_G inbreeding inbreeding_coefficients).

Lemma pev_rel_step_spec (i j : Z) (st : reliabilities F) :
  reliabilities_allocated ly st →
  (0 ≤ i < lactation_dim ly * number_of_traits ly)%Z →
  (0 ≤ j < animal_count ly)%Z →
  let l := Z.to_nat (i / number_of_traits ly) in
  let t := Z.to_nat (i mod number_of_traits ly) in
  pev_rel_step ly B PEV_PECs var_G inbreeding inbreeding_coefficients
    i (i / number_of_traits ly) (i mod number_of_traits ly) j st
  = Ok {| PEVs := store3 l t (Z.to_nat j)
                    (curve ly (pev (Z.to_nat i) (Z.to_nat j))) (PEVs st);
          RELs := store3 l t (Z.to_nat j)
                    (curve ly (rel (Z.to_nat i) (Z.to_nat j))) (RELs st);
          avg_PEVs := avg_PEVs st;
          avg_RELs := avg_RELs st |}.
Proof.
  intros [HP HR] Hi Hj. cbv zeta.
  destruct Hin as (HL & HT & HN & Hrd & Hdim & HB & HPP & HvG & Hcoef).
  assert (0 ≤ i / number_of_traits ly < lactation_dim ly)%Z as Hl.
  { split; [apply Z.div_pos; lia|apply Z.div_lt_upper_bound; lia]. }
  assert (0 ≤ i mod number_of_traits ly < number_of_traits ly)%Z as Ht
    by (apply Z.mod_pos_bound; lia).
  unfold pev_rel_step.
  destruct (lookup_lt_is_Some_2 PEV_PECs (Z.to_nat j)) as [M HM];
    [destruct HPP; lia|].
  rewrite (np_get_nonneg PEV_PECs j M) by (lia || done). simpl.
  assert (shape2 (K * T * L) (K * T * L) M) as HsM.
  { destruct HPP as [_ Hall]. by apply (Forall_lookup_1 _ _ _ _ Hall HM). }
  destruct (block_product_spec ly B M D (K * T * L) i HB HsM)
    as (m2 & Hm2 & Hsm2 & Hm2e); [lia|lia|lia|nia|].
  cbv zeta in Hm2.
  destruct (matmul B _) as [m1|e] eqn:Hm1; [simpl in Hm2|done]. simpl.
  rewrite Hm2. simpl.
  rewrite (mean_axis0_entries D m2) by (done || lia).
  assert ((λ d, mean_over D (λ r, entry2 m2 r d)) <$> seq 0 D
          = curve ly (pev (Z.to_nat i) (Z.to_nat j))) as ->.
  { unfold curve. apply list_eq. intros d. rewrite !list_lookup_fmap.
    destruct (decide (d < D)) as [Hd|Hd]; [|by rewrite lookup_seq_ge by lia].
    rewrite lookup_seq_lt by done. simpl. f_equal.
    unfold prediction_error_variance, mean_over. f_equal.
    apply sigma_ext. intros r Hr. rewrite HM. simpl. by apply Hm2e. }
  rewrite (setrow4_nonneg L T N D) by (done || lia || apply length_curve). simpl.
  rewrite (getrow4_nonneg _ _ _ _ (curve ly (pev (Z.to_nat i) (Z.to_nat j))));
    [|lia|lia|lia|apply (cell3_store3_eq L T N D); (done || lia)]. simpl.
  destruct (shape3_row L T D var_G (Z.to_nat (i / number_of_traits ly))
              (Z.to_nat (i mod number_of_traits ly)) HvG) as (vg & Hvg & Hlvg);
    [lia|lia|].
  rewrite (getrow3_nonneg var_G _ _ vg) by (lia || done). simpl.
  assert (vg = curve ly (λ d, entry3 var_G (Z.to_nat (i / number_of_traits ly))
                                (Z.to_nat (i mod number_of_traits ly)) d)) as Hvgc.
  { rewrite (tabulate_entries vg), Hlvg. unfold curve.
    apply list_eq. intros d. rewrite !list_lookup_fmap.
    destruct (decide (d < D)) as [Hd|Hd]; [|by rewrite lookup_seq_ge by lia].
    rewrite lookup_seq_lt by done. simpl. f_equal.
    unfold entry3. rewrite cell3_row, Hvg. simpl. done. }
  assert (Z.to_nat (i / number_of_traits ly) = Z.to_nat i / T) as Hdiv.
  { rewrite Z2Nat.inj_div by lia. done. }
  assert (Z.to_nat (i mod number_of_traits ly) = Z.to_nat i mod T) as Hmod.
  { rewrite Z2Nat.inj_mod by lia. done. }
  assert (reliability_row inbreeding inbreeding_coefficients j
            (curve ly (pev (Z.to_nat i) (Z.to_nat j))) vg
          = Ok (curve ly (rel (Z.to_nat i) (Z.to_nat j)))) as ->.
  { unfold reliability_row, reliability, reliability_base.
    rewrite <- Hdiv, <- Hmod. rewrite Hvgc.
    destruct inbreeding.
    - rewrite (np_get_nonneg inbreeding_coefficients j
                 (entry1 inbreeding_coefficients (Z.to_nat j)));
        [|lia|apply lookup_entry1; rewrite Hcoef by done; lia].
      simpl. rewrite broadcast_curve, elementwise_curve. simpl.
      by rewrite broadcast_curve.
    - rewrite elementwise_curve. simpl. by rewrite broadcast_curve. }
  simpl.
  rewrite (setrow4_nonneg L T N D) by (done || lia || apply length_curve). simpl.
  done.
Qed.

Lemma pev_rel_step_invariant (i j : Z) (st : reliabilities F) :
  (0 ≤ i < lactation_dim ly * number_of_traits ly)%Z →
  (0 ≤ j < animal_count ly)%Z →
  pev_rel_invariant ly B PEV_PECs var_G inbreeding inbreeding_coefficients i j st →
  ∃ st',
    pev_rel_step ly B PEV_PECs var_G inbreeding inbreeding_coefficients
      i (i / number_of_traits ly) (i mod number_of_traits ly) j st = Ok st' ∧
    pev_rel_invariant ly B PEV_PECs var_G inbreeding inbreeding_coefficients
      i (j + 1) st'.
Proof.
  intros Hi Hj (Hal & Hrows).
  pose proof (pev_rel_step_spec i j st Hal Hi Hj) as Hstep. cbv zeta in Hstep.
  rewrite Hstep. eexists. split; [done|].
  pose proof Hal as [HP HR].
  destruct Hin as (HL & HT & HN & _).
  assert (0 ≤ i / number_of_traits ly < lactation_dim ly)%Z as Hl.
  { split; [apply Z.div_pos; lia|apply Z.div_lt_upper_bound; lia]. }
  assert (0 ≤ i mod number_of_traits ly < number_of_traits ly)%Z as Ht
    by (apply Z.mod_pos_bound; lia).
  split.
  - split; simpl; apply store3_shape4; (done || apply length_curve).
  - intros i' j' Hj' Hdone. cbv zeta. simpl.
    assert (Z.of_nat (i' / T) = Z.of_nat i' / number_of_traits ly)%Z as Hdiv.
    { rewrite Nat2Z.inj_div. f_equal. lia. }
    assert (Z.of_nat (i' mod T) = Z.of_nat i' mod number_of_traits ly)%Z as Hmod.
    { rewrite Nat2Z.inj_mod. f_equal. lia. }
    destruct (decide (Z.of_nat i' = i ∧ Z.of_nat j' = j)) as [[<- <-]|Hne].
    + rewrite !Nat2Z.id, <- Hdiv, <- Hmod, !Nat2Z.id.
      rewrite <- Hdiv in Hl. rewrite <- Hmod in Ht.
      split; apply (cell3_store3_eq L T N D); (done || lia).
    + assert ((i' / T, i' mod T, j')
              ≠ (Z.to_nat (i / number_of_traits ly),
                 Z.to_nat (i mod number_of_traits ly), Z.to_nat j)) as Hcell.
      { intros [= Hq Hr Hjj]. apply Hne. split; [|lia].
        rewrite (Z.div_mod (Z.of_nat i') (number_of_traits ly)) by lia.
        rewrite (Z.div_mod i (number_of_traits ly)) by lia.
        rewrite <- Hdiv, <- Hmod. lia. }
      rewrite !cell3_store3_ne by done. apply Hrows; [done|lia].
Qed.

(** What the engine leaves in its fields. *)
Lemma pev_rel_engine_result (st : reliabilities F) :
  reliabilities_allocated ly st →
  ∃ out,
    compute_pevs_rels ly B PEV_PECs var_G inbreeding inbreeding_coefficients st
    = Ok out ∧
    (∀ lactation trait j : nat,
      lactation < L → trait < T → j < N →
      let i := lactation * T + trait in
      cell3 (PEVs out) lactation trait j = Some (curve ly (pev i j)) ∧
      cell3 (RELs out) lactation trait j = Some (curve ly (rel i j)) ∧
      cell3 (avg_PEVs out) lactation trait j = Some (mean_over D (pev i j)) ∧
      cell3 (avg_RELs out) lactation trait j = Some (mean_over D (rel i j))) ∧
    reliabilities_allocated ly out.
Proof.
  intros Hal. pose proof Hin as (HL & HT & HN & _).
  unfold compute_pevs_rels.
  destruct (for_each_range
    (λ i st, pev_rel_invariant ly B PEV_PECs var_G inbreeding
               inbreeding_coefficients i 0 st)
    (lactation_dim ly * number_of_traits ly)
    (λ i st,
       lactation ← py_floordiv i (number_of_traits ly);
       trait ← py_mod i (number_of_traits ly);
       for_each (range (animal_count ly))
         (pev_rel_step ly B PEV_PECs var_G inbreeding inbreeding_coefficients
            i lactation trait) st)
    st) as (st' & Hrun & Hinv).
  - lia.
  - split; [done|]. intros i' j' _ Hdone. lia.
  - intros i s Hi Hs. unfold py_floordiv, py_mod.
    assert ((number_of_traits ly =? 0)%Z = false) as -> by lia. simpl.
    destruct (for_each_range
      (λ j st, pev_rel_invariant ly B PEV_PECs var_G inbreeding
                 inbreeding_coefficients i j st)
      (animal_count ly)
      (pev_rel_step ly B PEV_PECs var_G inbreeding inbreeding_coefficients
         i (i / number_of_traits ly) (i mod number_of_traits ly))
      s) as (s' & Hrun' & Hal' & Hrows'); [lia|done| |].
    + intros j s0 Hj Hs0. by apply pev_rel_step_invariant.
    + exists s'. split; [done|]. split; [done|].
      intros i' j' Hj' Hdone. apply Hrows'; [done|lia].
  - rewrite Hrun. simpl. eexists. split; [done|]. simpl.
    destruct Hinv as (Hal' & Hrows). split; [|exact Hal'].
    intros l t j Hl Ht Hj. cbv zeta.
    destruct (Hrows (l * T + t) j) as [HP HR]; [lia|left; nia|].
    rewrite Nat.div_add_l, Nat.div_small, Nat.add_0_r in HP, HR by lia.
    rewrite Nat.add_comm, Nat.Div0.mod_add, Nat.mod_small in HP, HR by lia.
    rewrite (Nat.add_comm t) in HP, HR.
    rewrite !cell3_mean_axis3, HP, HR. simpl. by rewrite !mean_curve.
Qed.
End PevRelFacts.

(** C3.  For every animal and every (lactation, trait) block at offset [i·K]
    of the animal's PEV-PEC matrix, the stored PEV at DIM offset [d] is the
    mean over the basis rows of column [d] of [B · block · Bᵗ], and the stored
    reliability is [1 - PEV / var_G], with [var_G] multiplied by
    [1 + inbreeding_coefficients[j]] exactly when inbreeding is enabled. *)
Theorem compute_pevs_rels_spec {F : Type} `{Number F} (ly : layout)
    (B : matrix F) (PEV_PECs var_G : tensor3 F) (inbreeding : bool)
    (inbreeding_coefficients : list F) (st : reliabilities F) :
  pev_rel_inputs ly B PEV_PECs var_G inbreeding inbreeding_coefficients →
  reliabilities_allocated ly st →
  ∃ out,
    compute_pevs_rels ly B PEV_PECs var_G inbreeding inbreeding_coefficients st
    = Ok out ∧
    ∀ lactation trait j d : nat,
      lactation < Z.to_nat (lactation_dim ly) →
      trait < Z.to_nat (number_of_traits ly) →
      j < Z.to_nat (animal_count ly) →
      d < Z.to_nat (dim_max ly - dim_min ly + 1) →
      let i := lactation * Z.to_nat (number_of_traits ly) + trait in
      let PEV := prediction_error_variance ly B PEV_PECs i j d in
      let vg := entry3 var_G lactation trait d in
      cell4 (PEVs out) lactation trait j d = Some PEV ∧
      cell4 (RELs out) lactation trait j d
      = Some (fsub (of_int 1)
                (fdiv PEV
                   (if inbreeding
                    then fmul vg (fadd (of_int 1) (entry1 inbreeding_coefficients j))
                    else vg))).
Proof.
  intros Hin Hal.
  destruct (pev_rel_engine_result ly B PEV_PECs var_G inbreeding
              inbreeding_coefficients Hin st Hal) as (out & Hout & Hcells & _).
  exists out. split; [done|]. intros l t j d Hl Ht Hj Hd. cbv zeta.
  destruct (Hcells l t j Hl Ht Hj) as (HP & HR & _).
  rewrite !cell4_row, HP, HR. simpl. rewrite !lookup_curve by done.
  split; [done|]. f_equal. unfold reliability, reliability_base.
  rewrite Nat.div_add_l, Nat.div_small, Nat.add_0_r by lia.
  rewrite (Nat.add_comm _ t), Nat.Div0.mod_add, Nat.mod_small by lia.
  done.
Qed.

Lemma sample_pev_rel_inputs :
  pev_rel_inputs sample_layout sample_basis sample_PEV_PECs sample_var_G
    true sample_inbreeding.
Proof.
  unfold pev_rel_inputs. simpl.
  repeat split; try lia; repeat constructor.
Defined.

Lemma sample_reliabilities_allocated :
  reliabilities_allocated sample_layout sample_reliabilities.
Proof. repeat split; repeat constructor. Defined.

Lemma compute_pevs_rels_spec_witness :
  ∃ out,
    compute_pevs_rels sample_layout sample_basis sample_PEV_PECs sample_var_G
      true sample_inbreeding sample_reliabilities = Ok out ∧
    cell4 (PEVs out) 0 1 1 0
    = Some (prediction_error_variance sample_layout sample_basis
              sample_PEV_PECs 1 1 0).
Proof.
  destruct (compute_pevs_rels_spec sample_layout sample_basis sample_PEV_PECs
              sample_var_G true sample_inbreeding sample_reliabilities
              sample_pev_rel_inputs sample_reliabilities_allocated)
    as (out & Hout & Hcells).
  exists out. split; [exact Hout|].
  destruct (Hcells 0 1 1 0) as [HP _]; [simpl; lia..|].
  exact HP.
Defined.

(** C9, as the code has it.  [avg_RELs] is the mean of the reliability over
    the DIM axis only: one value for every (lactation, trait, animal). *)
Theorem avg_RELs_spec {F : Type} `{Number F} (ly : layout)
    (B : matrix F) (PEV_PECs var_G : tensor3 F) (inbreeding : bool)
    (inbreeding_coefficients : list F) (st : reliabilities F) :
  pev_rel_inputs ly B PEV_PECs var_G inbreeding inbreeding_coefficients →
  reliabilities_allocated ly st →
  ∃ out,
    compute_pevs_rels ly B PEV_PECs var_G inbreeding inbreeding_coefficients st
    = Ok out ∧
    shape3 (Z.to_nat (lactation_dim ly)) (Z.to_nat (number_of_traits ly))
           (Z.to_nat (animal_count ly)) (avg_RELs out) ∧
    ∀ lactation trait j : nat,
      lactation < Z.to_nat (lactation_dim ly) →
      trait < Z.to_nat (number_of_traits ly) →
      j < Z.to_nat (animal_count ly) →
      let i := lactation * Z.to_nat (number_of_traits ly) + trait in
      cell3 (avg_RELs out) lactation trait j
      = Some (mean_over (Z.to_nat (dim_max ly - dim_min ly + 1))
                (reliability ly B PEV_PECs var_G inbreeding
                   inbreeding_coefficients i j)).
Proof.
  intros Hin Hal.
  destruct (pev_rel_engine_result ly B PEV_PECs var_G inbreeding
              inbreeding_coefficients Hin st Hal)
    as (out & Hout & Hcells & _ & HsR).
  exists out. split; [done|]. split.
  - unfold compute_pevs_rels in Hout.
    destruct (for_each _ _ st) as [st'|e]; [|done]. simpl in Hout.
    injection Hout as <-. simpl in *. by eapply mean_axis3_shape.
  - intros l t j Hl Ht Hj. cbv zeta.
    by destruct (Hcells l t j Hl Ht Hj) as (_ & _ & _ & HR).
Qed.

Lemma avg_RELs_spec_witness :
  ∃ out,
    compute_pevs_rels sample_layout sample_basis sample_PEV_PECs sample_var_G
      true sample_inbreeding sample_reliabilities = Ok out ∧
    cell3 (avg_RELs out) 0 0 1
    = Some (mean_over 2
              (reliability sample_layout sample_basis sample_PEV_PECs
                 sample_var_G true sample_inbreeding 0 1)).
Proof.
  destruct (avg_RELs_spec sample_layout sample_basis sample_PEV_PECs
              sample_var_G true sample_inbreeding sample_reliabilities
              sample_pev_rel_inputs sample_reliabilities_allocated)
    as (out & Hout & _ & Hcells).
  exists out. split; [exact Hout|].
  apply (Hcells 0 0 1); simpl; lia.
Defined.

(** C9, as stated, fails: for the first (lactation, trait) of the sample the
    engine keeps one average per animal, 1/4 and 5/8, while the mean of the
    reliabilities over DIM and animals is 7/16. *)
Lemma avg_RELs_keeps_the_animal_axis :
  avg_RELs <$>
    compute_pevs_rels sample_layout sample_basis sample_PEV_PECs sample_var_G
      true sample_inbreeding sample_reliabilities
  = Ok [[[PrimFloat.div (float_of_int 1) (float_of_int 4);
          PrimFloat.div (float_of_int 5) (float_of_int 8)];
         [PrimFloat.div (float_of_int 1) (float_of_int 2);
          PrimFloat.div (float_of_int 3) (float_of_int 4)]]] ∧
  (λ out, mean_over_dim_and_animals (RELs out) 0 0) <$>
    compute_pevs_rels sample_layout sample_basis sample_PEV_PECs sample_var_G
      true sample_inbreeding sample_reliabilities
  = Ok (Some (PrimFloat.div (float_of_int 7) (float_of_int 16))) ∧
  PrimFloat.eqb (PrimFloat.div (float_of_int 1) (float_of_int 4))
                (PrimFloat.div (float_of_int 7) (float_of_int 16)) = false ∧
  PrimFloat.eqb (PrimFloat.div (float_of_int 5) (float_of_int 8))
                (PrimFloat.div (float_of_int 7) (float_of_int 16)) = false.
Proof. repeat split; vm_compute; reflexivity. Qed.

(** ** DRP engine *)

Section VectorFacts.
Context {F : Type} `{Number F}.

Lemma elementwise_tabulate (op : F → F → F) (f g : nat → F) (n : nat) :
  elementwise op (f <$> seq 0 n) (g <$> seq 0 n)
  = Ok ((λ k, op (f k) (g k)) <$> seq 0 n).
Proof.
  unfold elementwise. rewrite !length_fmap, !length_seq, Nat.eqb_refl.
  by rewrite zip_with_fmap_seq.
Qed.

Lemma broadcast_tabulate (h : F → F) (f : nat → F) (n : nat) :
  broadcast h (f <$> seq 0 n) = (λ k, h (f k)) <$> seq 0 n.
Proof. unfold broadcast. by rewrite <- list_fmap_compose. Qed.

Lemma tabulate_ext {A} (f g : nat → A) (n : nat) :
  (∀ k, k < n → f k = g k) → f <$> seq 0 n = g <$> seq 0 n.
Proof.
  intros Hfg. apply list_eq. intros k. rewrite !list_lookup_fmap.
  destruct (decide (k < n)) as [Hk|Hk]; [|by rewrite lookup_seq_ge by lia].
  rewrite lookup_seq_lt by done. simpl. by rewrite Hfg.
Qed.

Lemma tabulate_Z (ps : list Z) :
  ps = (λ k, default 0%Z (ps !! k)) <$> seq 0 (length ps).
Proof.
  apply list_eq. intros k. rewrite list_lookup_fmap.
  destruct (ps !! k) as [x|] eqn:Hk.
  - rewrite lookup_seq_lt by (by eapply lookup_lt_Some). simpl. by rewrite Hk.
  - rewrite lookup_seq_ge; [done|by apply lookup_ge_None].
Qed.

(** [row[ps - 1]] for parent numbers in [0 .. n]. *)
Lemma gather_parents {A} (row : list A) (ps : list Z) (dflt : A) :
  Forall (λ p, (0 ≤ p ≤ Z.of_nat (length row))%Z) ps →
  (ps ≠ [] → 0 < length row) →
  gather row (parents ps)
  = Ok ((λ k, default dflt (row !! parent_slot (length row) (default 0%Z (ps !! k))))
        <$> seq 0 (length ps)).
Proof.
  intros Hps Hne. unfold gather, parents.
  rewrite (map_result_Ok _
    (λ q, default dflt (row !! parent_slot (length row) (q + 1)%Z))).
  - f_equal. rewrite <- list_fmap_compose.
    rewrite (tabulate_Z ps) at 1. rewrite <- list_fmap_compose.
    apply tabulate_ext. intros k Hk. simpl. do 3 f_equal. lia.
  - intros q Hq. apply list_elem_of_fmap in Hq as (p & -> & Hp).
    assert (0 < length row) as Hrow by (apply Hne; by intros ->; inversion Hp).
    pose proof (proj1 (Forall_forall _ ps) Hps p Hp) as Hrange. simpl in Hrange.
    replace (p - 1 + 1)%Z with p by lia.
    unfold parent_slot.
    destruct (Z.eqb_spec p 0) as [->|Hp0].
    + destruct (lookup_lt_is_Some_2 row (length row - 1)) as [x Hx]; [lia|].
      rewrite Hx. apply np_get_negative; [lia|].
      by replace (Z.to_nat (0 - 1 + Z.of_nat (length row))) with (length row - 1)
        by lia.
    + destruct (lookup_lt_is_Some_2 row (Z.to_nat (p - 1))) as [x Hx]; [lia|].
      rewrite Hx. by apply np_get_nonneg; [lia|].
Qed.

Lemma gather_parents_tabulate {A} (f : nat → A) (n : nat) (ps : list Z) :
  Forall (λ p, (0 ≤ p ≤ Z.of_nat n)%Z) ps →
  (ps ≠ [] → 0 < n) →
  gather (f <$> seq 0 n) (parents ps)
  = Ok ((λ k, f (parent_slot n (default 0%Z (ps !! k)))) <$> seq 0 (length ps)).
Proof.
  intros Hps Hne.
  assert (length (f <$> seq 0 n) = n) as Hlen by (by rewrite length_fmap, length_seq).
  rewrite (gather_parents _ ps (f 0)); [|by rewrite Hlen|by rewrite Hlen].
  rewrite Hlen. f_equal. apply tabulate_ext. intros k Hk.
  destruct (lookup_lt_is_Some_2 ps k Hk) as [p Hp]. rewrite Hp. simpl.
  pose proof (Forall_lookup_1 _ _ _ _ Hps Hp) as Hrange. simpl in Hrange.
  assert (0 < n) as Hn by (apply Hne; by intros ->).
  rewrite list_lookup_fmap, lookup_seq_lt; [done|].
  unfold parent_slot. destruct (Z.eqb_spec p 0); lia.
Qed.

Lemma where_positive_tabulate (ps : list Z) (f : nat → F) :
  where_positive ps (f <$> seq 0 (length ps))
  = Ok ((λ k, if (0 <? default 0%Z (ps !! k))%Z then f k else of_int 0)
        <$> seq 0 (length ps)).
Proof.
  unfold where_positive. rewrite length_fmap, length_seq, Nat.eqb_refl. f_equal.
  rewrite (tabulate_Z ps) at 1. by rewrite zip_with_fmap_seq.
Qed.

Lemma where_gt_zero_tabulate (w f : nat → F) (n : nat) :
  where_gt_zero (w <$> seq 0 n) (f <$> seq 0 n)
  = Ok ((λ k, if fgt (w k) (of_int 0) then f k else of_int 0) <$> seq 0 n).
Proof.
  unfold where_gt_zero. rewrite !length_fmap, !length_seq, Nat.eqb_refl.
  by rewrite zip_with_fmap_seq.
Qed.
End VectorFacts.

Section DrpFacts.
Context {F : Type} `{Number F}.
Variables sires dams : list Z.
Variable avg_RELs : tensor3 F.
Variable avg_heritabilities : matrix F.
Variable EBVs : tensor4 F.
Variables L T n dims : nat.
Hypothesis Hin : drp_inputs sires dams avg_RELs avg_heritabilities EBVs L T n dims.

Local Abbreviation terms :=
  (deregression sires dams avg_RELs avg_heritabilities EBVs n dims).

(** The values [np.where(wi > 0.0, ., 0.0)] selects for every animal. *)
Lemma compute_DRPs_result (lactation trait : Z) (st : deregressed F) :
  deregressed_allocated L T n st →
  (0 ≤ lactation < Z.of_nat L)%Z → (0 ≤ trait < Z.of_nat T)%Z →
  let l := Z.to_nat lactation in
  let t := Z.to_nat trait in
  let keep (f : garrick_terms F → F) (a : nat) :=
    if fgt (g_wi (terms l t a)) (of_int 0) then f (terms l t a) else of_int 0 in
  compute_DRPs sires dams avg_RELs avg_heritabilities EBVs lactation trait st
  = Ok {| DRPs := store2 l t (keep g_DRP <$> seq 0 n) (DRPs st);
          DRP_RELs := store2 l t (keep g_r2i <$> seq 0 n) (DRP_RELs st);
          DRP_weights := store2 l t (keep g_wi <$> seq 0 n) (DRP_weights st) |}.
Proof.
  intros (HsD & HsR & HsW) Hl Ht. cbv zeta.
  destruct Hin as (Hdims & HsRel & Hsh2 & HsE & Hls & Hld & Hsires & Hdams).
  unfold compute_DRPs.
  (* the animal's own average reliabilities *)
  destruct (shape3_row L T n avg_RELs (Z.to_nat lactation) (Z.to_nat trait) HsRel)
    as (rel & Hrel & Hlrel); [lia|lia|].
  rewrite (getrow3_nonneg avg_RELs _ _ rel) by (lia || done). simpl.
  assert (rel = (λ a, entry3 avg_RELs (Z.to_nat lactation) (Z.to_nat trait) a)
                <$> seq 0 n) as ->.
  { rewrite (tabulate_entries rel) at 1. rewrite Hlrel.
    apply tabulate_ext. intros a _. unfold entry3. by rewrite cell3_row, Hrel. }
  assert (sires ≠ [] → 0 < n) as Hns by (destruct sires; [done|simpl in *; lia]).
  assert (dams ≠ [] → 0 < n) as Hnd by (destruct dams; [done|simpl in *; lia]).
  (* the parents' average reliabilities *)
  rewrite (gather_parents_tabulate _ n sires) by done. simpl.
  rewrite (gather_parents_tabulate _ n dams) by done. simpl.
  rewrite !where_positive_tabulate. simpl. rewrite Hls, Hld.
  repeat first [rewrite broadcast_tabulate | rewrite elementwise_tabulate
               | progress simpl].
  (* the average heritability *)
  rewrite (getitem2_nonneg avg_heritabilities _ _
             (entry2 avg_heritabilities (Z.to_nat lactation) (Z.to_nat trait)));
    [|lia|lia|apply (shape2_cell L T); (done || lia)].
  repeat first [rewrite broadcast_tabulate | rewrite elementwise_tabulate
               | progress simpl].
  (* the breeding values at the last DIM offset *)
  destruct HsE as [HlE HallE].
  destruct (lookup_lt_is_Some_2 EBVs (Z.to_nat lactation)) as [ebv_t Hebv_t]; [lia|].
  pose proof (Forall_lookup_1 _ _ _ _ HallE Hebv_t) as [Hlt Hallt].
  destruct (lookup_lt_is_Some_2 ebv_t (Z.to_nat trait)) as [ebv Hebv]; [lia|].
  pose proof (Forall_lookup_1 _ _ _ _ Hallt Hebv) as [Hlebv Hallebv].
  rewrite (np_get_nonneg EBVs lactation ebv_t) by (lia || done). simpl.
  rewrite (np_get_nonneg ebv_t trait ebv) by (lia || done). simpl.
  assert (∀ a x, entry4 EBVs (Z.to_nat lactation) (Z.to_nat trait) a x
                 = default (of_int 0) (ebv !! a ≫= (.!! x))) as Hebv_e.
  { intros a x. unfold entry4, cell4, cell3, cell2. rewrite Hebv_t. simpl.
    by rewrite Hebv. }
  rewrite (map_result_Ok _ (λ curve : list F, entry1 curve (dims - 1))).
  2: { intros curve Hc. pose proof (proj1 (Forall_forall _ ebv) Hallebv curve Hc) as Hlc.
       unfold shape1 in Hlc. apply np_get_negative; [lia|].
       replace (Z.to_nat (-1 + Z.of_nat (length curve))) with (dims - 1) by lia.
       apply lookup_entry1. lia. }
  simpl.
  assert ((λ curve : list F, entry1 curve (dims - 1)) <$> ebv
          = (λ a, entry4 EBVs (Z.to_nat lactation) (Z.to_nat trait) a (dims - 1))
            <$> seq 0 n) as ->.
  { apply list_eq. intros a. rewrite !list_lookup_fmap.
    destruct (decide (a < n)) as [Ha|Ha].
    - rewrite lookup_seq_lt by done. simpl.
      destruct (lookup_lt_is_Some_2 ebv a) as [curve Hcurve]; [lia|].
      rewrite Hcurve. simpl. f_equal. rewrite Hebv_e, Hcurve. done.
    - rewrite lookup_seq_ge by lia. simpl.
      by rewrite (lookup_ge_None_2 ebv a) by lia. }
  rewrite (gather_parents_tabulate _ n sires) by done. simpl.
  rewrite (gather_parents_tabulate _ n dams) by done. simpl.
  rewrite !where_positive_tabulate. simpl. rewrite Hls, Hld.
  repeat first [rewrite broadcast_tabulate | rewrite elementwise_tabulate
               | rewrite where_gt_zero_tabulate | progress simpl].
  rewrite !(setrow3_nonneg L T n)
    by (done || lia || by rewrite length_fmap, length_seq).
  simpl. reflexivity.
Qed.
End DrpFacts.

(** C6.  For every (lactation, trait) and every animal, [__compute_DRPs__]
    raises nothing; where the animal's weight [wi] is not greater than zero
    ([wi > 0.0] is false) the stored DRP, DRP reliability and DRP weight are
    all zero, and where [wi > 0] they are [DRP = y1 / Zli_Zi], [r2i] and [wi]
    of Garrick's formulas, with
    [wi = (1 - h2) / ((0.5 + (1 - r2i) / r2i) · h2)]. *)
Theorem compute_DRPs_policy {F : Type} `{Number F} (sires dams : list Z)
    (avg_RELs : tensor3 F) (avg_heritabilities : matrix F) (EBVs : tensor4 F)
    (L T n dims : nat) (lactation trait : Z) (st : deregressed F) :
  drp_inputs sires dams avg_RELs avg_heritabilities EBVs L T n dims →
  deregressed_allocated L T n st →
  (0 ≤ lactation < Z.of_nat L)%Z → (0 ≤ trait < Z.of_nat T)%Z →
  ∃ out,
    compute_DRPs sires dams avg_RELs avg_heritabilities EBVs lactation trait st
    = Ok out ∧
    ∀ a : nat, a < n →
      let l := Z.to_nat lactation in
      let t := Z.to_nat trait in
      let g := deregression sires dams avg_RELs avg_heritabilities EBVs
                 n dims l t a in
      let h2 := entry2 avg_heritabilities l t in
      g_DRP g = fdiv (g_y1 g) (g_Zli_Zi g) ∧
      g_wi g = fdiv (fsub (of_int 1) h2)
                 (fmul (fadd half (fdiv (fsub (of_int 1) (g_r2i g)) (g_r2i g))) h2) ∧
      (fgt (g_wi g) (of_int 0) = false →
         cell3 (DRPs out) l t a = Some (of_int 0) ∧
         cell3 (DRP_RELs out) l t a = Some (of_int 0) ∧
         cell3 (DRP_weights out) l t a = Some (of_int 0)) ∧
      (fgt (g_wi g) (of_int 0) = true →
         cell3 (DRPs out) l t a = Some (g_DRP g) ∧
         cell3 (DRP_RELs out) l t a = Some (g_r2i g) ∧
         cell3 (DRP_weights out) l t a = Some (g_wi g)).
Proof.
  intros Hin Hal Hl Ht.
  pose proof (compute_DRPs_result sires dams avg_RELs avg_heritabilities EBVs
                L T n dims Hin lactation trait st Hal Hl Ht) as Hrun.
  cbv zeta in Hrun. rewrite Hrun. eexists. split; [done|].
  intros a Ha. cbv zeta. simpl.
  destruct Hal as (HsD & HsR & HsW).
  split; [done|]. split; [done|].
  rewrite !cell3_row.
  rewrite !(cell2_store2_eq L T) by ((by eapply shape3_rows) || lia). simpl.
  rewrite !list_lookup_fmap, !lookup_seq_lt by done. simpl.
  split; intros ->; done.
Qed.

Lemma drp_sample_inputs :
  drp_inputs drp_sires drp_dams drp_avg_RELs drp_avg_heritabilities drp_EBVs
    1 1 2 2.
Proof.
  unfold drp_inputs. simpl.
  repeat split; try lia; repeat constructor; lia.
Defined.

Lemma drp_state_allocated : deregressed_allocated 1 1 2 drp_state.
Proof. repeat split; repeat constructor. Defined.

(** On the sample, the first animal has [wi = 0] and is zeroed; the second
    has [wi > 0] and keeps its deregressed proof. *)
Lemma compute_DRPs_policy_witness :
  ∃ out,
    compute_DRPs drp_sires drp_dams drp_avg_RELs drp_avg_heritabilities drp_EBVs
      0 0 drp_state = Ok out ∧
    cell3 (DRPs out) 0 0 0 = Some (float_of_int 0) ∧
    cell3 (DRP_weights out) 0 0 0 = Some (float_of_int 0) ∧
    cell3 (DRPs out) 0 0 1
    = Some (g_DRP (deregression drp_sires drp_dams drp_avg_RELs
                     drp_avg_heritabilities drp_EBVs 2 2 0 0 1)).
Proof.
  destruct (compute_DRPs_policy drp_sires drp_dams drp_avg_RELs
              drp_avg_heritabilities drp_EBVs 1 1 2 2 0 0 drp_state
              drp_sample_inputs drp_state_allocated)
    as (out & Hout & Hcells); [lia|lia|].
  exists out. split; [exact Hout|].
  destruct (Hcells 0) as (_ & _ & Hzero & _); [lia|].
  destruct (Hcells 1) as (_ & _ & _ & Hkeep); [lia|].
  destruct Hzero as (HD0 & _ & HW0); [vm_compute; reflexivity|].
  destruct Hkeep as (HD1 & _); [vm_compute; reflexivity|].
  split; [exact HD0|]. split; [exact HW0|exact HD1].
Defined.

(** Over exact arithmetic, [wi > 0.0] is false exactly when [wi <= 0]. *)
Lemma compute_DRPs_policy_exact (sires dams : list Z)
    (avg_RELs : tensor3 R) (avg_heritabilities : matrix R) (EBVs : tensor4 R)
    (L T n dims : nat) (lactation trait : Z) (st : deregressed R) :
  drp_inputs sires dams avg_RELs avg_heritabilities EBVs L T n dims →
  deregressed_allocated L T n st →
  (0 ≤ lactation < Z.of_nat L)%Z → (0 ≤ trait < Z.of_nat T)%Z →
  ∃ out,
    compute_DRPs sires dams avg_RELs avg_heritabilities EBVs lactation trait st
    = Ok out ∧
    ∀ a : nat, a < n →
      let l := Z.to_nat lactation in
      let t := Z.to_nat trait in
      let g := deregression sires dams avg_RELs avg_heritabilities EBVs
                 n dims l t a in
      ((g_wi g <= 0)%R →
         cell3 (DRPs out) l t a = Some 0%R ∧
         cell3 (DRP_RELs out) l t a = Some 0%R ∧
         cell3 (DRP_weights out) l t a = Some 0%R) ∧
      ((0 < g_wi g)%R →
         cell3 (DRPs out) l t a = Some (g_y1 g / g_Zli_Zi g)%R ∧
         cell3 (DRP_RELs out) l t a = Some (g_r2i g) ∧
         cell3 (DRP_weights out) l t a = Some (g_wi g)).
Proof.
  intros Hin Hal Hl Ht.
  pose proof (compute_DRPs_result sires dams avg_RELs avg_heritabilities EBVs
                L T n dims Hin lactation trait st Hal Hl Ht) as Hrun.
  cbv zeta in Hrun. rewrite Hrun. eexists. split; [done|].
  intros a Ha. cbv zeta. simpl.
  destruct Hal as (HsD & HsR & HsW).
  rewrite !cell3_row.
  rewrite !(cell2_store2_eq L T) by ((by eapply shape3_rows) || lia). simpl.
  rewrite !list_lookup_fmap, !lookup_seq_lt by done. simpl.
  destruct (Rlt_dec 0 _) as [Hpos|Hneg]; split; intros Hw; try done; lra.
Qed.

(** * Further properties of the post-processing *)

(** ** Nested loops *)

Lemma for_each_range2 {St} (I : Z → Z → St → Prop) (n m : Z)
    (body : Z → Z → St → result St) (s : St) :
  (0 ≤ n)%Z → (0 ≤ m)%Z →
  I 0%Z 0%Z s →
  (∀ i j s, (0 ≤ i < n)%Z → (0 ≤ j < m)%Z → I i j s →
     ∃ s', body i j s = Ok s' ∧ I i (j + 1)%Z s') →
  (∀ i s, (0 ≤ i < n)%Z → I i m s → I (i + 1)%Z 0%Z s) →
  ∃ s', for_each (range n) (λ i s, for_each (range m) (body i) s) s = Ok s'
        ∧ I n 0%Z s'.
Proof.
  intros Hn Hm H0 Hstep Hnext.
  apply (for_each_range (λ i, I i 0%Z)); [done|done|].
  intros i s0 Hi HI.
  destruct (for_each_range (λ j, I i j) m (body i) s0) as (s1 & Hs1 & HI1);
    [done|done| |].
  - intros j s1 Hj. by apply Hstep.
  - exists s1. split; [done|]. by apply Hnext.
Qed.

Lemma visited_next (i j : Z) (l t : nat) :
  visited i (j + 1) l t ↔ visited i j l t ∨ (Z.of_nat l = i ∧ Z.of_nat t = j).
Proof. unfold visited. lia. Qed.

Lemma visited_row (i m : Z) (l t : nat) :
  (Z.of_nat t < m)%Z → visited (i + 1) 0 l t → visited i m l t.
Proof. unfold visited. lia. Qed.

(** ** Lactation curves *)

Section CurveFacts.
Context {F : Type} `{Number F}.

Lemma matvec_spec n k (a : matrix F) (v : list F) :
  shape2 n k a → length v = k →
  matvec a v
  = Ok ((λ i, sigma k (λ c, fmul (entry2 a i c) (entry1 v c))) <$> seq 0 n).
Proof.
  intros [Hn Ha] Hv. unfold matvec.
  assert (forallb (λ r, length r =? length v) a = true) as ->.
  { apply forallb_forall. intros r Hr. apply Nat.eqb_eq.
    rewrite Forall_forall in Ha. rewrite Hv. apply Ha.
    by apply list_elem_of_In. }
  f_equal. apply list_eq. intros i.
  rewrite !list_lookup_fmap.
  destruct (decide (i < n)) as [Hi|Hi].
  - rewrite lookup_seq_lt by done. simpl.
    destruct (lookup_lt_is_Some_2 a i) as [r Hr]; [lia|].
    rewrite Hr. simpl. f_equal.
    rewrite (dot_sigma r v k); [|by eapply Forall_lookup_1 in Ha|done].
    apply sigma_ext. intros c Hc. f_equal.
    unfold entry2, cell2, entry1. by rewrite Hr.
  - rewrite lookup_seq_ge by lia. rewrite lookup_ge_None_2 by lia. done.
Qed.

Lemma take_shape2 n m k (a : matrix F) :
  shape2 n m a → k ≤ m → shape2 n k (take k <$> a).
Proof.
  intros [Hn Ha] Hk. split; [by rewrite length_fmap|].
  apply Forall_fmap. eapply Forall_impl; [done|].
  intros r Hr. unfold shape1 in *. simpl. rewrite length_take. lia.
Qed.

Lemma take_entry2 k (a : matrix F) (i c : nat) :
  c < k → entry2 (take k <$> a) i c = entry2 a i c.
Proof.
  intros Hc. unfold entry2, cell2. rewrite list_lookup_fmap.
  destruct (a !! i) as [r|]; [|done]. simpl. by rewrite lookup_take_lt.
Qed.

(** [sums[:, range(n + 1)] @ c] for a coefficient vector of length [n + 1] *)
Lemma curve_row (D C : nat) (sums : matrix F) (n : Z) (c : list F) :
  shape2 D C sums → (0 ≤ n + 1 ≤ Z.of_nat C)%Z → length c = Z.to_nat (n + 1) →
  take_columns sums (range (n + 1)) ≫= (λ columns, matvec columns c)
  = Ok ((λ d, curve_value sums (Z.to_nat (n + 1)) (entry1 c) d) <$> seq 0 D).
Proof.
  intros Hs Hn Hc.
  rewrite (take_columns_range D C) by (done || lia). simpl.
  rewrite (matvec_spec D (Z.to_nat (n + 1))); [|apply (take_shape2 D C); [done|lia]|done].
  f_equal. apply list_fmap_ext. intros _ d _. unfold curve_value.
  apply sigma_ext. intros k Hk. by rewrite take_entry2.
Qed.
End CurveFacts.

Section FixedCurveFacts.
Context {F : Type} `{Number F}.
Variable ly : layout.
Variable sums : matrix F.
Variable coefficients : tensor3 F.
Variable C : nat.

Local Abbreviation L := (Z.to_nat (lactation_dim ly)).
Local Abbreviation T := (Z.to_nat (number_of_traits ly)).
Local Abbreviation D := (Z.to_nat (dim_max ly - dim_min ly + 1)).
Local Abbreviation n := (Z.to_nat (fixed_degree ly + 1)).
Local Abbreviation fixed_row :=
  (λ l t : nat, (λ d, curve_value sums n (entry3 coefficients l t) d) <$> seq 0 D).

Hypothesis Hsums : shape2 D C sums.
Hypothesis Hdeg : (0 ≤ fixed_degree ly + 1 ≤ Z.of_nat C)%Z.
Hypothesis Hcoef : shape3 L T n coefficients.

Lemma fixed_curve_step (i j : Z) (values : tensor3 F) :
  shape3 L T D values →
  (0 ≤ i < lactation_dim ly)%Z → (0 ≤ j < number_of_traits ly)%Z →
  (columns ← take_columns sums (range (fixed_degree ly + 1));
   c ← getrow3 coefficients i j;
   row ← matvec columns c;
   setrow3 values i j row)
  = Ok (store2 (Z.to_nat i) (Z.to_nat j) (fixed_row (Z.to_nat i) (Z.to_nat j)) values).
Proof.
  intros Hv Hi Hj.
  destruct (shape3_row L T n coefficients (Z.to_nat i) (Z.to_nat j) Hcoef)
    as (c & Hc & Hlc); [lia|lia|].
  pose proof (curve_row D C sums (fixed_degree ly) c Hsums Hdeg Hlc) as Hrow.
  destruct (take_columns sums (range (fixed_degree ly + 1))) as [columns|e];
    [|done].
  simpl in *. rewrite (getrow3_nonneg coefficients i j c) by (lia || done).
  simpl. rewrite Hrow. simpl.
  rewrite (setrow3_nonneg L T D) by (done || lia || by rewrite length_fmap, length_seq).
  do 2 f_equal. apply list_fmap_ext. intros _ d _. unfold curve_value.
  apply sigma_ext. intros k _. f_equal.
  unfold entry3, entry1. by rewrite cell3_row, Hc.
Qed.

Lemma fixed_curve_rows (values : tensor3 F) :
  (0 ≤ lactation_dim ly)%Z → (0 ≤ number_of_traits ly)%Z →
  shape3 L T D values →
  ∃ out,
    compute_fixed_curve_values ly sums coefficients values = Ok out ∧
    shape3 L T D out ∧
    ∀ l t : nat, l < L → t < T → cell2 out l t = Some (fixed_row l t).
Proof.
  intros HL HT Hv. unfold compute_fixed_curve_values.
  destruct (for_each_range2
    (λ i j (st : tensor3 F),
       shape3 L T D st ∧
       ∀ l t : nat, l < L → t < T → visited i j l t →
         cell2 st l t = Some (fixed_row l t))
    (lactation_dim ly) (number_of_traits ly)
    (λ i j values,
       columns ← take_columns sums (range (fixed_degree ly + 1));
       c ← getrow3 coefficients i j;
       row ← matvec columns c;
       setrow3 values i j row)
    values) as (out & Hout & Hshape & Hrows); [done|done| | | |].
  - split; [done|]. intros l t _ _ Hvis. unfold visited in Hvis. lia.
  - intros i j st Hi Hj [Hst Hdone].
    rewrite fixed_curve_step by done. eexists. split; [done|]. split.
    + apply store2_shape3; [done|]. by rewrite length_fmap, length_seq.
    + intros l t Hl Ht Hvis. apply visited_next in Hvis as [Hvis|[Hli Htj]].
      * rewrite cell2_store2_ne; [by apply Hdone|].
        intros [= -> ->]. unfold visited in Hvis. lia.
      * replace (Z.to_nat i) with l by lia. replace (Z.to_nat j) with t by lia.
        apply (cell2_store2_eq L T); [by eapply shape3_rows|done|done].
  - intros i st Hi [Hst Hdone]. split; [done|].
    intros l t Hl Ht Hvis. apply Hdone; [done|done|].
    apply visited_row; [lia|done].
  - exists out. split; [done|]. split; [done|].
    intros l t Hl Ht. apply Hrows; [done|done|unfold visited; lia].
Qed.

(** X1.  [__compute_fixed_curve_values__] raises nothing on fields of the
    allocated shapes, and the fixed curve of every (lactation, trait) at the
    DIM offset [d] is the sum over [k <= fixed_degree] of
    [legendre_partial_sums[d, k] · fixed_curve_coefficients[l, t, k]]. *)
Theorem compute_fixed_curve_values_spec (values : tensor3 F) :
  (0 ≤ lactation_dim ly)%Z → (0 ≤ number_of_traits ly)%Z →
  shape3 L T D values →
  ∃ out,
    compute_fixed_curve_values ly sums coefficients values = Ok out ∧
    shape3 L T D out ∧
    ∀ l t d : nat, l < L → t < T → d < D →
      cell3 out l t d
      = Some (sigma n (λ k, fmul (entry2 sums d k) (entry3 coefficients l t k))).
Proof.
  intros HL HT Hv.
  destruct (fixed_curve_rows values HL HT Hv) as (out & Hout & Hshape & Hrows).
  exists out. split; [done|]. split; [done|].
  intros l t d Hl Ht Hd. rewrite cell3_row, Hrows by done. simpl.
  by rewrite list_lookup_fmap, lookup_seq_lt by done.
Qed.
End FixedCurveFacts.

Lemma compute_fixed_curve_values_spec_witness :
  ∃ out,
    compute_fixed_curve_values sample_layout sample_sums
      sample_fixed_coefficients sample_fixed_values = Ok out ∧
    cell3 out 0 1 1
    = Some (sigma 1 (λ k, fmul (entry2 sample_sums 1 k)
                            (entry3 sample_fixed_coefficients 0 1 k))).
Proof.
  destruct (compute_fixed_curve_values_spec sample_layout sample_sums
              sample_fixed_coefficients 2) with (values := sample_fixed_values)
    as (out & Hout & _ & Hcells).
  - repeat constructor.
  - simpl. lia.
  - repeat constructor.
  - simpl. lia.
  - simpl. lia.
  - repeat constructor.
  - exists out. split; [exact Hout|]. apply (Hcells 0 1 1); simpl; lia.
Defined.

Lemma for_each_range3 {St} (I : Z → Z → Z → St → Prop) (n m p : Z)
    (body : Z → Z → Z → St → result St) (s : St) :
  (0 ≤ n)%Z → (0 ≤ m)%Z → (0 ≤ p)%Z →
  I 0%Z 0%Z 0%Z s →
  (∀ i j k s, (0 ≤ i < n)%Z → (0 ≤ j < m)%Z → (0 ≤ k < p)%Z → I i j k s →
     ∃ s', body i j k s = Ok s' ∧ I i j (k + 1)%Z s') →
  (∀ i j s, (0 ≤ i < n)%Z → (0 ≤ j < m)%Z → I i j p s → I i (j + 1)%Z 0%Z s) →
  (∀ i s, (0 ≤ i < n)%Z → I i m 0%Z s → I (i + 1)%Z 0%Z 0%Z s) →
  ∃ s',
    for_each (range n)
      (λ i s, for_each (range m) (λ j s, for_each (range p) (body i j) s) s) s
    = Ok s' ∧ I n 0%Z 0%Z s'.
Proof.
  intros Hn Hm Hp H0 Hstep Hnext Hnext'.
  apply (for_each_range (λ i, I i 0%Z 0%Z)); [done|done|].
  intros i s0 Hi HI.
  destruct (for_each_range2 (λ j k, I i j k) m p (body i) s0)
    as (s1 & Hs1 & HI1); [done|done|done| | |].
  - intros j k s1 Hj Hk. by apply Hstep.
  - intros j s1 Hj. by apply Hnext.
  - exists s1. split; [done|]. by apply Hnext'.
Qed.

Lemma visited3_next (i j k : Z) (l t a : nat) :
  visited3 i j (k + 1) l t a
  ↔ visited3 i j k l t a ∨ (Z.of_nat l = i ∧ Z.of_nat t = j ∧ Z.of_nat a = k).
Proof. unfold visited3, visited. lia. Qed.

Lemma visited3_row (i j p : Z) (l t a : nat) :
  (Z.of_nat a < p)%Z → visited3 i (j + 1) 0 l t a → visited3 i j p l t a.
Proof. unfold visited3, visited. lia. Qed.

Lemma visited3_plane (i m : Z) (l t a : nat) :
  (Z.of_nat t < m)%Z → visited3 (i + 1) 0 0 l t a → visited3 i m 0 l t a.
Proof. unfold visited3, visited. lia. Qed.

Section RandomCurveFacts.
Context {F : Type} `{Number F}.
Variable ly : layout.
Variable sums : matrix F.
Variables additive permanent : tensor4 F.
Variable C : nat.

Local Abbreviation L := (Z.to_nat (lactation_dim ly)).
Local Abbreviation T := (Z.to_nat (number_of_traits ly)).
Local Abbreviation N := (Z.to_nat (animal_count ly)).
Local Abbreviation D := (Z.to_nat (dim_max ly - dim_min ly + 1)).
Local Abbreviation K := (Z.to_nat (random_degree ly + 1)).
Local Abbreviation random_row :=
  (λ (coefficients : tensor4 F) (l t a : nat),
     (λ d, curve_value sums K (entry4 coefficients l t a) d) <$> seq 0 D).

Hypothesis Hsums : shape2 D C sums.
Hypothesis Hdeg : (0 ≤ random_degree ly + 1 ≤ Z.of_nat C)%Z.
Hypothesis Hadd : shape4 L T N K additive.
Hypothesis Hperm : shape4 L T N K permanent.

Lemma random_curve_row (coefficients : tensor4 F) (i j k : Z) :
  shape4 L T N K coefficients →
  (0 ≤ i < lactation_dim ly)%Z → (0 ≤ j < number_of_traits ly)%Z →
  (0 ≤ k < animal_count ly)%Z →
  (columns ← take_columns sums (range (random_degree ly + 1));
   c ← getrow4 coefficients i j k;
   matvec columns c)
  = Ok (random_row coefficients (Z.to_nat i) (Z.to_nat j) (Z.to_nat k)).
Proof.
  intros Hco Hi Hj Hk.
  destruct (shape4_row L T N K coefficients (Z.to_nat i) (Z.to_nat j) (Z.to_nat k) Hco)
    as (c & Hc & Hlc); [lia|lia|lia|].
  pose proof (curve_row D C sums (random_degree ly) c Hsums Hdeg Hlc) as Hrow.
  destruct (take_columns sums (range (random_degree ly + 1))) as [columns|e];
    [|done].
  simpl in *. rewrite (getrow4_nonneg coefficients i j k c) by (lia || done).
  simpl. rewrite Hrow. f_equal. apply list_fmap_ext. intros _ d _.
  unfold curve_value. apply sigma_ext. intros c' _. f_equal.
  unfold entry4, entry1. by rewrite cell4_row, Hc.
Qed.

Lemma random_curve_rows (st : random_curves F) :
  (0 ≤ lactation_dim ly)%Z → (0 ≤ number_of_traits ly)%Z →
  (0 ≤ animal_count ly)%Z →
  shape4 L T N D (EBVs st) → shape4 L T N D (PERMs st) →
  ∃ out,
    compute_random_curves_values ly sums additive permanent st = Ok out ∧
    shape4 L T N D (EBVs out) ∧ shape4 L T N D (PERMs out) ∧
    ∀ l t a : nat, l < L → t < T → a < N →
      cell3 (EBVs out) l t a = Some (random_row additive l t a) ∧
      cell3 (PERMs out) l t a = Some (random_row permanent l t a).
Proof.
  intros HL HT HN HE HP. unfold compute_random_curves_values.
  destruct (for_each_range3
    (λ i j k (st : random_curves F),
       shape4 L T N D (EBVs st) ∧ shape4 L T N D (PERMs st) ∧
       ∀ l t a : nat, l < L → t < T → a < N → visited3 i j k l t a →
         cell3 (EBVs st) l t a = Some (random_row additive l t a) ∧
         cell3 (PERMs st) l t a = Some (random_row permanent l t a))
    (lactation_dim ly) (number_of_traits ly) (animal_count ly)
    (λ i j k st,
       columns ← take_columns sums (range (random_degree ly + 1));
       c ← getrow4 additive i j k;
       ebv ← matvec columns c;
       EBVs' ← setrow4 (EBVs st) i j k ebv;
       columns' ← take_columns sums (range (random_degree ly + 1));
       c' ← getrow4 permanent i j k;
       perm ← matvec columns' c';
       PERMs' ← setrow4 (PERMs st) i j k perm;
       Ok {| EBVs := EBVs'; PERMs := PERMs' |})
    st) as (out & Hout & HsE & HsP & Hrows); [done|done|done| | | | |].
  - split; [done|]. split; [done|]. intros l t a _ _ _ Hvis.
    unfold visited3, visited in Hvis. lia.
  - intros i j k s Hi Hj Hk (HsE & HsP & Hdone).
    pose proof (random_curve_row additive i j k Hadd Hi Hj Hk) as He.
    pose proof (random_curve_row permanent i j k Hperm Hi Hj Hk) as Hp.
    destruct (take_columns sums (range (random_degree ly + 1))) as [columns|e];
      [|done].
    simpl in *.
    destruct (getrow4 additive i j k) as [c|e]; [|done]. simpl in *.
    rewrite He. simpl.
    rewrite (setrow4_nonneg L T N D)
      by (done || lia || by rewrite length_fmap, length_seq).
    simpl.
    destruct (getrow4 permanent i j k) as [c'|e]; [|done]. simpl in *.
    rewrite Hp. simpl.
    rewrite (setrow4_nonneg L T N D)
      by (done || lia || by rewrite length_fmap, length_seq).
    simpl. eexists. split; [done|]. simpl.
    split; [apply store3_shape4; [done|by rewrite length_fmap, length_seq]|].
    split; [apply store3_shape4; [done|by rewrite length_fmap, length_seq]|].
    intros l t a Hl Ht Ha Hvis.
    apply visited3_next in Hvis as [Hvis|(Hli & Htj & Hak)].
    + rewrite !cell3_store3_ne; [by apply Hdone| |].
      all: intros [= -> -> ->]; unfold visited3, visited in Hvis; lia.
    + replace (Z.to_nat i) with l by lia. replace (Z.to_nat j) with t by lia.
      replace (Z.to_nat k) with a by lia.
      by rewrite !(cell3_store3_eq L T N D).
  - intros i j s Hi Hj (HsE & HsP & Hdone). split; [done|]. split; [done|].
    intros l t a Hl Ht Ha Hvis. apply Hdone; [done..|].
    apply visited3_row; [lia|done].
  - intros i s Hi (HsE & HsP & Hdone). split; [done|]. split; [done|].
    intros l t a Hl Ht Ha Hvis. apply Hdone; [done..|].
    apply visited3_plane; [lia|done].
  - exists out. split; [done|]. split; [done|]. split; [done|].
    intros l t a Hl Ht Ha. apply Hrows; [done..|unfold visited3; lia].
Qed.

(** X2.  [__compute_random_curves_values__] raises nothing on fields of the
    allocated shapes; the breeding value of animal [a] at the DIM offset [d]
    is the sum over [k <= random_degree] of
    [legendre_partial_sums[d, k] · additive_coefficients[l, t, a, k]], and
    the permanent effect is the same sum with [permanent_coefficients]. *)
Theorem compute_random_curves_values_spec (st : random_curves F) :
  (0 ≤ lactation_dim ly)%Z → (0 ≤ number_of_traits ly)%Z →
  (0 ≤ animal_count ly)%Z →
  shape4 L T N D (EBVs st) → shape4 L T N D (PERMs st) →
  ∃ out,
    compute_random_curves_values ly sums additive permanent st = Ok out ∧
    shape4 L T N D (EBVs out) ∧ shape4 L T N D (PERMs out) ∧
    ∀ l t a d : nat, l < L → t < T → a < N → d < D →
      cell4 (EBVs out) l t a d
      = Some (sigma K (λ k, fmul (entry2 sums d k) (entry4 additive l t a k))) ∧
      cell4 (PERMs out) l t a d
      = Some (sigma K (λ k, fmul (entry2 sums d k) (entry4 permanent l t a k))).
Proof.
  intros HL HT HN HE HP.
  destruct (random_curve_rows st HL HT HN HE HP)
    as (out & Hout & HsE & HsP & Hrows).
  exists out. split; [done|]. split; [done|]. split; [done|].
  intros l t a d Hl Ht Ha Hd. rewrite !cell4_row.
  destruct (Hrows l t a) as [-> ->]; [done..|].
  simpl. by rewrite !list_lookup_fmap, !lookup_seq_lt by done.
Qed.
End RandomCurveFacts.

Lemma compute_random_curves_values_spec_witness :
  ∃ out,
    compute_random_curves_values sample_layout sample_sums sample_additive
      sample_permanent sample_random_curves = Ok out ∧
    cell4 (EBVs out) 0 1 0 1
    = Some (sigma 2 (λ k, fmul (entry2 sample_sums 1 k)
                            (entry4 sample_additive 0 1 0 k))).
Proof.
  destruct (compute_random_curves_values_spec sample_layout sample_sums
              sample_additive sample_permanent 2)
    with (st := sample_random_curves)
    as (out & Hout & _ & _ & Hcells).
  - repeat constructor.
  - simpl. lia.
  - repeat constructor.
  - repeat constructor.
  - simpl. lia.
  - simpl. lia.
  - simpl. lia.
  - repeat constructor.
  - repeat constructor.
  - exists out. split; [exact Hout|]. apply (Hcells 0 1 0 1); simpl; lia.
Defined.

(** ** Finite sums over the real numbers *)

Lemma sigma_S {F} `{Number F} (n : nat) (f : nat → F) :
  sigma (S n) f = fadd (sigma n f) (f n).
Proof.
  unfold sigma, sum_list. rewrite seq_S, fmap_app, foldl_app. done.
Qed.

Lemma sigma_scale (n : nat) (f : nat → R) (c : R) :
  sigma n (λ k, f k * c)%R = (sigma n f * c)%R.
Proof.
  induction n as [|n IH].
  - unfold sigma, sum_list. simpl. lra.
  - rewrite !sigma_S, IH. simpl. lra.
Qed.

Lemma sigma_plus (n : nat) (f g : nat → R) :
  sigma n (λ k, f k + g k)%R = (sigma n f + sigma n g)%R.
Proof.
  induction n as [|n IH].
  - unfold sigma, sum_list. simpl. lra.
  - rewrite !sigma_S, IH. simpl. lra.
Qed.

Lemma sigma_zero (n : nat) : sigma n (λ _, 0%R) = 0%R.
Proof.
  induction n as [|n IH]; [done|]. rewrite sigma_S, IH. simpl. lra.
Qed.

Lemma sigma_swap (n m : nat) (f : nat → nat → R) :
  sigma n (λ i, sigma m (λ j, f i j)) = sigma m (λ j, sigma n (λ i, f i j)).
Proof.
  induction n as [|n IH].
  - rewrite (sigma_ext m _ (λ _, 0%R)) by done. by rewrite sigma_zero.
  - rewrite sigma_S, IH. simpl. rewrite <- sigma_plus.
    apply sigma_ext. intros j _. by rewrite sigma_S.
Qed.

Lemma cumsum0_sigma n m (a : matrix R) (r k : nat) :
  shape2 n m a → r < n → k < m →
  entry2 (cumsum0 a) r k = sigma (S r) (λ r', entry2 a r' k).
Proof.
  intros Ha Hr Hk. unfold entry2 at 1.
  rewrite (cumsum0_lookup n m) by done. simpl.
  unfold sigma, sum_list. simpl. f_equal. lra.
Qed.

(** X3.  With the basis of [__init__], the breeding value that
    [__compute_random_curves_values__] stores at the DIM offset [d] is the
    sum, over the days [0..d] of the DIM range, of the random regression of
    the animal's additive coefficients at the day's grid point; likewise for
    the permanent effect.  Over exact arithmetic. *)
Theorem random_curves_accumulate (ly : layout) (additive permanent : tensor4 R)
    (st : random_curves R) :
  let L := Z.to_nat (lactation_dim ly) in
  let T := Z.to_nat (number_of_traits ly) in
  let N := Z.to_nat (animal_count ly) in
  let D := Z.to_nat (dim_max ly - dim_min ly + 1) in
  let K := Z.to_nat (random_degree ly + 1) in
  (dim_min ly ≤ dim_max ly)%Z → (0 ≤ random_degree ly)%Z →
  (0 ≤ lactation_dim ly)%Z → (0 ≤ number_of_traits ly)%Z →
  (0 ≤ animal_count ly)%Z →
  shape4 L T N K additive → shape4 L T N K permanent →
  shape4 L T N D (EBVs st) → shape4 L T N D (PERMs st) →
  ∃ b out,
    build_basis ly = Ok b ∧
    compute_random_curves_values ly (legendre_partial_sums b)
      additive permanent st = Ok out ∧
    ∀ l t a d : nat, l < L → t < T → a < N → d < D →
      cell4 (EBVs out) l t a d
      = Some (sigma (S d) (λ r,
                random_regression K (entry4 additive l t a)
                  (entry1 (scaled_dim_range b) r))) ∧
      cell4 (PERMs out) l t a d
      = Some (sigma (S d) (λ r,
                random_regression K (entry4 permanent l t a)
                  (entry1 (scaled_dim_range b) r))).
Proof.
  intros L T N D K Hdim Hrd HL HT HN Hadd Hperm HE HP.
  assert (0 ≤ degree ly)%Z as Hdeg by (unfold degree; lia).
  destruct (build_basis_spec (F:=R) ly Hdim Hdeg)
    as (b & Hb & Hgrid & Hshape & Hcells & _ & Hsums & _).
  set (C := Z.to_nat (degree ly + 1)) in *.
  assert (K ≤ C) as HKC by (unfold K, C, degree; lia).
  destruct (random_curve_rows ly (legendre_partial_sums b) additive permanent C)
    with (st := st) as (out & Hout & _ & _ & Hrows); try done.
  { rewrite Hsums. by apply cumsum0_shape. }
  { unfold C, degree. lia. }
  exists b, out. split; [done|]. split; [done|].
  assert (∀ (c : nat → R) (d : nat), d < D →
    curve_value (legendre_partial_sums b) K c d
    = sigma (S d) (λ r, random_regression K c (entry1 (scaled_dim_range b) r)))
    as Hcurve.
  { intros c d Hd. unfold curve_value, random_regression.
    rewrite sigma_swap. apply sigma_ext. intros k Hk.
    rewrite Hsums, (cumsum0_sigma D C) by (done || lia).
    simpl. rewrite <- sigma_scale. apply sigma_ext. intros r Hr.
    f_equal. unfold entry2. rewrite Hcells by lia.
    rewrite Hgrid.
    destruct (lookup_lt_is_Some_2 (scale_dim_range (F:=R) ly) r) as [x Hx].
    { rewrite length_scale_dim_range. lia. }
    unfold entry1. rewrite Hx. done. }
  intros l t a d Hl Ht Ha Hd. rewrite !cell4_row.
  destruct (Hrows l t a) as [-> ->]; [done..|]. simpl.
  rewrite !list_lookup_fmap, !lookup_seq_lt by done. simpl.
  by rewrite !Hcurve.
Qed.

Lemma random_curves_accumulate_witness :
  ∃ b out,
    build_basis minimal_layout = Ok b ∧
    compute_random_curves_values minimal_layout (legendre_partial_sums b)
      exact_additive exact_permanent exact_random_curves = Ok out ∧
    cell4 (EBVs out) 0 0 0 1
    = Some (sigma 2 (λ r,
              random_regression 1 (entry4 exact_additive 0 0 0)
                (entry1 (scaled_dim_range b) r))).
Proof.
  destruct (random_curves_accumulate minimal_layout exact_additive
              exact_permanent exact_random_curves)
    as (b & out & Hb & Hout & Hcells).
  - simpl. lia.
  - simpl. lia.
  - simpl. lia.
  - simpl. lia.
  - simpl. lia.
  - repeat constructor.
  - repeat constructor.
  - repeat constructor.
  - repeat constructor.
  - exists b, out. split; [exact Hb|]. split; [exact Hout|].
    apply (Hcells 0 0 0 1); simpl; lia.
Defined.

(** ** The loop over [__compute_DRPs__] *)

Section DrpLoopFacts.
Context {F : Type} `{Number F}.
Variable ly : layout.
Variables sires dams : list Z.
Variable avg_RELs : tensor3 F.
Variable avg_heritabilities : matrix F.
Variable EBVs : tensor4 F.
Variables n dims : nat.

Local Abbreviation L := (Z.to_nat (lactation_dim ly)).
Local Abbreviation T := (Z.to_nat (number_of_traits ly)).
Local Abbreviation terms :=
  (deregression sires dams avg_RELs avg_heritabilities EBVs n dims).
Local Abbreviation keep :=
  (λ (f : garrick_terms F → F) (l t a : nat),
     if fgt (g_wi (terms l t a)) (of_int 0) then f (terms l t a) else of_int 0).

Hypothesis Hin : drp_inputs sires dams avg_RELs avg_heritabilities EBVs L T n dims.

Lemma compute_all_DRPs_rows (st : deregressed F) :
  (0 ≤ lactation_dim ly)%Z → (0 ≤ number_of_traits ly)%Z →
  deregressed_allocated L T n st →
  ∃ out,
    compute_all_DRPs ly sires dams avg_RELs avg_heritabilities EBVs st = Ok out ∧
    deregressed_allocated L T n out ∧
    ∀ l t : nat, l < L → t < T →
      cell2 (DRPs out) l t = Some ((λ a, keep g_DRP l t a) <$> seq 0 n) ∧
      cell2 (DRP_RELs out) l t = Some ((λ a, keep g_r2i l t a) <$> seq 0 n) ∧
      cell2 (DRP_weights out) l t = Some ((λ a, keep g_wi l t a) <$> seq 0 n).
Proof.
  intros HL HT Hal. unfold compute_all_DRPs.
  destruct (for_each_range2
    (λ i j (st : deregressed F),
       deregressed_allocated L T n st ∧
       ∀ l t : nat, l < L → t < T → visited i j l t →
         cell2 (DRPs st) l t = Some ((λ a, keep g_DRP l t a) <$> seq 0 n) ∧
         cell2 (DRP_RELs st) l t = Some ((λ a, keep g_r2i l t a) <$> seq 0 n) ∧
         cell2 (DRP_weights st) l t = Some ((λ a, keep g_wi l t a) <$> seq 0 n))
    (lactation_dim ly) (number_of_traits ly)
    (compute_DRPs sires dams avg_RELs avg_heritabilities EBVs)
    st) as (out & Hout & Hshape & Hrows); [done|done| | | |].
  - split; [done|]. intros l t _ _ Hvis. unfold visited in Hvis. lia.
  - intros i j s Hi Hj [Hs Hdone].
    pose proof (compute_DRPs_result sires dams avg_RELs avg_heritabilities EBVs
                  L T n dims Hin i j s Hs) as Hrun.
    cbv zeta in Hrun. rewrite Hrun by lia. clear Hrun.
    destruct Hs as (HsD & HsR & HsW).
    eexists. split; [done|]. cbv beta. cbn [DRPs DRP_RELs DRP_weights]. split.
    + unfold deregressed_allocated. cbn [DRPs DRP_RELs DRP_weights].
      split; [|split]; apply store2_shape3; try done;
        by rewrite length_fmap, length_seq.
    + intros l t Hl Ht Hvis. apply visited_next in Hvis as [Hvis|[Hli Htj]].
      * rewrite !cell2_store2_ne; [by apply Hdone|..].
        all: intros [= -> ->]; unfold visited in Hvis; lia.
      * replace (Z.to_nat i) with l by lia. replace (Z.to_nat j) with t by lia.
        rewrite !(cell2_store2_eq L T) by ((by eapply shape3_rows) || done).
        done.
  - intros i s Hi [Hs Hdone]. split; [done|].
    intros l t Hl Ht Hvis. apply Hdone; [done|done|].
    apply visited_row; [lia|done].
  - exists out. split; [done|]. split; [done|].
    intros l t Hl Ht. apply Hrows; [done|done|unfold visited; lia].
Qed.

(** X4.  The loop of [__init__] over [__compute_DRPs__] raises nothing, and
    when it ends every (lactation, trait) holds its own result: for every
    animal the DRP, DRP reliability and DRP weight are those of Garrick's
    formulas where the weight is greater than zero, and zero elsewhere.  No
    iteration overwrites the rows of another pair. *)
Theorem compute_all_DRPs_spec (st : deregressed F) :
  (0 ≤ lactation_dim ly)%Z → (0 ≤ number_of_traits ly)%Z →
  deregressed_allocated L T n st →
  ∃ out,
    compute_all_DRPs ly sires dams avg_RELs avg_heritabilities EBVs st = Ok out ∧
    ∀ l t a : nat, l < L → t < T → a < n →
      let g := terms l t a in
      let positive := fgt (g_wi g) (of_int 0) in
      cell3 (DRPs out) l t a = Some (if positive then g_DRP g else of_int 0) ∧
      cell3 (DRP_RELs out) l t a = Some (if positive then g_r2i g else of_int 0) ∧
      cell3 (DRP_weights out) l t a = Some (if positive then g_wi g else of_int 0).
Proof.
  intros HL HT Hal.
  destruct (compute_all_DRPs_rows st HL HT Hal) as (out & Hout & _ & Hrows).
  exists out. split; [done|]. intros l t a Hl Ht Ha. cbv zeta.
  destruct (Hrows l t Hl Ht) as (HD & HR & HW).
  rewrite !cell3_row, HD, HR, HW. simpl.
  by rewrite !list_lookup_fmap, !lookup_seq_lt by done.
Qed.
End DrpLoopFacts.

Lemma loop_inputs :
  drp_inputs drp_sires drp_dams loop_avg_RELs loop_avg_heritabilities loop_EBVs
    1 2 2 2.
Proof.
  unfold drp_inputs. simpl.
  repeat split; try lia; repeat constructor; lia.
Defined.

Lemma loop_state_allocated : deregressed_allocated 1 2 2 loop_state.
Proof. repeat split; repeat constructor. Defined.

Lemma compute_all_DRPs_spec_witness :
  ∃ out,
    compute_all_DRPs sample_layout drp_sires drp_dams loop_avg_RELs
      loop_avg_heritabilities loop_EBVs loop_state = Ok out ∧
    let g := deregression drp_sires drp_dams loop_avg_RELs
               loop_avg_heritabilities loop_EBVs 2 2 0 1 1 in
    cell3 (DRPs out) 0 1 1
    = Some (if fgt (g_wi g) (of_int 0) then g_DRP g else of_int 0).
Proof.
  destruct (compute_all_DRPs_spec sample_layout drp_sires drp_dams loop_avg_RELs
              loop_avg_heritabilities loop_EBVs 2 2 loop_inputs loop_state)
    as (out & Hout & Hcells).
  - simpl. lia.
  - simpl. lia.
  - exact loop_state_allocated.
  - exists out. split; [exact Hout|].
    destruct (Hcells 0 1 1) as (HD & _); [simpl; lia..|]. exact HD.
Defined.

(** ** The analysis of [__init__] *)

Lemma mean_axis2_shape {F} `{Number F} n0 n1 n2 (a : tensor3 F) :
  shape3 n0 n1 n2 a → shape2 n0 n1 (mean_axis2 a).
Proof.
  intros [Hn Ha]. split; [by unfold mean_axis2; rewrite length_fmap|].
  unfold mean_axis2. apply Forall_fmap. eapply Forall_impl; [done|].
  intros m [Hm _]. unfold shape1. simpl. by rewrite length_fmap.
Qed.

Lemma compute_pevs_rels_averages {F} `{Number F} (ly : layout) (B : matrix F)
    (PEV_PECs var_G : tensor3 F) (inbreeding : bool)
    (inbreeding_coefficients : list F) (st out : reliabilities F) :
  compute_pevs_rels ly B PEV_PECs var_G inbreeding inbreeding_coefficients st
  = Ok out →
  avg_PEVs out = mean_axis3 (PEVs out) ∧ avg_RELs out = mean_axis3 (RELs out).
Proof.
  unfold compute_pevs_rels. intros Hout.
  destruct (for_each _ _ st) as [st'|e]; [|done].
  simpl in Hout. by injection Hout as <-.
Qed.

(** X5.  The analysis that ends [__init__] (fixed and random curves,
    variances and heritabilities, PEVs and reliabilities, then the DRPs of
    every lactation and trait) raises nothing on inputs of the shapes the
    layout prescribes; all fields keep their allocated shapes, and the stored
    DRPs are those of Garrick's formulas evaluated on the fields the earlier
    steps have just computed: the average reliabilities, the average
    heritabilities and the breeding values at the last DIM offset. *)
Theorem init_analysis_spec {F} `{Number F} (ly : layout) (G P R : matrix F)
    (sol : solutions F) (PEV_PECs : tensor3 F)
    (inbreeding : bool) (inbreeding_coefficients : list F)
    (sires dams : list Z) (st : analysis F) :
  let L := Z.to_nat (lactation_dim ly) in
  let T := Z.to_nat (number_of_traits ly) in
  let N := Z.to_nat (animal_count ly) in
  let D := Z.to_nat (dim_max ly - dim_min ly + 1) in
  let K := Z.to_nat (random_degree ly + 1) in
  (0 < lactation_dim ly)%Z → (0 < number_of_traits ly)%Z →
  (0 ≤ animal_count ly)%Z →
  (0 ≤ fixed_degree ly)%Z → (0 ≤ random_degree ly)%Z →
  (dim_min ly ≤ dim_max ly)%Z →
  shape2 (K * T * L) (K * T * L) G → shape2 (K * T * L) (K * T * L) P →
  shape2 (T * L) (T * L) R →
  allocated ly sol →
  shape3 N (K * T * L) (K * T * L) PEV_PECs →
  (inbreeding = true → length inbreeding_coefficients = N) →
  length sires = N → length dams = N →
  Forall (λ p, (0 ≤ p ≤ Z.of_nat N)%Z) sires →
  Forall (λ p, (0 ≤ p ≤ Z.of_nat N)%Z) dams →
  analysis_allocated ly st →
  ∃ b out,
    build_basis ly = Ok b ∧
    init_analysis ly b G P R sol PEV_PECs inbreeding inbreeding_coefficients
      sires dams st = Ok out ∧
    analysis_allocated ly out ∧
    ∀ l t a : nat, l < L → t < T → a < N →
      let g := deregression sires dams (avg_RELs (accuracy out))
                 (avg_heritabilities (genetic out)) (EBVs (curves out))
                 N D l t a in
      let positive := fgt (g_wi g) (of_int 0) in
      cell3 (DRPs (deregressed_proofs out)) l t a
        = Some (if positive then g_DRP g else of_int 0) ∧
      cell3 (DRP_RELs (deregressed_proofs out)) l t a
        = Some (if positive then g_r2i g else of_int 0) ∧
      cell3 (DRP_weights (deregressed_proofs out)) l t a
        = Some (if positive then g_wi g else of_int 0).
Proof.
  intros L T N D K HL HT HN Hfd Hrd Hdim HG HP HR (HsF & HsA & HsP) HPP Hco
    Hls Hld Hsires Hdams (HaF & HaE & HaP & HaV & HaR & HaD).
  assert (0 ≤ degree ly)%Z as Hdeg by (unfold degree; lia).
  destruct (build_basis_spec (F:=F) ly Hdim Hdeg)
    as (b & Hb & _ & Hshape & _ & Hrandom & Hsums & _).
  set (C := Z.to_nat (degree ly + 1)) in *.
  assert (shape2 D C (legendre_partial_sums b)) as HS
    by (rewrite Hsums; by apply cumsum0_shape).
  assert (shape2 D K (legendre_random_coefficients b)) as HB.
  { rewrite Hrandom. apply (take_shape2 D C); [done|].
    unfold K, C, degree. lia. }
  exists b. unfold init_analysis.
  (* the curves *)
  destruct (fixed_curve_rows ly (legendre_partial_sums b)
              (fixed_curve_coefficients sol) C)
    with (values := fixed_curve_values st) as (fixed & -> & HoF & _);
    [done|unfold C, degree; lia|done|lia|lia|done|].
  destruct (random_curve_rows ly (legendre_partial_sums b)
              (additive_coefficients sol) (permanent_coefficients sol) C)
    with (st := curves st) as (random & -> & HoE & HoP & _);
    [done|unfold C, degree; lia|done|done|lia|lia|lia|done|done|].
  (* variances and heritabilities *)
  destruct (variance_engine_rows ly (legendre_random_coefficients b) G P R)
    with (st := genetic st) as (v & -> & HoV & _ & Havg);
    [by repeat (split; [done|])|done|].
  destruct Havg as (_ & _ & Havg_h & _); [lia|].
  (* PEVs and reliabilities *)
  destruct (pev_rel_engine_result ly (legendre_random_coefficients b) PEV_PECs
              (var_G v) inbreeding inbreeding_coefficients)
    with (st := accuracy st) as (r & Hr & _ & HoR);
    [repeat (split; [done|]); split; [apply HoV|done]|done|].
  destruct (compute_pevs_rels_averages _ _ _ _ _ _ _ _ Hr) as [_ Havg_r].
  simpl. rewrite Hr. simpl.
  (* the DRPs *)
  assert (drp_inputs sires dams (avg_RELs r) (avg_heritabilities v)
            (EBVs random) L T N D) as Hdrp.
  { split; [lia|]. split.
    { rewrite Havg_r. apply (mean_axis3_shape L T N D), HoR. }
    split.
    { rewrite Havg_h. apply (mean_axis2_shape L T D), HoV. }
    done. }
  destruct (compute_all_DRPs_rows ly sires dams (avg_RELs r)
              (avg_heritabilities v) (EBVs random) N D Hdrp)
    with (st := deregressed_proofs st) as (d & -> & HoD & Hrows);
    [lia|lia|done|].
  simpl. eexists. split; [done|]. split; [done|]. split; [done|].
  intros l t a Hl Ht Ha. cbv zeta. cbn [deregressed_proofs accuracy genetic curves].
  destruct (Hrows l t Hl Ht) as (HD & HRl & HW).
  rewrite !cell3_row, HD, HRl, HW. simpl.
  by rewrite !list_lookup_fmap, !lookup_seq_lt by done.
Qed.

Lemma sample_analysis_allocated : analysis_allocated sample_layout sample_analysis.
Proof. repeat split; repeat constructor. Defined.

Lemma init_analysis_spec_witness :
  ∃ b out,
    build_basis sample_layout = Ok b ∧
    init_analysis sample_layout b sample_G sample_G sample_R sample_solutions
      sample_PEV_PECs true sample_inbreeding drp_sires drp_dams sample_analysis
    = Ok out ∧
    analysis_allocated sample_layout out.
Proof.
  destruct (init_analysis_spec sample_layout sample_G sample_G sample_R
              sample_solutions sample_PEV_PECs true sample_inbreeding
              drp_sires drp_dams sample_analysis)
    as (b & out & Hb & Hout & Hal & _).
  - simpl. lia.
  - simpl. lia.
  - simpl. lia.
  - simpl. lia.
  - simpl. lia.
  - simpl. lia.
  - repeat constructor.
  - repeat constructor.
  - repeat constructor.
  - repeat split; repeat constructor.
  - repeat constructor.
  - reflexivity.
  - reflexivity.
  - reflexivity.
  - repeat constructor; simpl; lia.
  - repeat constructor; simpl; lia.
  - exact sample_analysis_allocated.
  - exists b, out. split; [exact Hb|]. split; [exact Hout|exact Hal].
Defined.

(** ** The solution stream as a whole *)

Section StreamFacts.
Context {F : Type}.
Variable ly : layout.

Local Abbreviation L := (Z.to_nat (lactation_dim ly)).
Local Abbreviation T := (Z.to_nat (number_of_traits ly)).
Local Abbreviation N := (Z.to_nat (animal_count ly)).

Lemma store4_shape4 n0 n1 n2 n3 (a : tensor4 F) (i j k l : nat) (v : F) :
  shape4 n0 n1 n2 n3 a → shape4 n0 n1 n2 n3 (store4 i j k l v a).
Proof.
  intros [Hn Ha]. split; [by unfold store4; rewrite length_alter|].
  unfold store4. apply Forall_alter; [done|]. intros t _ Ht.
  rewrite Forall_lookup in Ha. by apply store3_shape3.
Qed.

Lemma shape4_cell n0 n1 n2 n3 (a : tensor4 F) (i j k l : nat) :
  shape4 n0 n1 n2 n3 a → i < n0 → j < n1 → k < n2 → l < n3 →
  is_Some (cell4 a i j k l).
Proof.
  intros [Hn Ha] Hi Hj Hk Hl. unfold cell4.
  destruct (lookup_lt_is_Some_2 a i) as [t Ht]; [lia|].
  rewrite Ht. simpl. eapply (shape3_cell n1 n2 n3); [|done..].
  by eapply Forall_lookup_1 in Ha.
Qed.

Local Ltac absurd_destination :=
  exfalso;
  match goal with
  | Hne : ¬ (_ ∧ _), Heq : @eq destination _ _ |- _ =>
      apply Hne; by simplify_eq
  | Hne : ¬ (@eq destination _ _), Hc : _ ∧ _ |- _ =>
      apply Hne; destruct_and!; by subst
  end.

Lemma read_solution_cells (rec : record F) (st : solutions F) :
  allocated ly st →
  (0 < number_of_traits ly)%Z →
  (0 ≤ fixed_degree ly)%Z → (0 ≤ random_degree ly)%Z →
  in_layout ly rec →
  ∃ st',
    read_solution ly rec st = Ok st' ∧
    allocated ly st' ∧
    FE st' = FE st ++ (if decide (destination_of ly rec = to_FE) then [rec.2] else []) ∧
    ∀ d, in_tensors ly d →
      cell_at st' d
      = if decide (destination_of ly rec = d) then Some rec.2 else cell_at st d.
Proof.
  destruct rec as [[[trait effect] level] v].
  intros (Hfix & Hadd & Hperm) HT Hfd Hrd (Htr & Hlev & Heff).
  destruct (stacked_trait_split ly trait HT Htr) as [Hl Ht].
  assert ((number_of_traits ly =? 0)%Z = false) as HT0 by lia.
  unfold read_solution, destination_of, py_floordiv, py_mod. rewrite HT0.
  cbv zeta.
  destruct (Z.leb_spec effect (len_fixed_effects ly)).
  { eexists. split; [done|]. split; [done|]. split; [done|].
    intros d Hd. rewrite decide_False; [done|]. by destruct d. }
  destruct (Z.leb_spec effect (len_fixed_effects ly + fixed_degree ly + 1)).
  { simpl. rewrite (setitem3_nonneg _ _ _ _ _ _ _ v Hfix) by lia.
    eexists. split; [done|]. split.
    { split; [|done]. by apply store3_shape3. }
    split; [simpl; by rewrite app_nil_r|].
    intros [|l t k|l t a k|l t a k] Hd; simpl; try done.
    rewrite cell3_store3. repeat case_decide; try done.
    - destruct (shape3_cell _ _ _ _ (Z.to_nat ((trait - 1) / number_of_traits ly))
                  (Z.to_nat ((trait - 1) mod number_of_traits ly))
                  (Z.to_nat (effect - len_fixed_effects ly - 1)) Hfix)
        as [x ->]; [lia..|done].
    - absurd_destination.
    - absurd_destination. }
  destruct (Z.leb_spec effect
    (len_fixed_effects ly + fixed_degree ly + random_degree ly + 2)).
  { simpl. rewrite (setitem4_nonneg _ _ _ _ _ _ _ _ _ v Hadd) by lia.
    eexists. split; [done|]. split.
    { split; [done|]. split; [|done]. by apply store4_shape4. }
    split; [simpl; by rewrite app_nil_r|].
    intros [|l t k|l t a k|l t a k] Hd; simpl; try done.
    rewrite cell4_store4. repeat case_decide; try done.
    - destruct (shape4_cell _ _ _ _ _ (Z.to_nat ((trait - 1) / number_of_traits ly))
                  (Z.to_nat ((trait - 1) mod number_of_traits ly))
                  (Z.to_nat (level - 1))
                  (Z.to_nat (effect - len_fixed_effects ly - fixed_degree ly - 2))
                  Hadd)
        as [x ->]; [lia..|done].
    - absurd_destination.
    - absurd_destination. }
  simpl. rewrite (setitem4_nonneg _ _ _ _ _ _ _ _ _ v Hperm) by lia.
  eexists. split; [done|]. split.
  { split; [done|]. split; [done|]. by apply store4_shape4. }
  split; [simpl; by rewrite app_nil_r|].
  intros [|l t k|l t a k|l t a k] Hd; simpl; try done.
  rewrite cell4_store4. repeat case_decide; try done.
  - destruct (shape4_cell _ _ _ _ _ (Z.to_nat ((trait - 1) / number_of_traits ly))
                (Z.to_nat ((trait - 1) mod number_of_traits ly))
                (Z.to_nat (level - 1))
                (Z.to_nat (effect - len_fixed_effects ly - fixed_degree ly
                           - random_degree ly - 3))
                Hperm)
      as [x ->]; [lia..|done].
  - absurd_destination.
  - absurd_destination.
Qed.

(** X6.  On a stream of records that respect the layout,
    [__read_blupf90_solutions__] raises nothing; the fixed-effect estimates
    are the values of the fixed-effect records in stream order, and every
    cell of the three coefficient tensors holds the value of the last record
    of the stream routed to it, or what it held before when no record is. *)
Theorem read_blupf90_solutions_last_write (lines : list (record F))
    (st : solutions F) :
  allocated ly st →
  (0 < number_of_traits ly)%Z →
  (0 ≤ fixed_degree ly)%Z → (0 ≤ random_degree ly)%Z →
  Forall (in_layout ly) lines →
  ∃ out,
    read_blupf90_solutions ly lines st = Ok out ∧
    allocated ly out ∧
    FE out = FE st ++ ((λ rec : record F, rec.2) <$>
                       filter (λ rec, destination_of ly rec = to_FE) lines) ∧
    ∀ d, in_tensors ly d →
      cell_at out d = match last_value ly d lines with
                      | Some v => Some v
                      | None => cell_at st d
                      end.
Proof.
  intros Hal HT Hfd Hrd Hlines. unfold read_blupf90_solutions.
  revert st Hal. induction Hlines as [|rec lines Hrec Hlines IH]; intros st Hal.
  - exists st. split; [done|]. split; [done|].
    split; [by rewrite app_nil_r|done].
  - destruct (read_solution_cells rec st Hal HT Hfd Hrd Hrec)
      as (st1 & Hst1 & Hal1 & HFE1 & Hcells1).
    destruct (IH st1 Hal1) as (out & Hout & Halo & HFE & Hcells).
    exists out. cbn [for_each]. rewrite Hst1. simpl.
    split; [done|]. split; [done|]. split.
    + rewrite HFE, HFE1.
      destruct (decide (destination_of ly rec = to_FE)) as [Hd|Hd].
      * rewrite filter_cons_True by done. by rewrite <- app_assoc.
      * rewrite filter_cons_False by done. by rewrite app_nil_r.
    + intros d Hd. rewrite (Hcells d Hd). simpl.
      destruct (last_value ly d lines); [done|].
      rewrite (Hcells1 d Hd).
      by destruct (decide (destination_of ly rec = d)).
Qed.
End StreamFacts.

Lemma read_blupf90_solutions_last_write_witness :
  ∃ out,
    read_blupf90_solutions minimal_layout
      [(1, 1, 1, float_of_int 2); (1, 2, 1, float_of_int 3);
       (1, 1, 1, float_of_int 5)]%Z minimal_solutions = Ok out ∧
    cell_at out (to_fixed_curve 0 0 0) = Some (float_of_int 5) ∧
    cell_at out (to_additive 0 0 0 0) = Some (float_of_int 3).
Proof.
  destruct (read_blupf90_solutions_last_write minimal_layout
              [(1, 1, 1, float_of_int 2); (1, 2, 1, float_of_int 3);
               (1, 1, 1, float_of_int 5)]%Z minimal_solutions)
    as (out & Hout & _ & _ & Hcells).
  - repeat split; repeat constructor.
  - simpl. lia.
  - simpl. lia.
  - simpl. lia.
  - repeat constructor; simpl; lia.
  - exists out. split; [exact Hout|]. split.
    + apply (Hcells (to_fixed_curve 0 0 0)). simpl. lia.
    + apply (Hcells (to_additive 0 0 0 0)). simpl. lia.
Defined.

(** ** Text files *)

Lemma concat_readlines (s : text) : concat (readlines s) = s.
Proof.
  induction s as [|c s IH]; [done|]. simpl.
  destruct (decide (c = newline)) as [->|Hc]; simpl; [by rewrite IH|].
  destruct (readlines s) as [|line lines]; simpl in *; by rewrite <- IH.
Qed.

Lemma proper_cons (l : text) (ls : list text) :
  terminated l → proper_lines ls → proper_lines (l :: ls).
Proof. intros Hl Hls. destruct ls; simpl; auto. Qed.

Lemma proper_tail (l : text) (ls : list text) :
  proper_lines (l :: ls) → proper_lines ls.
Proof. destruct ls; simpl; [done|]. by intros [_ ?]. Qed.

Lemma proper_head (l : text) (ls : list text) :
  proper_lines (l :: ls) → ls ≠ [] → terminated l.
Proof. destruct ls; simpl; [done|]. by intros [? _]. Qed.

Lemma terminated_cons (c : Ascii.ascii) (l : text) :
  c ≠ newline → terminated l → terminated (c :: l).
Proof.
  intros Hc (body & -> & Hbody). exists (c :: body). split; [done|].
  rewrite elem_of_cons. intros [?|?]; by subst.
Qed.

Lemma unterminated_cons (c : Ascii.ascii) (l : text) :
  c ≠ newline → newline ∉ l → unterminated (c :: l).
Proof.
  intros Hc Hl. split; [done|]. rewrite elem_of_cons. intros [?|?]; by subst.
Qed.

Lemma readlines_proper (s : text) : proper_lines (readlines s).
Proof.
  induction s as [|c s IH]; [done|]. simpl.
  destruct (decide (c = newline)) as [->|Hc].
  - apply proper_cons; [|done]. exists []. split; [done|]. by intros ?%elem_of_nil.
  - destruct (readlines s) as [|line lines]; simpl.
    + right. apply unterminated_cons; [done|]. by intros ?%elem_of_nil.
    + destruct lines as [|line' lines]; simpl in *.
      * destruct IH as [Hl|[_ Hl]]; [left; by apply terminated_cons|].
        right. by apply unterminated_cons.
      * destruct IH as [Hl Hls]. split; [by apply terminated_cons|done].
Qed.

Lemma readlines_terminated (body rest : text) :
  newline ∉ body →
  readlines (body ++ newline :: rest) = (body ++ [newline]) :: readlines rest.
Proof.
  induction body as [|c body IH]; intros Hbody; simpl.
  - done.
  - rewrite not_elem_of_cons in Hbody. destruct Hbody as [Hc Hbody].
    rewrite decide_False by done. by rewrite IH.
Qed.

Lemma readlines_unterminated (l : text) : unterminated l → readlines l = [l].
Proof.
  intros [Hne Hl]. induction l as [|c l IH]; [done|].
  rewrite not_elem_of_cons in Hl. destruct Hl as [Hc Hl].
  cbn [readlines]. rewrite decide_False by done.
  destruct l as [|c' l]; [done|]. by rewrite IH.
Qed.

Lemma readlines_concat (ls : list text) :
  proper_lines ls → readlines (concat ls) = ls.
Proof.
  induction ls as [|l ls IH]; [done|]. intros Hls.
  destruct ls as [|l' ls].
  - simpl in *. rewrite app_nil_r. destruct Hls as [(body & -> & Hbody)|Hl].
    + by rewrite readlines_terminated.
    + by apply readlines_unterminated.
  - destruct Hls as [(body & -> & Hbody) Hls].
    change (concat ((body ++ [newline]) :: l' :: ls))
      with ((body ++ [newline]) ++ concat (l' :: ls)).
    rewrite <- app_assoc. simpl app at 2.
    rewrite readlines_terminated by done. f_equal. by apply IH.
Qed.

Lemma proper_filter (P : text → Prop) `{∀ x, Decision (P x)} (ls : list text) :
  proper_lines ls → proper_lines (filter P ls).
Proof.
  induction ls as [|l ls IH]; [done|]. intros Hls.
  rewrite filter_cons. destruct (decide (P l)).
  - destruct ls as [|l' ls]; [done|].
    apply proper_cons; [by apply (proper_head _ _ Hls)|].
    apply IH. by apply proper_tail in Hls.
  - apply IH. by apply proper_tail in Hls.
Qed.

Lemma filter_all {A} (P : A → Prop) `{∀ x, Decision (P x)} (l : list A) :
  Forall P l → filter P l = l.
Proof.
  induction 1 as [|x l Hx Hl IH]; [done|].
  by rewrite filter_cons_True, IH.
Qed.

(** [y in x] is the occurrence of [y] in [x]. *)
Lemma contains_spec (y x : text) :
  contains y x = true ↔ ∃ p q, x = p ++ y ++ q.
Proof.
  induction x as [|c x IH]; simpl.
  - rewrite orb_false_r, bool_decide_eq_true. split.
    + intros [q ->]. by exists [], q.
    + intros (p & q & Hx). symmetry in Hx.
      apply app_eq_nil in Hx as [_ Hx]. apply app_eq_nil in Hx as [-> _].
      by exists [].
  - rewrite orb_true_iff, bool_decide_eq_true, IH. split.
    + intros [[q ->]|(p & q & ->)]; [by exists [], q|by exists (c :: p), q].
    + intros (p & q & Hx). destruct p as [|c' p]; simpl in Hx.
      * left. by exists q.
      * right. injection Hx as -> ->. by exists p, q.
Qed.

Lemma contains_false (y x : text) :
  contains y x = false ↔ ¬ ∃ p q, x = p ++ y ++ q.
Proof. rewrite <- contains_spec. by destruct (contains y x). Qed.

Lemma contains_concat (y l : text) (ls : list text) :
  l ∈ ls → contains y l = true → contains y (concat ls) = true.
Proof.
  intros Hl. rewrite !contains_spec. intros (p & q & ->).
  apply list_elem_of_split in Hl as (ls1 & ls2 & ->).
  rewrite concat_app. simpl. exists (concat ls1 ++ p), (q ++ concat ls2).
  by rewrite <- !app_assoc.
Qed.

Lemma prefix_before (y a b : text) (c : Ascii.ascii) :
  c ∉ y → y `prefix_of` a ++ c :: b → y `prefix_of` a.
Proof.
  revert a. induction y as [|d y IH]; intros a Hc Hpre; [apply prefix_nil|].
  rewrite not_elem_of_cons in Hc. destruct Hc as [Hcd Hc].
  destruct a as [|e a]; simpl in Hpre.
  - destruct Hpre as [k Hk]. by injection Hk as -> _.
  - destruct Hpre as [k Hk]. injection Hk as <- Hk.
    apply prefix_cons. apply (IH a Hc). by exists k.
Qed.

(** A string without [c] that occurs in [a ++ c :: b] occurs in [a] or in
    [b]. *)
Lemma contains_split (y a b : text) (c : Ascii.ascii) :
  c ∉ y → contains y (a ++ c :: b) = true →
  contains y a = true ∨ contains y b = true.
Proof.
  intros Hc. induction a as [|x a IH]; simpl.
  - rewrite orb_true_iff, bool_decide_eq_true. intros [Hpre|Hb]; [|by right].
    left. apply (prefix_before y [] b c Hc) in Hpre.
    destruct y; [done|]. by apply prefix_nil_not in Hpre.
  - rewrite !orb_true_iff, !bool_decide_eq_true. intros [Hpre|Hrest].
    + left. left. by apply (prefix_before y (x :: a) b c Hc).
    + destruct (IH Hrest) as [?|?]; auto.
Qed.

(** A non-empty string without line end that occurs in a file occurs in one
    of its lines. *)
Lemma contains_line (y : text) (ls : list text) :
  y ≠ [] → newline ∉ y → proper_lines ls →
  contains y (concat ls) = true → ∃ l, l ∈ ls ∧ contains y l = true.
Proof.
  intros Hy Hnl. induction ls as [|l ls IH]; intros Hls Hin.
  - simpl in Hin. rewrite orb_false_r, bool_decide_eq_true in Hin.
    by apply prefix_nil_inv in Hin.
  - destruct ls as [|l' ls].
    + exists l. simpl in Hin. rewrite app_nil_r in Hin.
      split; [apply list_elem_of_here|done].
    + destruct Hls as [(body & -> & Hbody) Hls].
      change (concat ((body ++ [newline]) :: l' :: ls))
        with ((body ++ [newline]) ++ concat (l' :: ls)) in Hin.
      rewrite <- app_assoc in Hin. simpl app at 2 in Hin.
      apply (contains_split y body _ newline Hnl) in Hin as [Hin|Hin].
      * exists (body ++ [newline]). split; [apply list_elem_of_here|].
        apply contains_spec in Hin as (p & q & ->).
        apply contains_spec. exists p, (q ++ [newline]).
        by rewrite <- !app_assoc.
      * destruct (IH Hls Hin) as (l & Hl & Hyl).
        exists l. split; [by apply list_elem_of_further|done].
Qed.

(** *** [remove_postgsf90_incompatible_options] *)

Lemma kept_compatible (x : text) :
  filter (λ y, contains y x) incompatible_options = [] ↔ compatible x.
Proof.
  unfold compatible, incompatible_options.
  rewrite !Forall_cons, Forall_nil.
  rewrite !filter_cons, filter_nil.
  destruct (contains (chars "OPTION sol se") x),
           (contains (chars "OPTION store accuracy") x),
           (contains (chars "OPTION store_pev_pec") x); simpl;
    (split; [intros ?; try discriminate; by repeat split
            |intros (? & ? & ? & _); try discriminate; done]).
Qed.

Lemma kept_lines (ls : list text) :
  filter (λ x, filter (λ y, contains y x) incompatible_options = []) ls
  = filter compatible ls.
Proof. apply list_filter_iff. intros x. apply kept_compatible. Qed.

Lemma option_shape (y : text) :
  y ∈ incompatible_options → y ≠ [] ∧ newline ∉ y.
Proof.
  unfold incompatible_options. rewrite !elem_of_cons, elem_of_nil.
  intros [->|[->|[->|[]]]]; (split; [done|]);
    apply (bool_decide_unpack _); vm_compute; exact I.
Qed.

Lemma readlines_filtered (P : text → Prop) `{∀ x, Decision (P x)} (s : text) :
  readlines (concat (filter P (readlines s))) = filter P (readlines s).
Proof. apply readlines_concat, proper_filter, readlines_proper. Qed.

(** X7.  The lines of the file [remove_postgsf90_incompatible_options]
    writes are the lines of the file it read that hold none of
    ['OPTION sol se'], ['OPTION store accuracy'], ['OPTION store_pev_pec'],
    in their order; a line of the input is in the output exactly when it
    holds none of the three. *)
Theorem remove_postgsf90_incompatible_options_lines (s : text) :
  readlines (remove_postgsf90_incompatible_options s)
    = filter compatible (readlines s) ∧
  ∀ x, x ∈ readlines (remove_postgsf90_incompatible_options s)
       ↔ x ∈ readlines s ∧ compatible x.
Proof.
  assert (readlines (remove_postgsf90_incompatible_options s)
          = filter compatible (readlines s)) as Hlines.
  { unfold remove_postgsf90_incompatible_options, writelines. cbv zeta.
    rewrite kept_lines. apply readlines_filtered. }
  split; [done|]. intros x. rewrite Hlines, list_elem_of_filter. tauto.
Qed.

(** X8.  After [remove_postgsf90_incompatible_options] none of the three
    incompatible options occurs anywhere in the file. *)
Theorem remove_postgsf90_incompatible_options_clean (s : text) (y : text) :
  y ∈ incompatible_options →
  contains y (remove_postgsf90_incompatible_options s) = false.
Proof.
  intros Hy. destruct (option_shape y Hy) as [Hne Hnl].
  unfold remove_postgsf90_incompatible_options, writelines. cbv zeta.
  rewrite kept_lines.
  destruct (contains y (concat (filter compatible (readlines s)))) eqn:Hin;
    [|done].
  apply contains_line in Hin as (l & Hl & Hyl); [|done|done|].
  - apply list_elem_of_filter in Hl as [Hl _].
    unfold compatible in Hl. rewrite Forall_forall in Hl.
    by rewrite (Hl y Hy) in Hyl.
  - apply proper_filter, readlines_proper.
Qed.

Lemma remove_postgsf90_incompatible_options_clean_witness :
  contains (chars "OPTION sol se")
    (remove_postgsf90_incompatible_options
       (chars "RANDOM_GROUP" ++ [newline] ++ chars "OPTION sol se 1"
        ++ [newline] ++ chars "OPTION missing 0"))
  = false.
Proof.
  apply remove_postgsf90_incompatible_options_clean.
  apply (bool_decide_unpack _). vm_compute. exact I.
Defined.

(** The text of a file in which none of the three options occurs passes
    through the filter as it is. *)
Lemma remove_postgsf90_incompatible_options_text (s : text) :
  Forall (λ y, contains y s = false) incompatible_options →
  remove_postgsf90_incompatible_options s = s.
Proof.
  intros Hs. unfold remove_postgsf90_incompatible_options, writelines.
  cbv zeta. rewrite kept_lines.
  rewrite filter_all; [apply concat_readlines|].
  apply Forall_forall. intros l Hl. unfold compatible.
  eapply Forall_impl; [exact Hs|]. intros y Hy. simpl in Hy.
  destruct (contains y l) eqn:Hyl; [|done].
  apply (contains_concat y l (readlines s) Hl) in Hyl.
  by rewrite concat_readlines, Hy in Hyl.
Qed.

(** A file without carriage return is read as it is stored, and a text is
    stored as it is where the line separator is ['\n']. *)
Lemma universal_newlines_id (s : text) :
  carriage_return ∉ s → universal_newlines s = s.
Proof.
  induction s as [|c s IH]; intros Hs; [done|].
  apply not_elem_of_cons in Hs as [Hc Hs]. simpl.
  rewrite decide_False by (by intros ->). by rewrite IH.
Qed.

Lemma write_newlines_id (s : text) : write_newlines [newline] s = s.
Proof.
  induction s as [|c s IH]; [done|].
  unfold write_newlines in *. rewrite fmap_cons. cbn [concat]. rewrite IH.
  by destruct (decide (c = newline)) as [->|].
Qed.

(** X9.  A file whose text holds none of the three options keeps its text
    under [remove_postgsf90_incompatible_options]: what is stored afterwards
    is the stored file with every line end (['\r\n'], ['\r'] or ['\n'])
    replaced by the line separator of the platform.  Where that separator is
    ['\n'], a file without carriage return is rewritten unchanged, character
    for character. *)
Theorem remove_postgsf90_incompatible_options_noop (linesep stored : text) :
  Forall (λ y, contains y (universal_newlines stored) = false)
         incompatible_options →
  remove_postgsf90_incompatible_options_file linesep stored
  = write_newlines linesep (universal_newlines stored) ∧
  (linesep = [newline] → carriage_return ∉ stored →
   remove_postgsf90_incompatible_options_file linesep stored = stored).
Proof.
  intros Hs. unfold remove_postgsf90_incompatible_options_file.
  rewrite remove_postgsf90_incompatible_options_text by done.
  split; [done|]. intros -> Hcr.
  by rewrite write_newlines_id, universal_newlines_id.
Qed.

Lemma remove_postgsf90_incompatible_options_noop_witness :
  remove_postgsf90_incompatible_options_file [newline] crlf_par
  = chars "RANDOM_GROUP" ++ [newline] ++ chars "OPTION missing 0" ++ [newline].
Proof.
  refine (eq_trans
            (proj1 (remove_postgsf90_incompatible_options_noop [newline]
                      crlf_par _)) _).
  - repeat constructor.
  - reflexivity.
Defined.

(** X10.  [remove_postgsf90_incompatible_options] is idempotent: a second
    call leaves the file as the first call wrote it. *)
Theorem remove_postgsf90_incompatible_options_idempotent (s : text) :
  remove_postgsf90_incompatible_options (remove_postgsf90_incompatible_options s)
  = remove_postgsf90_incompatible_options s.
Proof.
  unfold remove_postgsf90_incompatible_options, writelines. cbv zeta.
  rewrite !kept_lines, readlines_filtered. f_equal.
  apply filter_all, Forall_forall. intros l Hl.
  by apply list_elem_of_filter in Hl as [Hl _].
Qed.

(** *** Lines appended to the parameter file *)

Lemma readlines_nil_inv (s : text) : readlines s = [] → s = [].
Proof. intros Hs. by rewrite <- (concat_readlines s), Hs. Qed.

Lemma ends_with_newline_tail (c : Ascii.ascii) (s : text) :
  ends_with_newline (c :: s) → ends_with_newline s ∧ (c ≠ newline → s ≠ []).
Proof.
  intros [?|Hlast]; [done|]. destruct s as [|c' s].
  - injection Hlast as ->. split; [by left|done].
  - split; [by right|done].
Qed.

Lemma readlines_app (s t : text) :
  ends_with_newline s → readlines (s ++ t) = readlines s ++ readlines t.
Proof.
  induction s as [|c s IH]; intros Hs; [done|].
  apply ends_with_newline_tail in Hs as [Hs Hne]. specialize (IH Hs).
  cbn [app readlines]. rewrite IH.
  destruct (decide (c = newline)) as [->|Hc]; [done|].
  destruct (readlines s) as [|line lines] eqn:Hrs; [|done].
  apply readlines_nil_inv in Hrs. by apply Hne in Hrs.
Qed.

Lemma readlines_line (body : text) :
  newline ∉ body → readlines (body ++ [newline]) = [body ++ [newline]].
Proof. intros Hbody. by rewrite readlines_terminated. Qed.

Lemma uint_no_newline (d : Decimal.uint) :
  newline ∉ String.list_ascii_of_string (DecimalString.NilEmpty.string_of_uint d).
Proof.
  induction d; simpl; [by intros ?%elem_of_nil|..];
    (rewrite not_elem_of_cons; split; [done|done]).
Qed.

Lemma str_int_no_newline (n : Z) : newline ∉ str_int n.
Proof.
  unfold str_int. destruct (Z.to_int n) as [d|d]; simpl.
  - destruct d; try apply (uint_no_newline (_ _)).
    simpl. rewrite not_elem_of_cons. split; [done|by intros ?%elem_of_nil].
  - rewrite not_elem_of_cons. split; [done|].
    destruct d; try apply (uint_no_newline (_ _)).
    simpl. rewrite not_elem_of_cons. split; [done|by intros ?%elem_of_nil].
Qed.

Lemma contains_prefix (y rest : text) : contains y (y ++ rest) = true.
Proof. apply contains_spec. by exists [], rest. Qed.

Lemma store_pev_pec_incompatible (rest : text) :
  ¬ compatible (chars "OPTION store_pev_pec " ++ rest).
Proof.
  unfold compatible, incompatible_options. rewrite !Forall_cons.
  intros (_ & _ & Hc & _).
  change (chars "OPTION store_pev_pec " ++ rest)
    with (chars "OPTION store_pev_pec" ++ " "%char :: rest) in Hc.
  by rewrite contains_prefix in Hc.
Qed.

Lemma ends_with_newline_app (s body : text) :
  ends_with_newline (s ++ body ++ [newline]).
Proof. right. by rewrite app_assoc, last_snoc. Qed.

Lemma pev_pec_line_shape (n : Z) :
  newline ∉ chars "OPTION store_pev_pec " ++ str_int n.
Proof.
  rewrite not_elem_of_app. split; [|apply str_int_no_newline].
  apply (bool_decide_unpack _). vm_compute. exact I.
Qed.

(** X11.  On a parameter file that ends with a line end, the option line
    [__add_pev_pec__] appends is removed again by
    [remove_postgsf90_incompatible_options], while the line
    ['OPTION snp_p_value'] of [__add_snp_effects__] stays, as the last line:
    the three calls in the order of [__init__] leave the cleaned file
    followed by that line when SNP p-values are asked for. *)
Theorem appended_options_removed (ly : layout) (snp_p_values : bool) (s : text) :
  ends_with_newline s →
  remove_postgsf90_incompatible_options
    (add_snp_effects snp_p_values (add_pev_pec ly s))
  = remove_postgsf90_incompatible_options s
    ++ (if snp_p_values then chars "OPTION snp_p_value" ++ [newline] else []).
Proof.
  intros Hs.
  set (n := (len_fixed_effects ly + fixed_degree ly + 2)%Z).
  set (body := chars "OPTION store_pev_pec " ++ str_int n).
  assert (add_pev_pec ly s = s ++ body ++ [newline]) as ->.
  { unfold add_pev_pec, body. by rewrite <- !app_assoc. }
  assert (readlines (s ++ body ++ [newline])
          = readlines s ++ [body ++ [newline]]) as Hlines.
  { rewrite readlines_app by done. f_equal.
    apply readlines_line, pev_pec_line_shape. }
  assert (filter compatible [body ++ [newline]] = []) as Hdrop.
  { rewrite filter_cons_False; [done|]. unfold body.
    rewrite <- app_assoc. apply store_pev_pec_incompatible. }
  unfold remove_postgsf90_incompatible_options, writelines. cbv zeta.
  rewrite !kept_lines.
  destruct snp_p_values; unfold add_snp_effects.
  - rewrite readlines_app by apply ends_with_newline_app.
    rewrite Hlines, !filter_app, Hdrop, app_nil_r, concat_app. f_equal.
  - rewrite Hlines, filter_app, Hdrop. by rewrite !app_nil_r.
Qed.

Lemma appended_options_removed_witness :
  remove_postgsf90_incompatible_options
    (add_snp_effects true
       (add_pev_pec sample_layout (chars "RANDOM_GROUP" ++ [newline])))
  = remove_postgsf90_incompatible_options (chars "RANDOM_GROUP" ++ [newline])
    ++ chars "OPTION snp_p_value" ++ [newline].
Proof.
  apply (appended_options_removed sample_layout true).
  right. reflexivity.
Defined.

(** X12.  When the parameter file does not end with a line end,
    [__add_pev_pec__] continues its last line with the option, and
    [remove_postgsf90_incompatible_options] then deletes that line whole:
    the last line of the original file is lost with the option. *)
Theorem unterminated_last_line_lost (ly : layout) (s tail : text) :
  ends_with_newline s → unterminated tail →
  remove_postgsf90_incompatible_options (add_pev_pec ly (s ++ tail))
  = remove_postgsf90_incompatible_options s.
Proof.
  intros Hs [_ Htail].
  set (n := (len_fixed_effects ly + fixed_degree ly + 2)%Z).
  set (body := tail ++ chars "OPTION store_pev_pec " ++ str_int n).
  assert (add_pev_pec ly (s ++ tail) = s ++ body ++ [newline]) as ->.
  { unfold add_pev_pec, body. by rewrite <- !app_assoc. }
  assert (newline ∉ body) as Hbody.
  { unfold body. rewrite not_elem_of_app. split; [done|].
    apply pev_pec_line_shape. }
  assert (¬ compatible (body ++ [newline])) as Hbad.
  { unfold compatible, incompatible_options. rewrite !Forall_cons.
    intros (_ & _ & Hc & _).
    apply contains_false in Hc. apply Hc.
    exists tail, (" "%char :: str_int n ++ [newline]).
    unfold body. by rewrite <- !app_assoc. }
  unfold remove_postgsf90_incompatible_options, writelines. cbv zeta.
  rewrite !kept_lines, readlines_app, readlines_line by done.
  by rewrite filter_app, filter_cons_False, filter_nil, app_nil_r by done.
Qed.

Lemma unterminated_last_line_lost_witness :
  remove_postgsf90_incompatible_options
    (add_pev_pec sample_layout
       ((chars "RANDOM_GROUP" ++ [newline]) ++ chars "OPTION missing 0"))
  = remove_postgsf90_incompatible_options (chars "RANDOM_GROUP" ++ [newline]).
Proof.
  apply (unterminated_last_line_lost sample_layout).
  - right. reflexivity.
  - split; [discriminate|]. apply (bool_decide_unpack _). vm_compute. exact I.
Defined.

(** *** The parameter file rewritten with the (co)variances *)

Section ParameterFileFacts.
Context {F : Type}.
Variable str : F → text.
Variables G P R : matrix F.

Local Abbreviation scan := (scan_lines str G P R).
Local Abbreviation rows := (λ M : matrix F, matrix_line str <$> M).

Lemma scan_line_plain (l : text) (st : parameter_scan) :
  plain l →
  read_residual st = false → read_additive st = false →
  read_permanent st = false →
  scan_line str G P R l st = Ok (append_line l st, 0%Z).
Proof.
  intros [HR HC] Hr Ha Hp. unfold scan_line. by rewrite HR, HC, Hr, Ha, Hp.
Qed.

Lemma scan_plain (ls rest : list text) (lines : list text) (lr la lp : Z) :
  Forall plain ls →
  scan (ls ++ rest) 0 (Build_parameter_scan lines false false false lr la lp)
  = scan rest 0 (Build_parameter_scan (lines ++ ls) false false false lr la lp).
Proof.
  intros Hls. revert lines. induction Hls as [|l ls Hl Hls IH]; intros lines.
  - by rewrite app_nil_r.
  - cbn [app scan_lines]. rewrite scan_line_plain by done. simpl.
    unfold append_line. simpl. rewrite IH. by rewrite <- app_assoc.
Qed.

Lemma scan_skip (sk rest : list text) (st : parameter_scan) :
  scan (sk ++ rest) (length sk) st = scan rest 0 st.
Proof. induction sk as [|l sk IH]; [done|]. simpl. apply IH. Qed.

Lemma scan_residual_header (h : text) (rest lines : list text)
    (rr ra rp : bool) (lr la lp : Z) :
  residual_header h →
  scan (h :: rest) 0 (Build_parameter_scan lines rr ra rp lr la lp)
  = scan rest 0 (Build_parameter_scan (lines ++ [h]) true ra rp lr la lp).
Proof.
  intros Hh. cbn [scan_lines]. unfold scan_line. by rewrite Hh.
Qed.

Lemma scan_covariance_header (h : text) (rest lines : list text)
    (rr ra rp : bool) (lr la lp : Z) :
  covariance_header h →
  scan (h :: rest) 0 (Build_parameter_scan lines rr ra rp lr la lp)
  = scan rest 0
      (if (0 <? la)%Z
       then Build_parameter_scan (lines ++ [h]) rr ra true lr la lp
       else Build_parameter_scan (lines ++ [h]) rr true rp lr la lp).
Proof.
  intros [HR HC]. cbn [scan_lines]. unfold scan_line. rewrite HR, HC. simpl.
  by destruct (0 <? la)%Z.
Qed.

Lemma drop_lookup_cons {A} (l : list A) (k : nat) (x : A) :
  l !! k = Some x → drop k l = x :: drop (S k) l.
Proof. intros Hx. by rewrite (drop_S l x k Hx). Qed.

Lemma scan_residual_rows (ls sk rest lines : list text) (ra rp : bool)
    (k : nat) (la lp : Z) :
  ls ≠ [] → k + length ls = length R → Forall plain ls →
  length sk = Z.to_nat (continuation_lines R) →
  scan (ls ++ sk ++ rest) 0
    (Build_parameter_scan lines true ra rp (Z.of_nat k) la lp)
  = scan rest 0
      (Build_parameter_scan (lines ++ rows (drop k R)) false ra rp
         (Z.of_nat (length R)) la lp).
Proof.
  intros Hne Hlen Hls Hsk. revert lines k Hne Hlen.
  induction Hls as [|l ls [HR HC] Hls IH]; intros lines k Hne Hlen; [done|].
  simpl in Hlen.
  destruct (lookup_lt_is_Some_2 R k) as [row Hrow]; [lia|].
  cbn [app scan_lines]. unfold scan_line. rewrite HR, HC. simpl.
  rewrite (np_get_nonneg R (Z.of_nat k) row) by (lia || by rewrite Nat2Z.id).
  simpl. rewrite (drop_lookup_cons R k row Hrow). simpl.
  destruct ls as [|l' ls]; simpl in Hlen.
  - assert ((Z.of_nat (length R) <=? Z.of_nat k + 1)%Z = true) as ->
      by (apply Z.leb_le; lia).
    simpl. rewrite <- Hsk, scan_skip.
    rewrite drop_ge by lia. simpl.
    by replace (Z.of_nat k + 1)%Z with (Z.of_nat (length R)) by lia.
  - assert ((Z.of_nat (length R) <=? Z.of_nat k + 1)%Z = false) as ->
      by (apply Z.leb_gt; lia).
    replace (Z.of_nat k + 1)%Z with (Z.of_nat (S k)) by lia.
    trans (scan ((l' :: ls) ++ sk ++ rest) 0
             (Build_parameter_scan (lines ++ [matrix_line str row])
                true ra rp (Z.of_nat (S k)) la lp)); [done|].
    rewrite IH by (done || simpl; lia). by rewrite <- app_assoc.
Qed.

Lemma scan_additive_rows (ls sk rest lines : list text) (rp : bool)
    (k : nat) (lr lp : Z) :
  ls ≠ [] → k + length ls = length G → Forall plain ls →
  length sk = Z.to_nat (continuation_lines G) →
  scan (ls ++ sk ++ rest) 0
    (Build_parameter_scan lines false true rp lr (Z.of_nat k) lp)
  = scan rest 0
      (Build_parameter_scan (lines ++ rows (drop k G)) false false rp
         lr (Z.of_nat (length G)) lp).
Proof.
  intros Hne Hlen Hls Hsk. revert lines k Hne Hlen.
  induction Hls as [|l ls [HR HC] Hls IH]; intros lines k Hne Hlen; [done|].
  simpl in Hlen.
  destruct (lookup_lt_is_Some_2 G k) as [row Hrow]; [lia|].
  cbn [app scan_lines]. unfold scan_line. rewrite HR, HC. simpl.
  rewrite (np_get_nonneg G (Z.of_nat k) row) by (lia || by rewrite Nat2Z.id).
  simpl. rewrite (drop_lookup_cons G k row Hrow). simpl.
  destruct ls as [|l' ls]; simpl in Hlen.
  - assert ((Z.of_nat (length G) <=? Z.of_nat k + 1)%Z = true) as ->
      by (apply Z.leb_le; lia).
    simpl. rewrite <- Hsk, scan_skip.
    rewrite drop_ge by lia. simpl.
    by replace (Z.of_nat k + 1)%Z with (Z.of_nat (length G)) by lia.
  - assert ((Z.of_nat (length G) <=? Z.of_nat k + 1)%Z = false) as ->
      by (apply Z.leb_gt; lia).
    replace (Z.of_nat k + 1)%Z with (Z.of_nat (S k)) by lia.
    trans (scan ((l' :: ls) ++ sk ++ rest) 0
             (Build_parameter_scan (lines ++ [matrix_line str row])
                false true rp lr (Z.of_nat (S k)) lp)); [done|].
    rewrite IH by (done || simpl; lia). by rewrite <- app_assoc.
Qed.

Lemma scan_permanent_rows (ls sk rest lines : list text)
    (k : nat) (lr la : Z) :
  ls ≠ [] → k + length ls = length P → Forall plain ls →
  length sk = Z.to_nat (continuation_lines P) →
  scan (ls ++ sk ++ rest) 0
    (Build_parameter_scan lines false false true lr la (Z.of_nat k))
  = scan rest 0
      (Build_parameter_scan (lines ++ rows (drop k P)) false false false
         lr la (Z.of_nat (length P))).
Proof.
  intros Hne Hlen Hls Hsk. revert lines k Hne Hlen.
  induction Hls as [|l ls [HR HC] Hls IH]; intros lines k Hne Hlen; [done|].
  simpl in Hlen.
  destruct (lookup_lt_is_Some_2 P k) as [row Hrow]; [lia|].
  cbn [app scan_lines]. unfold scan_line. rewrite HR, HC. simpl.
  rewrite (np_get_nonneg P (Z.of_nat k) row) by (lia || by rewrite Nat2Z.id).
  simpl. rewrite (drop_lookup_cons P k row Hrow). simpl.
  destruct ls as [|l' ls]; simpl in Hlen.
  - assert ((Z.of_nat (length P) <=? Z.of_nat k + 1)%Z = true) as ->
      by (apply Z.leb_le; lia).
    simpl. rewrite <- Hsk, scan_skip.
    rewrite drop_ge by lia. simpl.
    by replace (Z.of_nat k + 1)%Z with (Z.of_nat (length P)) by lia.
  - assert ((Z.of_nat (length P) <=? Z.of_nat k + 1)%Z = false) as ->
      by (apply Z.leb_gt; lia).
    replace (Z.of_nat k + 1)%Z with (Z.of_nat (S k)) by lia.
    trans (scan ((l' :: ls) ++ sk ++ rest) 0
             (Build_parameter_scan (lines ++ [matrix_line str row])
                false false true lr la (Z.of_nat (S k)))); [done|].
    rewrite IH by (done || simpl; lia). by rewrite <- app_assoc.
Qed.

Lemma block_split (M : matrix F) (b : list text) :
  matrix_block M b → 0 < length M →
  ∃ ls sk, b = ls ++ sk ∧ ls ≠ [] ∧ length ls = length M ∧ Forall plain ls ∧
           length sk = Z.to_nat (continuation_lines M).
Proof.
  intros [Hlen Hplain] HM.
  exists (take (length M) b), (drop (length M) b).
  split; [by rewrite take_drop|].
  assert (length (take (length M) b) = length M) as Htake
    by (rewrite length_take; lia).
  split; [intros Hnil; rewrite Hnil in Htake; simpl in Htake; lia|].
  split; [done|]. split; [done|]. rewrite length_drop. lia.
Qed.

(** The scan of a file with a residual block and two (co)variance blocks. *)
Lemma scan_three_blocks (pre bR mid bG mid' bP rest : list text) (hR hG hP : text) :
  0 < length R → 0 < length G → 0 < length P →
  Forall plain pre → residual_header hR → matrix_block R bR →
  Forall plain mid → covariance_header hG → matrix_block G bG →
  Forall plain mid' → covariance_header hP → matrix_block P bP →
  scan (pre ++ [hR] ++ bR ++ mid ++ [hG] ++ bG ++ mid' ++ [hP] ++ bP ++ rest)
    0 scan_start
  = scan rest 0
      (Build_parameter_scan
         (pre ++ [hR] ++ rows R ++ mid ++ [hG] ++ rows G ++ mid' ++ [hP]
              ++ rows P)
         false false false
         (Z.of_nat (length R)) (Z.of_nat (length G)) (Z.of_nat (length P))).
Proof.
  intros HnR HnG HnP Hpre HhR HbR Hmid HhG HbG Hmid' HhP HbP.
  destruct (block_split R bR HbR HnR) as (lR & sR & -> & HneR & HlR & HpR & HsR).
  destruct (block_split G bG HbG HnG) as (lG & sG & -> & HneG & HlG & HpG & HsG).
  destruct (block_split P bP HbP HnP) as (lP & sP & -> & HneP & HlP & HpP & HsP).
  unfold scan_start.
  rewrite scan_plain by done. cbn [app].
  rewrite scan_residual_header by done.
  rewrite <- (app_assoc lR sR).
  rewrite (scan_residual_rows lR sR _ _ false false 0) by (done || lia).
  rewrite scan_plain by done. cbn [app].
  rewrite scan_covariance_header by done. cbn [Z.ltb Z.compare].
  rewrite <- (app_assoc lG sG).
  rewrite (scan_additive_rows lG sG _ _ false 0) by (done || lia).
  rewrite scan_plain by done. cbn [app].
  rewrite scan_covariance_header by done.
  assert ((0 <? Z.of_nat (length G))%Z = true) as -> by (apply Z.ltb_lt; lia).
  rewrite <- (app_assoc lP sP).
  rewrite (scan_permanent_rows lP sP _ _ 0) by (done || lia).
  rewrite !drop_0. simpl. f_equal. f_equal.
  by rewrite <- !app_assoc.
Qed.

(** X14.  On a parameter file made of plain lines, a
    ['RANDOM_RESIDUAL VALUES'] line with its block and two ['(CO)VARIANCES']
    lines with their blocks, [__add_updated_genetic_parameters__] raises
    nothing and rewrites the file with the rows of [R] in the first block,
    the rows of [G] in the second and the rows of [P] in the third, one line
    for each row; a block of a matrix with [n] rows spans [n] lines and
    [((n - 1) // 7) · n] continuation lines, which are dropped.  All other
    lines are kept as they are, in their order. *)
Theorem add_updated_genetic_parameters_blocks
    (pre bR mid bG mid' bP post : list text) (hR hG hP : text) :
  0 < length R → 0 < length G → 0 < length P →
  Forall plain pre → residual_header hR → matrix_block R bR →
  Forall plain mid → covariance_header hG → matrix_block G bG →
  Forall plain mid' → covariance_header hP → matrix_block P bP →
  Forall plain post →
  proper_lines (pre ++ [hR] ++ bR ++ mid ++ [hG] ++ bG ++ mid' ++ [hP]
                    ++ bP ++ post) →
  add_updated_genetic_parameters str G P R
    (concat (pre ++ [hR] ++ bR ++ mid ++ [hG] ++ bG ++ mid' ++ [hP]
                 ++ bP ++ post))
  = Ok (concat (pre ++ [hR] ++ rows R ++ mid ++ [hG] ++ rows G ++ mid' ++ [hP]
                    ++ rows P ++ post)).
Proof.
  intros HnR HnG HnP Hpre HhR HbR Hmid HhG HbG Hmid' HhP HbP Hpost Hproper.
  unfold add_updated_genetic_parameters.
  rewrite readlines_concat by done.
  rewrite scan_three_blocks by done.
  rewrite <- (app_nil_r post) at 1. rewrite scan_plain by done.
  simpl. unfold writelines. do 2 f_equal.
  repeat (rewrite <- ?app_assoc; cbn [app]). done.
Qed.

(** X15.  The method knows two (co)variance blocks only: at the first plain
    line after a third ['(CO)VARIANCES'] line it asks for a row of [P]
    beyond the last one and raises [IndexError]; the file is not
    rewritten. *)
Theorem add_updated_genetic_parameters_third_block
    (pre bR mid bG mid' bP post rest : list text) (hR hG hP h l : text) :
  0 < length R → 0 < length G → 0 < length P →
  Forall plain pre → residual_header hR → matrix_block R bR →
  Forall plain mid → covariance_header hG → matrix_block G bG →
  Forall plain mid' → covariance_header hP → matrix_block P bP →
  Forall plain post → covariance_header h → plain l →
  proper_lines (pre ++ [hR] ++ bR ++ mid ++ [hG] ++ bG ++ mid' ++ [hP]
                    ++ bP ++ post ++ [h; l] ++ rest) →
  add_updated_genetic_parameters str G P R
    (concat (pre ++ [hR] ++ bR ++ mid ++ [hG] ++ bG ++ mid' ++ [hP]
                 ++ bP ++ post ++ [h; l] ++ rest))
  = Raise IndexError.
Proof.
  intros HnR HnG HnP Hpre HhR HbR Hmid HhG HbG Hmid' HhP HbP Hpost Hh [HlR HlC]
    Hproper.
  unfold add_updated_genetic_parameters.
  rewrite readlines_concat by done.
  rewrite scan_three_blocks by done.
  rewrite scan_plain by done. cbn [app].
  rewrite scan_covariance_header by done.
  assert ((0 <? Z.of_nat (length G))%Z = true) as -> by (apply Z.ltb_lt; lia).
  cbn [scan_lines]. unfold scan_line. rewrite HlR, HlC. simpl.
  unfold np_get. by rewrite np_index_beyond by lia.
Qed.

(** The text of a parameter file without marker passes through the scan
    as it is. *)
Lemma add_updated_genetic_parameters_text (s : text) :
  contains (chars "RANDOM_RESIDUAL VALUES") s = false →
  contains (chars "(CO)VARIANCES") s = false →
  add_updated_genetic_parameters str G P R s = Ok s.
Proof.
  intros HR HC. unfold add_updated_genetic_parameters.
  assert (Forall plain (readlines s)) as Hplain.
  { apply Forall_forall. intros l Hl. split.
    - destruct (contains _ l) eqn:Hin; [|done].
      apply (contains_concat _ l (readlines s) Hl) in Hin.
      by rewrite concat_readlines, HR in Hin.
    - destruct (contains _ l) eqn:Hin; [|done].
      apply (contains_concat _ l (readlines s) Hl) in Hin.
      by rewrite concat_readlines, HC in Hin. }
  rewrite <- (app_nil_r (readlines s)) at 1. unfold scan_start.
  rewrite scan_plain by done. simpl. unfold writelines.
  by rewrite concat_readlines.
Qed.

(** X13.  A parameter file whose text holds neither
    ['RANDOM_RESIDUAL VALUES'] nor ['(CO)VARIANCES'] keeps its text under
    [__add_updated_genetic_parameters__], whatever the matrices are: nothing
    is raised and what is stored afterwards is the stored file with every
    line end replaced by the line separator of the platform.  Where that
    separator is ['\n'], a file without carriage return is rewritten
    unchanged. *)
Theorem add_updated_genetic_parameters_plain (linesep stored : text) :
  contains (chars "RANDOM_RESIDUAL VALUES") (universal_newlines stored) = false →
  contains (chars "(CO)VARIANCES") (universal_newlines stored) = false →
  add_updated_genetic_parameters_file str G P R linesep stored
  = Ok (write_newlines linesep (universal_newlines stored)) ∧
  (linesep = [newline] → carriage_return ∉ stored →
   add_updated_genetic_parameters_file str G P R linesep stored = Ok stored).
Proof.
  intros HR HC. unfold add_updated_genetic_parameters_file.
  rewrite add_updated_genetic_parameters_text by done.
  split; [done|]. intros -> Hcr. simpl.
  by rewrite write_newlines_id, universal_newlines_id.
Qed.
End ParameterFileFacts.

Lemma proper_from_readlines (ls : list text) :
  readlines (concat ls) = ls → proper_lines ls.
Proof. intros <-. apply readlines_proper. Defined.

Lemma add_updated_genetic_parameters_blocks_witness :
  add_updated_genetic_parameters str_int sample_G_int sample_P_int sample_R_int
    (concat sample_par)
  = Ok (concat
          (sample_par_pre ++ [par_line "RANDOM_RESIDUAL VALUES"]
           ++ [par_line "5"] ++ sample_par_mid
           ++ [par_line "(CO)VARIANCES"] ++ [par_line "2"] ++ sample_par_mid
           ++ [par_line "(CO)VARIANCES"] ++ [par_line "3"] ++ sample_par_post)).
Proof.
  apply (add_updated_genetic_parameters_blocks str_int sample_G_int sample_P_int
           sample_R_int sample_par_pre [par_line "1.0"] sample_par_mid
           [par_line "1.0"] sample_par_mid [par_line "1.0"] sample_par_post).
  - simpl. lia.
  - simpl. lia.
  - simpl. lia.
  - repeat constructor.
  - reflexivity.
  - repeat constructor.
  - repeat constructor.
  - repeat constructor.
  - repeat constructor.
  - repeat constructor.
  - repeat constructor.
  - repeat constructor.
  - repeat constructor.
  - apply proper_from_readlines. reflexivity.
Defined.

Lemma add_updated_genetic_parameters_third_block_witness :
  add_updated_genetic_parameters str_int sample_G_int sample_P_int sample_R_int
    (concat (sample_par ++ [par_line "(CO)VARIANCES"; par_line "1.0"]))
  = Raise IndexError.
Proof.
  apply (add_updated_genetic_parameters_third_block str_int sample_G_int
           sample_P_int sample_R_int sample_par_pre [par_line "1.0"]
           sample_par_mid [par_line "1.0"] sample_par_mid [par_line "1.0"]
           sample_par_post []).
  - simpl. lia.
  - simpl. lia.
  - simpl. lia.
  - repeat constructor.
  - reflexivity.
  - repeat constructor.
  - repeat constructor.
  - repeat constructor.
  - repeat constructor.
  - repeat constructor.
  - repeat constructor.
  - repeat constructor.
  - repeat constructor.
  - repeat constructor.
  - repeat constructor.
  - apply proper_from_readlines. reflexivity.
Defined.

Lemma add_updated_genetic_parameters_plain_witness :
  add_updated_genetic_parameters_file str_int sample_G_int sample_P_int
    sample_R_int [newline] crlf_par
  = Ok (chars "RANDOM_GROUP" ++ [newline] ++ chars "OPTION missing 0"
        ++ [newline]).
Proof.
  refine (eq_trans
            (proj1 (add_updated_genetic_parameters_plain str_int sample_G_int
                      sample_P_int sample_R_int [newline] crlf_par _ _)) _);
    reflexivity.
Defined.

(** ** SNP effects and p-values *)

Section SnpFacts.
Context {F : Type} `{Number F}.
Variable ly : layout.
Variable S : Z.

Local Abbreviation L := (Z.to_nat (lactation_dim ly)).
Local Abbreviation T := (Z.to_nat (number_of_traits ly)).
Local Abbreviation K := (Z.to_nat (random_degree ly + 1)).

(** A reader that stores [f value] for every record, as both readers do. *)
Lemma snp_stream (f : F → F)
    (step : snp_record F → tensor4 F → result (tensor4 F))
    (lines : list (snp_record F)) (a : tensor4 F) :
  (∀ count coef snp effect a,
     step (count, coef, snp, effect) a
     = (lactation ← py_floordiv (count - 1) (number_of_traits ly);
        trait ← py_mod (count - 1) (number_of_traits ly);
        setitem4 a lactation trait
          (coef - len_fixed_effects ly - fixed_degree ly - 2) (snp - 1)
          (f effect))) →
  (0 < number_of_traits ly)%Z →
  shape4 L T K (Z.to_nat S) a →
  Forall (snp_in_layout ly S) lines →
  ∃ out,
    for_each lines step a = Ok out ∧
    shape4 L T K (Z.to_nat S) out ∧
    ∀ l t k s : nat, l < L → t < T → k < K → s < Z.to_nat S →
      cell4 out l t k s
      = match snp_last_value ly (l, t, k, s) lines with
        | Some v => Some (f v)
        | None => cell4 a l t k s
        end.
Proof.
  intros Hstep HT Ha Hlines. revert a Ha.
  induction Hlines as [|rec lines Hrec Hlines IH]; intros a Ha.
  - exists a. by split.
  - destruct rec as [[[count coef] snp] effect].
    destruct Hrec as (Hcount & Hcoef & Hsnp).
    destruct (stacked_trait_split ly count HT Hcount) as [Hl Ht].
    assert ((number_of_traits ly =? 0)%Z = false) as HT0 by lia.
    cbn [for_each]. rewrite Hstep. unfold py_floordiv, py_mod. rewrite HT0.
    simpl.
    rewrite (setitem4_nonneg _ _ _ _ _ _ _ _ _ (f effect) Ha) by lia. simpl.
    destruct (IH (store4 (Z.to_nat ((count - 1) / number_of_traits ly))
                    (Z.to_nat ((count - 1) mod number_of_traits ly))
                    (Z.to_nat (coef - len_fixed_effects ly - fixed_degree ly - 2))
                    (Z.to_nat (snp - 1)) (f effect) a))
      as (out & Hout & Hso & Hcells); [by apply store4_shape4|].
    exists out. split; [done|]. split; [done|].
    intros l t k s Hl' Ht' Hk' Hs'. rewrite Hcells by done.
    destruct (snp_last_value ly (l, t, k, s) lines); [done|].
    rewrite cell4_store4. unfold snp_cell.
    destruct (shape4_cell _ _ _ _ a
                (Z.to_nat ((count - 1) / number_of_traits ly))
                (Z.to_nat ((count - 1) mod number_of_traits ly))
                (Z.to_nat (coef - len_fixed_effects ly - fixed_degree ly - 2))
                (Z.to_nat (snp - 1)) Ha) as [x Hx]; [lia..|].
    repeat case_decide; simplify_eq; try done.
    + by rewrite Hx.
    + exfalso. intuition congruence.
    + exfalso. intuition congruence.
Qed.

(** X16.  With [snp_effects] set, [__read_SNP_effects__] raises nothing on
    records that respect the layout, and every cell
    [SNP_effects_coefficients[l, t, k, s]] holds the value of the last
    record stored in it (stacked trait [l·T + t + 1], effect number
    [len(fixed_effects) + fixed_degree + 2 + k], SNP [s + 1]), or what it
    held before when there is none; without [snp_effects] nothing is
    read. *)
Theorem read_SNP_effects_last_write (lines : list (snp_record F))
    (a : tensor4 F) :
  (0 < number_of_traits ly)%Z →
  shape4 L T K (Z.to_nat S) a →
  Forall (snp_in_layout ly S) lines →
  read_SNP_effects ly false lines a = Ok a ∧
  ∃ out,
    read_SNP_effects ly true lines a = Ok out ∧
    shape4 L T K (Z.to_nat S) out ∧
    ∀ l t k s : nat, l < L → t < T → k < K → s < Z.to_nat S →
      cell4 out l t k s
      = match snp_last_value ly (l, t, k, s) lines with
        | Some v => Some v
        | None => cell4 a l t k s
        end.
Proof.
  intros HT Ha Hlines. split; [done|]. unfold read_SNP_effects.
  destruct (snp_stream (λ v, v) (read_SNP_effect ly) lines a)
    as (out & Hout & Hso & Hcells); [done..|].
  exists out. split; [done|]. split; [done|].
  intros l t k s Hl Ht Hk Hs. rewrite Hcells by done.
  by destruct (snp_last_value ly (l, t, k, s) lines).
Qed.

(** X17.  On records that respect the layout, with [snp_p_values] set:
    if the power [10 ** -v] overflows for the value [v] of some record,
    [__read_SNP_p_values__] raises [OverflowError]; if it overflows for none,
    nothing is raised and every cell of [SNP_p_values_coefficients] holds
    [10 ** -v] for the value [v] of the last record stored in it, or what it
    held before when there is none.  Without [snp_p_values] nothing is
    read. *)
Theorem read_SNP_p_values_last_write (ten_to_minus : F → option F)
    (lines : list (snp_record F)) (a : tensor4 F) :
  (0 < number_of_traits ly)%Z →
  shape4 L T K (Z.to_nat S) a →
  Forall (snp_in_layout ly S) lines →
  read_SNP_p_values ly ten_to_minus false lines a = Ok a ∧
  (Exists (λ rec : snp_record F, ten_to_minus rec.2 = None) lines →
   read_SNP_p_values ly ten_to_minus true lines a = Raise OverflowError) ∧
  (Forall (λ rec : snp_record F, is_Some (ten_to_minus rec.2)) lines →
   ∃ out,
     read_SNP_p_values ly ten_to_minus true lines a = Ok out ∧
     shape4 L T K (Z.to_nat S) out ∧
     ∀ l t k s : nat, l < L → t < T → k < K → s < Z.to_nat S →
       cell4 out l t k s
       = match snp_last_value ly (l, t, k, s) lines with
         | Some v => ten_to_minus v
         | None => cell4 a l t k s
         end).
Proof.
  intros HT Ha Hlines. split; [done|]. unfold read_SNP_p_values.
  assert ((number_of_traits ly =? 0)%Z = false) as HT0 by lia.
  assert (∀ count coef snp effect p a,
    snp_in_layout ly S (count, coef, snp, effect) →
    shape4 L T K (Z.to_nat S) a →
    ten_to_minus effect = Some p →
    read_SNP_p_value ly ten_to_minus (count, coef, snp, effect) a
    = Ok (store4 (Z.to_nat ((count - 1) / number_of_traits ly))
            (Z.to_nat ((count - 1) mod number_of_traits ly))
            (Z.to_nat (coef - len_fixed_effects ly - fixed_degree ly - 2))
            (Z.to_nat (snp - 1)) p a)) as Hstore.
  { intros count coef snp effect p a0 (Hcount & Hcoef & Hsnp) Ha0 Hp.
    destruct (stacked_trait_split ly count HT Hcount) as [Hl Ht].
    unfold read_SNP_p_value, py_floordiv, py_mod, py_pow_ten_to_minus.
    rewrite HT0, Hp. simpl.
    by rewrite (setitem4_nonneg _ _ _ _ _ _ _ _ _ p Ha0) by lia. }
  split.
  - intros Hover. revert a Ha.
    induction Hlines as [|rec lines Hrec Hlines IH]; intros a Ha;
      [by apply Exists_nil in Hover|].
    destruct rec as [[[count coef] snp] effect]. cbn [for_each].
    destruct (ten_to_minus effect) as [p|] eqn:Hp.
    + rewrite (Hstore _ _ _ _ p a Hrec Ha Hp). simpl.
      apply IH; [|by apply store4_shape4].
      apply Exists_cons in Hover as [Hhere|Hlater]; [|done].
      simpl in Hhere. congruence.
    + unfold read_SNP_p_value, py_floordiv, py_mod, py_pow_ten_to_minus.
      by rewrite HT0, Hp.
  - intros Hfits. revert a Ha.
    induction Hlines as [|rec lines Hrec Hlines IH]; intros a Ha.
    + exists a. by split.
    + destruct rec as [[[count coef] snp] effect].
      apply Forall_cons in Hfits as [[p Hp] Hfits]. simpl in Hp.
      cbn [for_each]. rewrite (Hstore _ _ _ _ p a Hrec Ha Hp). simpl.
      destruct (IH Hfits
                  (store4 (Z.to_nat ((count - 1) / number_of_traits ly))
                     (Z.to_nat ((count - 1) mod number_of_traits ly))
                     (Z.to_nat (coef - len_fixed_effects ly - fixed_degree ly - 2))
                     (Z.to_nat (snp - 1)) p a))
        as (out & Hout & Hso & Hcells); [by apply store4_shape4|].
      exists out. split; [done|]. split; [done|].
      intros l t k s Hl' Ht' Hk' Hs'. rewrite Hcells by done.
      cbn [snp_last_value].
      destruct (snp_last_value ly (l, t, k, s) lines); [done|].
      destruct Hrec as (Hcount & Hcoef & Hsnp).
      destruct (stacked_trait_split ly count HT Hcount) as [Hl Ht].
      rewrite cell4_store4. unfold snp_cell.
      destruct (shape4_cell _ _ _ _ a
                  (Z.to_nat ((count - 1) / number_of_traits ly))
                  (Z.to_nat ((count - 1) mod number_of_traits ly))
                  (Z.to_nat (coef - len_fixed_effects ly - fixed_degree ly - 2))
                  (Z.to_nat (snp - 1)) Ha) as [x Hx]; [lia..|].
      repeat case_decide; simplify_eq; try done.
      * by rewrite Hx.
      * exfalso. intuition congruence.
      * exfalso. intuition congruence.
Qed.
End SnpFacts.

Lemma sample_snp_lines_in_layout :
  Forall (snp_in_layout sample_layout 3) sample_snp_lines.
Proof. repeat constructor; simpl; lia. Defined.

Lemma sample_snp_coefficients_shape : shape4 1 2 2 3 sample_snp_coefficients.
Proof. repeat constructor. Defined.

Lemma read_SNP_effects_last_write_witness :
  ∃ out,
    read_SNP_effects sample_layout true sample_snp_lines sample_snp_coefficients
    = Ok out ∧
    cell4 out 0 0 0 0 = Some (float_of_int 8) ∧
    cell4 out 0 1 1 2 = Some (float_of_int 6).
Proof.
  destruct (read_SNP_effects_last_write sample_layout 3 sample_snp_lines
              sample_snp_coefficients) as (_ & out & Hout & _ & Hcells).
  - simpl. lia.
  - exact sample_snp_coefficients_shape.
  - exact sample_snp_lines_in_layout.
  - exists out. split; [exact Hout|]. split.
    + apply (Hcells 0 0 0 0); simpl; lia.
    + apply (Hcells 0 1 1 2); simpl; lia.
Defined.

Lemma exact_snp_lines_in_layout :
  Forall (snp_in_layout sample_layout 3) exact_snp_lines.
Proof. repeat constructor; simpl; lia. Defined.

Lemma exact_snp_coefficients_shape : shape4 1 2 2 3 exact_snp_coefficients.
Proof. repeat constructor. Defined.

Lemma read_SNP_p_values_last_write_witness :
  ∃ out,
    read_SNP_p_values sample_layout exact_ten_to_minus true
      exact_snp_lines exact_snp_coefficients = Ok out ∧
    cell4 out 0 1 1 2 = Some (Rpower 10 (- 6)).
Proof.
  destruct (read_SNP_p_values_last_write sample_layout 3 exact_ten_to_minus
              exact_snp_lines exact_snp_coefficients)
    as (_ & _ & Hreads).
  - simpl. lia.
  - exact exact_snp_coefficients_shape.
  - exact exact_snp_lines_in_layout.
  - destruct Hreads as (out & Hout & _ & Hcells).
    + repeat constructor; by eexists.
    + exists out. split; [exact Hout|]. apply (Hcells 0 1 1 2); simpl; lia.
Defined.

Lemma map_result_Forall2 {A B} (f : A → result B) (Q : A → B → Prop)
    (l : list A) :
  (∀ x, x ∈ l → ∃ y, f x = Ok y ∧ Q x y) →
  ∃ ys, map_result f l = Ok ys ∧ Forall2 Q l ys.
Proof.
  induction l as [|x l IH]; intros Hf.
  - exists []. by split.
  - destruct (Hf x) as (y & Hy & HQ); [apply list_elem_of_here|].
    destruct IH as (ys & Hys & HQs).
    { intros x' Hx'. apply Hf. by apply list_elem_of_further. }
    exists (y :: ys). simpl. rewrite Hy. simpl. rewrite Hys. simpl.
    split; [done|]. by constructor.
Qed.

Lemma for_each_overwrite {A St} (xs : list A) (body : A → St → result St)
    (s out : St) :
  xs ≠ [] → (∀ x s, body x s = Ok out) → for_each xs body s = Ok out.
Proof.
  intros Hne Hbody. revert s. induction xs as [|x xs IH]; intros s; [done|].
  simpl. rewrite Hbody. simpl. destruct xs as [|x' xs]; [done|]. by apply IH.
Qed.

Lemma range_nonempty (n : Z) : (0 < n)%Z → range n ≠ [].
Proof.
  intros Hn Hnil. apply (f_equal length) in Hnil. unfold range in Hnil.
  rewrite length_seqZ in Hnil. simpl in Hnil. lia.
Qed.

Section SnpProductFacts.
Context {F : Type} `{Number F}.
Variable ly : layout.
Variable sums : matrix F.
Variables C S : nat.

Local Abbreviation L := (Z.to_nat (lactation_dim ly)).
Local Abbreviation T := (Z.to_nat (number_of_traits ly)).
Local Abbreviation D := (Z.to_nat (dim_max ly - dim_min ly + 1)).
Local Abbreviation K := (Z.to_nat (random_degree ly + 1)).

Hypothesis Hsums : shape2 D C sums.
Hypothesis Hdeg : (0 < random_degree ly + 1 ≤ Z.of_nat C)%Z.

(** [sums[:, range(random_degree + 1)] @ coefficients] *)
Lemma snp_product (coefficients : tensor4 F) :
  shape4 L T K S coefficients →
  ∃ out,
    (columns ← take_columns sums (range (random_degree ly + 1));
     matmul_stack columns coefficients) = Ok out ∧
    shape4 L T D S out ∧
    ∀ l t d s : nat, l < L → t < T → d < D → s < S →
      cell4 out l t d s
      = Some (sigma K (λ k, fmul (entry2 sums d k) (entry4 coefficients l t k s))).
Proof.
  intros [HcL Hc].
  rewrite (take_columns_range D C) by (done || lia). simpl.
  set (cols := take (Z.to_nat (random_degree ly + 1)) <$> sums).
  assert (shape2 D K cols) as Hcols by (apply (take_shape2 D C); [done|lia]).
  unfold matmul_stack.
  destruct (map_result_Forall2 (map_result (matmul cols))
    (λ (b : tensor3 F) (c : tensor3 F),
       Forall2 (λ (m : matrix F) (p : matrix F),
         shape2 D S p ∧
         ∀ d s, d < D → s < S →
           entry2 p d s = sigma K (λ k, fmul (entry2 cols d k) (entry2 m k s)))
         b c) coefficients) as (out & Hout & Hall).
  { intros b Hb. rewrite Forall_forall in Hc.
    destruct (Hc b Hb) as [HbT Hbs].
    apply map_result_Forall2. intros m Hm. rewrite Forall_forall in Hbs.
    destruct (matmul_spec D K S cols m Hcols (Hbs m Hm)) as (p & Hp & Hsp & Hpe);
      [lia|].
    by exists p. }
  exists out. split; [done|].
  assert (∀ l t, l < L → t < T →
    ∃ m p, cell2 coefficients l t = Some m ∧ cell2 out l t = Some p ∧
           shape2 D S p ∧
           ∀ d s, d < D → s < S →
             entry2 p d s = sigma K (λ k, fmul (entry2 cols d k) (entry2 m k s)))
    as Hcell.
  { intros l t Hl Ht.
    destruct (lookup_lt_is_Some_2 coefficients l) as [b Hb]; [lia|].
    destruct (Forall2_lookup_l _ _ _ _ _ Hall Hb) as (c & Hc' & Hbc).
    pose proof (Forall_lookup_1 _ _ _ _ Hc Hb) as [HbT _].
    destruct (lookup_lt_is_Some_2 b t) as [m Hm]; [lia|].
    destruct (Forall2_lookup_l _ _ _ _ _ Hbc Hm) as (p & Hp & Hsp & Hpe).
    exists m, p. unfold cell2. rewrite Hb, Hc'. simpl. by rewrite Hm, Hp. }
  split.
  - split; [by rewrite <- (Forall2_length _ _ _ Hall)|].
    apply Forall_lookup. intros l c Hlc.
    assert (l < L) as Hl.
    { apply lookup_lt_Some in Hlc. rewrite <- (Forall2_length _ _ _ Hall) in Hlc.
      lia. }
    destruct (lookup_lt_is_Some_2 coefficients l) as [b Hb]; [lia|].
    pose proof (Forall2_lookup_lr _ _ _ _ _ _ Hall Hb Hlc) as Hbc.
    pose proof (Forall_lookup_1 _ _ _ _ Hc Hb) as [HbT _].
    split; [by rewrite <- (Forall2_length _ _ _ Hbc)|].
    apply Forall_lookup. intros t p Htp.
    assert (t < T) as Ht.
    { apply lookup_lt_Some in Htp. rewrite <- (Forall2_length _ _ _ Hbc) in Htp.
      lia. }
    destruct (lookup_lt_is_Some_2 b t) as [m Hm]; [lia|].
    by destruct (Forall2_lookup_lr _ _ _ _ _ _ Hbc Hm Htp) as [Hsp _].
  - intros l t d s Hl Ht Hd Hs.
    destruct (Hcell l t Hl Ht) as (m & p & Hm & Hp & Hsp & Hpe).
    assert (cell4 out l t d s = cell2 out l t ≫= (λ p, cell2 p d s)) as ->.
    { unfold cell4, cell3, cell2. by destruct (out !! l) as [c|]. }
    rewrite Hp. simpl. rewrite (shape2_cell D S) by done. f_equal.
    rewrite Hpe by done. apply sigma_ext. intros k Hk. f_equal.
    + unfold cols. by rewrite take_entry2.
    + unfold entry4, entry2.
      assert (cell4 coefficients l t k s
              = cell2 coefficients l t ≫= (λ m, cell2 m k s)) as ->; [|by rewrite Hm].
      unfold cell4, cell3, cell2. by destruct (coefficients !! l) as [c|].
Qed.

Lemma for_each_ranges_overwrite (body : result (tensor4 F))
    (st out : tensor4 F) :
  (0 < lactation_dim ly)%Z → (0 < number_of_traits ly)%Z →
  (0 < animal_count ly)%Z →
  body = Ok out →
  for_each (range (lactation_dim ly))
    (λ i st,
       for_each (range (number_of_traits ly))
         (λ j st, for_each (range (animal_count ly)) (λ k st, body) st) st)
    st
  = Ok out.
Proof.
  intros HL HT HN Hbody.
  apply for_each_overwrite; [by apply range_nonempty|]. intros i s.
  apply for_each_overwrite; [by apply range_nonempty|]. intros j s'.
  apply for_each_overwrite; [by apply range_nonempty|]. done.
Qed.

Lemma for_each_ranges_skipped (body : result (tensor4 F)) (st : tensor4 F) :
  animal_count ly = 0%Z →
  for_each (range (lactation_dim ly))
    (λ i st,
       for_each (range (number_of_traits ly))
         (λ j st, for_each (range (animal_count ly)) (λ k st, body) st) st)
    st
  = Ok st.
Proof.
  intros ->. generalize (range (lactation_dim ly)). intros xs.
  induction xs as [|i xs IH]; [done|]. simpl.
  assert (∀ js : list Z,
    for_each js (λ j st, for_each (range 0) (λ k st, body) st) st = Ok st)
    as -> by (intros js; induction js; [done|simpl; done]).
  done.
Qed.

(** X18.  [__compute_SNP_effects__] and [__compute_SNP_p_values__] raise
    nothing on fields of the allocated shapes.  With at least one
    lactation, trait and animal the whole field is the product of the
    partial sums with the coefficients: at [(l, t, d, s)] the sum over
    [k <= random_degree] of [legendre_partial_sums[d, k] ·
    coefficients[l, t, k, s]], the same after every iteration of the three
    loops.  With no animal the loops have no iteration and the field is left
    as it was. *)
Theorem compute_SNP_values_spec (coefficients st : tensor4 F) :
  shape4 L T K S coefficients →
  ((0 < lactation_dim ly)%Z → (0 < number_of_traits ly)%Z →
   (0 < animal_count ly)%Z →
   ∃ out,
     compute_SNP_effects ly sums coefficients st = Ok out ∧
     compute_SNP_p_values ly sums coefficients st = Ok out ∧
     shape4 L T D S out ∧
     ∀ l t d s : nat, l < L → t < T → d < D → s < S →
       cell4 out l t d s
       = Some (sigma K (λ k, fmul (entry2 sums d k)
                               (entry4 coefficients l t k s)))) ∧
  (animal_count ly = 0%Z →
   compute_SNP_effects ly sums coefficients st = Ok st ∧
   compute_SNP_p_values ly sums coefficients st = Ok st).
Proof.
  intros Hc. split.
  - intros HL HT HN.
    destruct (snp_product coefficients Hc) as (out & Hout & Hso & Hcells).
    exists out. unfold compute_SNP_effects, compute_SNP_p_values.
    by rewrite !(for_each_ranges_overwrite _ st out).
  - intros HN. unfold compute_SNP_effects, compute_SNP_p_values.
    by rewrite !for_each_ranges_skipped.
Qed.
End SnpProductFacts.

Lemma compute_SNP_values_spec_witness :
  ∃ out,
    compute_SNP_effects sample_layout sample_sums sample_additive
      (zeros4 1 2 2 2) = Ok out ∧
    cell4 out 0 1 1 0
    = Some (sigma 2 (λ k, fmul (entry2 sample_sums 1 k)
                            (entry4 sample_additive 0 1 k 0))).
Proof.
  destruct (compute_SNP_values_spec sample_layout sample_sums 2 2)
    with (coefficients := sample_additive) (st := zeros4 (F:=float) 1 2 2 2)
    as [Hrun _].
  - repeat constructor.
  - simpl. lia.
  - repeat constructor.
  - destruct Hrun as (out & Hout & _ & _ & Hcells); [simpl; lia..|].
    exists out. split; [exact Hout|]. apply (Hcells 0 1 1 0); simpl; lia.
Defined.

(** ** Edge behaviour of the PEV-PEC reader *)

Section PevPecEdges.
Context {F : Type} `{Number F}.

(** Where the loop over the values of a line stands after them. *)
Lemma store_packed_position (N K : nat) (animal : Z) (elems : list F) :
  (0 ≤ animal < Z.of_nat N)%Z →
  ∀ (a : tensor3 F) (row col : nat),
    shape3 N K K a → col ≤ row →
    packed_index row col + length elems ≤ triangular K →
    ∃ a1 (row' col' : nat),
      for_each elems (store_packed animal) (a, Z.of_nat row, Z.of_nat col)
      = Ok (a1, Z.of_nat row', Z.of_nat col') ∧
      shape3 N K K a1 ∧ col' ≤ row' ∧
      packed_index row' col' = packed_index row col + length elems.
Proof.
  intros Han. induction elems as [|x elems IH]; intros a row col Hs Hcol Hfit.
  - exists a, row, col. split; [done|]. split; [done|]. split; [done|].
    simpl. lia.
  - simpl in Hfit. cbn [for_each].
    assert (row < K) as Hrow by (apply (packed_index_bound row col); lia).
    rewrite store_packed_step.
    rewrite (setitem3_nonneg N K K) by (done || lia). simpl.
    set (a' := store3 (Z.to_nat animal) (Z.to_nat (Z.of_nat row))
                 (Z.to_nat (Z.of_nat col)) x a).
    assert (shape3 N K K a') as Hs' by (by apply store3_shape3).
    destruct (decide (col = row)) as [->|Hne].
    + rewrite Z.eqb_refl.
      destruct (IH a' (S row) 0 Hs') as (a1 & row' & col' & Hrun & Hs1 & Hle & Hpos).
      { lia. }
      { unfold packed_index in *. rewrite triangular_S. lia. }
      exists a1, row', col'.
      replace (Z.of_nat row + 1)%Z with (Z.of_nat (S row)) by lia.
      split; [done|]. split; [done|]. split; [done|].
      rewrite Hpos. unfold packed_index. rewrite triangular_S. simpl. lia.
    + assert ((Z.of_nat col =? Z.of_nat row)%Z = false) as ->
        by (apply Z.eqb_neq; lia).
      destruct (IH a' row (S col) Hs') as (a1 & row' & col' & Hrun & Hs1 & Hle & Hpos).
      { lia. }
      { unfold packed_index in *. lia. }
      exists a1, row', col'.
      replace (Z.of_nat col + 1)%Z with (Z.of_nat (S col)) by lia.
      split; [done|]. split; [done|]. split; [done|].
      rewrite Hpos. unfold packed_index. simpl. lia.
Qed.

Lemma result_bind_Ok {A B} (a : A) (f : A → result B) : Ok a ≫= f = f a.
Proof. done. Qed.

Lemma for_each_raise {A St} (xs : list A) (body : A → St → result St)
    (x : A) (s : St) (e : exn) :
  body x s = Raise e → for_each (x :: xs) body s = Raise e.
Proof. intros Hx. simpl. by rewrite Hx. Qed.

(** X19.  A line of [pev_pec_bf90] with more values than the lower triangle
    of the animal's matrix has cells is a fatal error: the first value
    beyond the triangle is assigned to a row that does not exist, and
    [__read_pev_pec__] raises [IndexError]. *)
Theorem read_pev_pec_line_overlong (N K : nat) (id : Z) (elems : list F)
    (a : tensor3 F) :
  shape3 N K K a → (1 ≤ id ≤ Z.of_nat N)%Z →
  triangular K < length elems →
  read_pev_pec_line (id, elems) a = Raise IndexError.
Proof.
  intros Hs Hid Hlong. unfold read_pev_pec_line. cbn [fst snd].
  rewrite <- (take_drop (triangular K) elems), for_each_app.
  destruct (store_packed_position N K (id - 1) (take (triangular K) elems))
    with (a := a) (row := 0) (col := 0)
    as (a1 & row' & col' & Hrun & Hs1 & Hle & Hpos); [lia|done|lia| |].
  { rewrite length_take. unfold packed_index. change (triangular 0) with 0.
    lia. }
  change (Z.of_nat 0) with 0%Z in Hrun. rewrite Hrun. clear Hrun.
  rewrite length_take in Hpos.
  replace (packed_index 0 0 + triangular K `min` length elems)
    with (packed_index K 0) in Hpos
    by (unfold packed_index; change (triangular 0) with 0; lia).
  apply packed_index_inj in Hpos as [-> ->]; [|done|lia].
  destruct (drop (triangular K) elems) as [|x rest] eqn:Hdrop.
  { apply (f_equal length) in Hdrop. rewrite length_drop in Hdrop.
    simpl in Hdrop. lia. }
  assert (setitem3 a1 (id - 1) (Z.of_nat K) (Z.of_nat 0) x = Raise IndexError)
    as Hset.
  2: { rewrite result_bind_Ok.
       by rewrite (for_each_raise rest _ x _ IndexError)
         by (by rewrite store_packed_step, Hset). }
  destruct Hs1 as [HN Hall].
  destruct (lookup_lt_is_Some_2 a1 (Z.to_nat (id - 1))) as [m Hm]; [lia|].
  pose proof (Forall_lookup_1 _ _ _ _ Hall Hm) as [HmK _].
  unfold setitem3. unfold np_at at 1. rewrite np_index_nonneg by lia.
  simpl. rewrite Hm. unfold setitem2. by rewrite np_at_beyond by lia.
Qed.
End PevPecEdges.

Lemma read_pev_pec_line_overlong_witness :
  read_pev_pec_line (1%Z, [1%R; 2%R; 3%R; 4%R]) exact_PEV_PECs
  = Raise IndexError.
Proof.
  apply (read_pev_pec_line_overlong 2 2).
  - repeat split; repeat constructor.
  - lia.
  - vm_compute. lia.
Defined.

(** X20.  The reader adds to the values of a line what the animal's matrix
    held above the diagonal.  Hence a line read a second time for the same
    animal doubles every off-diagonal entry it covers, on both sides of the
    diagonal, while the diagonal keeps the values of the line.  Over exact
    arithmetic, from a matrix whose strict upper triangle is zero. *)
Theorem read_pev_pec_repeated_line (N K : nat) (id : Z) (elems : list R)
    (a : tensor3 R) :
  shape3 N K K a → 0 < K → (1 ≤ id ≤ Z.of_nat N)%Z →
  length elems ≤ triangular K →
  (∀ r c, r < c → c < K → entry3 a (Z.to_nat (id - 1)) r c = 0%R) →
  ∃ a2,
    read_pev_pec [(id, elems); (id, elems)] a = Ok a2 ∧
    (∀ r, r < K → packed_index r r < length elems →
       cell3 a2 (Z.to_nat (id - 1)) r r
       = Some (entry1 elems (packed_index r r))) ∧
    (∀ r c, c < r → r < K → packed_index r c < length elems →
       cell3 a2 (Z.to_nat (id - 1)) r c
         = Some (2 * entry1 elems (packed_index r c))%R ∧
       cell3 a2 (Z.to_nat (id - 1)) c r
         = Some (2 * entry1 elems (packed_index r c))%R).
Proof.
  intros Hs HK Hid Hlen Hzero.
  destruct (read_pev_pec_line_spec N K id elems a Hs HK Hid Hlen)
    as (a1 & Hrun1 & Hs1 & _ & Hcells1).
  destruct (read_pev_pec_line_spec N K id elems a1 Hs1 HK Hid Hlen)
    as (a2 & Hrun2 & _ & _ & Hcells2).
  exists a2. unfold read_pev_pec. cbn [for_each]. rewrite Hrun1. simpl.
  rewrite Hrun2. split; [done|].
  set (an := Z.to_nat (id - 1)) in *.
  assert (∀ (b : tensor3 R) r c, c ≤ r → packed_index r c < length elems →
    unpacked b an elems r c = entry1 elems (packed_index r c)) as Hlow.
  { intros b r c Hc Hidx. unfold unpacked. rewrite decide_True; [done|].
    unfold packed_covers, packed_index in *. simpl. lia. }
  assert (∀ (b : tensor3 R) r c, r < c →
    unpacked b an elems r c = entry3 b an r c) as Hup.
  { intros b r c Hc. unfold unpacked. rewrite decide_False; [done|].
    unfold packed_covers. lia. }
  split.
  - intros r Hr Hidx. rewrite Hcells2 by done. f_equal.
    unfold symmetrized. rewrite decide_True by done.
    rewrite Hlow by (done || lia). simpl. field.
  - intros r c Hc Hr Hidx. rewrite !Hcells2 by lia.
    unfold symmetrized. rewrite !decide_False by lia.
    rewrite (Hlow a1 r c), (Hup a1 c r) by (done || lia).
    unfold entry3 at 1 2. rewrite Hcells1 by lia. simpl.
    unfold symmetrized. rewrite decide_False by lia.
    rewrite (Hlow a r c), (Hup a c r), (Hzero c r) by (done || lia). simpl.
    split; f_equal; lra.
Qed.

Lemma read_pev_pec_repeated_line_witness :
  ∃ a2,
    read_pev_pec [(1%Z, [1%R; 2%R; 3%R]); (1%Z, [1%R; 2%R; 3%R])]
      exact_PEV_PECs = Ok a2 ∧
    cell3 a2 0 1 0 = Some (2 * entry1 [1%R; 2%R; 3%R] 1)%R.
Proof.
  destruct (read_pev_pec_repeated_line 2 2 1 [1%R; 2%R; 3%R] exact_PEV_PECs)
    as (a2 & Hrun & _ & Hoff).
  - repeat split; repeat constructor.
  - lia.
  - lia.
  - vm_compute. lia.
  - intros [|[|r]] [|[|c]] Hrc Hc; try lia; reflexivity.
  - exists a2. split; [exact Hrun|].
    apply (Hoff 1 0); [lia|lia|vm_compute; lia].
Defined.

(** ** Extents of the basis *)

(** X21.  Once the allocations that precede them in [__init__] have
    succeeded, which takes [fixed_degree ≥ -1], [random_degree ≥ -1] and
    [dim_max ≥ dim_min - 1], the basis lines raise nothing, not even for an
    empty DIM range, for a range of a single day (where the rescaling divides
    by zero) or for the degree [-1]: the grid has [dim_max - dim_min + 1]
    points, the Legendre table and the cumulative table have that many rows
    and [max(fixed_degree, random_degree) + 1] columns. *)
Theorem build_basis_extents {F} `{Number F} (ly : layout) :
  let D := (dim_max ly - dim_min ly + 1)%Z in
  let C := (degree ly + 1)%Z in
  (0 ≤ fixed_degree ly + 1)%Z → (0 ≤ random_degree ly + 1)%Z → (0 ≤ D)%Z →
  ∃ b, build_basis (F:=F) ly = Ok b ∧
       length (scaled_dim_range b) = Z.to_nat D ∧
       shape2 (Z.to_nat D) (Z.to_nat C) (legendre_coefficients b) ∧
       shape2 (Z.to_nat D) (Z.to_nat C) (legendre_partial_sums b).
Proof.
  intros D C Hfd Hrd HD.
  assert (0 ≤ C)%Z as HC by (unfold C, degree; lia).
  unfold build_basis, np_zeros2. fold D C.
  assert (((D <? 0) || (C <? 0))%Z = false) as -> by lia.
  simpl.
  assert (∃ table : matrix F,
    add_legendre_coefficients ly (scale_dim_range ly) (zeros2 D C) = Ok table
    ∧ shape2 (Z.to_nat D) (Z.to_nat C) table) as (table & -> & Hshape).
  { destruct (decide (degree ly = (-1)%Z)) as [Hdeg|Hdeg].
    - exists (zeros2 D C). split; [|apply (zeros2_shape (F:=F))].
      unfold add_legendre_coefficients. by rewrite Hdeg.
    - destruct (add_legendre_coefficients_spec (F:=F) ly (scale_dim_range ly)
                  (zeros2 D C)) as (table & Htable & Hshape & _);
        [unfold C in HC; lia|apply length_scale_dim_range
        |apply (zeros2_shape (F:=F))|].
      by exists table. }
  simpl.
  assert (random_degree ly + 1 ≤ Z.of_nat (Z.to_nat C))%Z as Hle
    by (unfold C, degree in *; lia).
  rewrite (take_columns_range (Z.to_nat D) (Z.to_nat C) table) by done.
  simpl.
  rewrite (take_columns_range (Z.to_nat D) (Z.to_nat C) (cumsum0 table))
    by (done || by apply cumsum0_shape).
  simpl. eexists. split; [done|]. simpl.
  split; [apply length_scale_dim_range|]. split; [done|].
  by apply cumsum0_shape.
Qed.

Lemma build_basis_extents_witness :
  ∃ b, build_basis (F:=float) no_fixed_curve_layout = Ok b ∧
       length (scaled_dim_range b) = 1 ∧
       shape2 1 1 (legendre_coefficients b) ∧
       shape2 1 1 (legendre_partial_sums b).
Proof.
  apply (build_basis_extents (F:=float) no_fixed_curve_layout); simpl; lia.
Defined.

(** X22.  For a DIM range of a single day the rescaling of the grid computes
    [0 / 0]: on IEEE floats nothing is raised and the only grid point of the
    basis is NaN. *)
Theorem single_day_grid (ly : layout) :
  dim_min ly = dim_max ly → (0 ≤ degree ly)%Z →
  ∃ b, build_basis (F:=float) ly = Ok b ∧ scaled_dim_range b = [PrimFloat.nan].
Proof.
  intros Hday Hdeg.
  destruct (build_basis_spec (F:=float) ly) as (b & Hb & Hgrid & _);
    [lia|done|].
  exists b. split; [done|]. rewrite Hgrid. unfold scale_dim_range, arange.
  rewrite <- Hday.
  replace (dim_min ly + 1 - dim_min ly)%Z with 1%Z by lia.
  cbn [seqZ]. simpl.
  replace (Z.of_nat 0 + dim_min ly - dim_min ly)%Z with 0%Z by lia.
  rewrite Z.sub_diag. reflexivity.
Qed.

Lemma single_day_grid_witness :
  ∃ b, build_basis (F:=float)
         {| len_fixed_effects := 0; fixed_degree := 0; random_degree := 0;
            number_of_traits := 1; lactation_dim := 1; animal_count := 1;
            dim_min := 5; dim_max := 5 |} = Ok b
       ∧ scaled_dim_range b = [PrimFloat.nan].
Proof.
  apply single_day_grid.
  - reflexivity.
  - discriminate.
Defined.

(** ** Averages and bounds of the PEV/REL engine *)

(** X24.  [avg_PEVs] is the mean of the prediction-error variance over the
    DIM axis only: one value for every (lactation, trait, animal), of shape
    [(L, T, N)]. *)
Theorem avg_PEVs_spec {F : Type} `{Number F} (ly : layout)
    (B : matrix F) (PEV_PECs var_G : tensor3 F) (inbreeding : bool)
    (inbreeding_coefficients : list F) (st : reliabilities F) :
  pev_rel_inputs ly B PEV_PECs var_G inbreeding inbreeding_coefficients →
  reliabilities_allocated ly st →
  ∃ out,
    compute_pevs_rels ly B PEV_PECs var_G inbreeding inbreeding_coefficients st
    = Ok out ∧
    shape3 (Z.to_nat (lactation_dim ly)) (Z.to_nat (number_of_traits ly))
           (Z.to_nat (animal_count ly)) (avg_PEVs out) ∧
    ∀ lactation trait j : nat,
      lactation < Z.to_nat (lactation_dim ly) →
      trait < Z.to_nat (number_of_traits ly) →
      j < Z.to_nat (animal_count ly) →
      let i := lactation * Z.to_nat (number_of_traits ly) + trait in
      cell3 (avg_PEVs out) lactation trait j
      = Some (mean_over (Z.to_nat (dim_max ly - dim_min ly + 1))
                (prediction_error_variance ly B PEV_PECs i j)).
Proof.
  intros Hin Hal.
  destruct (pev_rel_engine_result ly B PEV_PECs var_G inbreeding
              inbreeding_coefficients Hin st Hal)
    as (out & Hout & Hcells & HsP & _).
  exists out. split; [done|]. split.
  - destruct (compute_pevs_rels_averages _ _ _ _ _ _ _ _ Hout) as [-> _].
    by eapply mean_axis3_shape.
  - intros l t j Hl Ht Hj. cbv zeta.
    by destruct (Hcells l t j Hl Ht Hj) as (_ & _ & HP & _).
Qed.

Lemma avg_PEVs_spec_witness :
  ∃ out,
    compute_pevs_rels sample_layout sample_basis sample_PEV_PECs sample_var_G
      true sample_inbreeding sample_reliabilities = Ok out ∧
    cell3 (avg_PEVs out) 0 1 1
    = Some (mean_over 2 (prediction_error_variance sample_layout sample_basis
                           sample_PEV_PECs 1 1)).
Proof.
  destruct (avg_PEVs_spec sample_layout sample_basis sample_PEV_PECs
              sample_var_G true sample_inbreeding sample_reliabilities
              sample_pev_rel_inputs sample_reliabilities_allocated)
    as (out & Hout & _ & Hcells).
  exists out. split; [exact Hout|]. apply (Hcells 0 1 1); simpl; lia.
Defined.

(** X25.  Over exact arithmetic, wherever the genetic variance the
    reliability is taken against ([var_G], times [1 + F_j] with inbreeding)
    is positive, the stored reliability is at most 1 when the stored PEV is
    not negative, and not negative when the PEV does not exceed that
    variance. *)
Theorem reliability_bounds (ly : layout) (B : matrix R)
    (PEV_PECs var_G : tensor3 R) (inbreeding : bool)
    (inbreeding_coefficients : list R) (st : reliabilities R) :
  pev_rel_inputs ly B PEV_PECs var_G inbreeding inbreeding_coefficients →
  reliabilities_allocated ly st →
  ∃ out,
    compute_pevs_rels ly B PEV_PECs var_G inbreeding inbreeding_coefficients st
    = Ok out ∧
    ∀ lactation trait j d : nat,
      lactation < Z.to_nat (lactation_dim ly) →
      trait < Z.to_nat (number_of_traits ly) →
      j < Z.to_nat (animal_count ly) →
      d < Z.to_nat (dim_max ly - dim_min ly + 1) →
      let vg := entry3 var_G lactation trait d in
      let base := if inbreeding
                  then (vg * (1 + entry1 inbreeding_coefficients j))%R
                  else vg in
      (0 < base)%R →
      ∃ pev rel,
        cell4 (PEVs out) lactation trait j d = Some pev ∧
        cell4 (RELs out) lactation trait j d = Some rel ∧
        ((0 <= pev)%R → (rel <= 1)%R) ∧
        ((pev <= base)%R → (0 <= rel)%R).
Proof.
  intros Hin Hal.
  destruct (pev_rel_engine_result ly B PEV_PECs var_G inbreeding
              inbreeding_coefficients Hin st Hal) as (out & Hout & Hcells & _).
  exists out. split; [done|].
  intros l t j d Hl Ht Hj Hd vg base Hbase.
  destruct (Hcells l t j Hl Ht Hj) as (HP & HR & _).
  rewrite !cell4_row, HP, HR. simpl. rewrite !lookup_curve by done.
  eexists _, _. split; [done|]. split; [done|].
  unfold reliability.
  set (pev := prediction_error_variance ly B PEV_PECs
                (l * Z.to_nat (number_of_traits ly) + t) j d).
  assert (reliability_base ly var_G inbreeding inbreeding_coefficients
            (l * Z.to_nat (number_of_traits ly) + t) j d = base) as ->.
  { unfold reliability_base, base, vg.
    rewrite Nat.div_add_l, Nat.div_small, Nat.add_0_r by lia.
    rewrite (Nat.add_comm _ t), Nat.Div0.mod_add, Nat.mod_small by lia.
    done. }
  simpl. split; intros Hp.
  - assert (0 <= pev / base)%R.
    { unfold Rdiv. apply Rmult_le_pos; [done|].
      apply Rlt_le, Rinv_0_lt_compat. done. }
    lra.
  - assert (pev / base <= 1)%R.
    { apply (Rmult_le_reg_r base); [done|].
      unfold Rdiv. rewrite Rmult_assoc, Rinv_l by lra. lra. }
    lra.
Qed.

Lemma exact_pev_rel_inputs :
  pev_rel_inputs minimal_layout exact_ones_basis exact_unit_PEV_PECs
    exact_var_G false [].
Proof.
  unfold pev_rel_inputs. simpl.
  repeat split; try lia; try discriminate; repeat constructor.
Defined.

Lemma exact_reliabilities_allocated :
  reliabilities_allocated minimal_layout exact_reliabilities.
Proof. repeat split; repeat constructor. Defined.

Lemma reliability_bounds_witness :
  ∃ out pev rel,
    compute_pevs_rels minimal_layout exact_ones_basis exact_unit_PEV_PECs
      exact_var_G false [] exact_reliabilities = Ok out ∧
    cell4 (PEVs out) 0 0 0 0 = Some pev ∧
    cell4 (RELs out) 0 0 0 0 = Some rel.
Proof.
  destruct (reliability_bounds minimal_layout exact_ones_basis
              exact_unit_PEV_PECs exact_var_G false [] exact_reliabilities
              exact_pev_rel_inputs exact_reliabilities_allocated)
    as (out & Hout & Hcells).
  destruct (Hcells 0 0 0 0) as (pev & rel & HP & HR & _);
    [simpl; lia..|vm_compute; lra|].
  exists out, pev, rel. split; [exact Hout|]. split; [exact HP|exact HR].
Defined.

Lemma minimal_solutions_allocated : allocated minimal_layout minimal_solutions.
Proof. repeat split; repeat constructor. Defined.

Lemma read_solution_beyond_layout_witness :
  read_solution minimal_layout (1, 4, 1, float_of_int 2)%Z minimal_solutions
  = Raise IndexError.
Proof.
  apply read_solution_beyond_layout.
  - exact minimal_solutions_allocated.
  - simpl. lia.
  - simpl. lia.
  - simpl. lia.
  - simpl. lia.
  - simpl. lia.
  - simpl. lia.
Defined.

(** ** Indices below the layout *)

Lemma np_at_negative {A} (a : list A) (i : Z) (f : A → result A) (x x' : A) :
  (- Z.of_nat (length a) ≤ i < 0)%Z →
  a !! Z.to_nat (i + Z.of_nat (length a)) = Some x → f x = Ok x' →
  np_at a i f = Ok (<[Z.to_nat (i + Z.of_nat (length a)) := x']> a).
Proof.
  intros Hi Hx Hf. unfold np_at. rewrite np_index_negative by done. simpl.
  by rewrite Hx, Hf.
Qed.

(** X26.  A level below 1 is not rejected: numpy counts a negative index
    from the end, so a record of the additive band with level [0] is stored
    for the last animal, and more generally a level in [-N+1 .. 0] for the
    animal [N + level] (counted from 1), silently overwriting that animal's
    coefficient. *)
Theorem read_solution_level_wraps {F} (ly : layout) (st : solutions F)
    (trait effect level : Z) (v : F) :
  allocated ly st →
  (0 < number_of_traits ly)%Z →
  (0 ≤ fixed_degree ly)%Z → (0 ≤ random_degree ly)%Z →
  (1 ≤ trait ≤ lactation_dim ly * number_of_traits ly)%Z →
  (- animal_count ly < level ≤ 0)%Z →
  (len_fixed_effects ly + fixed_degree ly + 1 < effect
   ≤ len_fixed_effects ly + fixed_degree ly + random_degree ly + 2)%Z →
  read_solution ly (trait, effect, level, v) st
  = Ok {| FE := FE st;
          fixed_curve_coefficients := fixed_curve_coefficients st;
          additive_coefficients :=
            store4 (Z.to_nat ((trait - 1) / number_of_traits ly))
                   (Z.to_nat ((trait - 1) mod number_of_traits ly))
                   (Z.to_nat (animal_count ly + level - 1))
                   (Z.to_nat (effect - len_fixed_effects ly - fixed_degree ly - 2))
                   v (additive_coefficients st);
          permanent_coefficients := permanent_coefficients st |}.
Proof.
  intros (_ & [HaL Hadd] & _) HT Hfd Hrd Htr Hlev Heff.
  destruct (stacked_trait_split ly trait HT Htr) as [Hl Ht].
  assert ((number_of_traits ly =? 0)%Z = false) as HT0 by lia.
  unfold read_solution, py_floordiv, py_mod. rewrite HT0.
  destruct (Z.leb_spec effect (len_fixed_effects ly)); [lia|].
  destruct (Z.leb_spec effect (len_fixed_effects ly + fixed_degree ly + 1)); [lia|].
  destruct (Z.leb_spec effect
    (len_fixed_effects ly + fixed_degree ly + random_degree ly + 2)); [|lia].
  simpl. set (a := additive_coefficients st) in *.
  set (i := Z.to_nat ((trait - 1) / number_of_traits ly)).
  set (j := Z.to_nat ((trait - 1) mod number_of_traits ly)).
  set (l := Z.to_nat (effect - len_fixed_effects ly - fixed_degree ly - 2)).
  destruct (lookup_lt_is_Some_2 a i) as [t3 H3]; [lia|].
  pose proof (Forall_lookup_1 _ _ _ _ Hadd H3) as [Hlen3 Hall3].
  destruct (lookup_lt_is_Some_2 t3 j) as [t2 H2']; [lia|].
  pose proof (Forall_lookup_1 _ _ _ _ Hall3 H2') as [Hlen2 Hall2].
  destruct (lookup_lt_is_Some_2 t2 (Z.to_nat (animal_count ly + level - 1)))
    as [t1 H1']; [lia|].
  pose proof (Forall_lookup_1 _ _ _ _ Hall2 H1') as Hlen1. unfold shape1 in Hlen1.
  assert (setitem4 a ((trait - 1) / number_of_traits ly)
            ((trait - 1) mod number_of_traits ly) (level - 1)
            (effect - len_fixed_effects ly - fixed_degree ly - 2) v
          = Ok (store4 i j (Z.to_nat (animal_count ly + level - 1)) l v a))
    as ->; [|done].
  unfold setitem4, setitem3, setitem2.
  assert (Z.to_nat (level - 1 + Z.of_nat (length t2))
          = Z.to_nat (animal_count ly + level - 1)) as Hk by lia.
  erewrite (np_at_nonneg a); [|lia|exact H3|].
  2: { erewrite (np_at_nonneg t3); [|lia|exact H2'|].
       2: { erewrite (np_at_negative t2); [|lia|by rewrite Hk|].
            2: { apply setitem1_nonneg. lia. }
            rewrite Hk. done. }
       done. }
  f_equal. unfold store4, store3, store2.
  rewrite (alter_insert _ a i t3 H3). f_equal.
  rewrite (alter_insert _ t3 j t2 H2'). f_equal.
  by rewrite (alter_insert _ t2 _ t1 H1').
Qed.

Lemma read_solution_level_wraps_witness :
  read_solution minimal_layout (1, 2, 0, float_of_int 7)%Z minimal_solutions
  = Ok {| FE := [];
          fixed_curve_coefficients := [[[float_of_int 0]]];
          additive_coefficients := [[[[float_of_int 7]]]];
          permanent_coefficients := [[[[float_of_int 0]]]] |}.
Proof.
  apply (read_solution_level_wraps minimal_layout minimal_solutions 1 2 0).
  - exact minimal_solutions_allocated.
  - simpl. lia.
  - simpl. lia.
  - simpl. lia.
  - simpl. lia.
  - simpl. lia.
  - simpl. lia.
Defined.

(** ** Parents beyond the pedigree *)

Lemma np_get_Ok_or_IndexError {A} (a : list A) (i : Z) :
  (∃ x, np_get a i = Ok x) ∨ np_get a i = Raise IndexError.
Proof.
  unfold np_get. destruct (np_index (length a) i) as [k|e] eqn:Hk; simpl.
  - destruct (a !! k); [left; by eexists|by right].
  - right. unfold np_index in Hk.
    repeat (destruct (_ && _) in Hk; try discriminate). by injection Hk as <-.
Qed.

Lemma gather_raises {A} (row : list A) (idx : list Z) (p : Z) :
  p ∈ idx → (Z.of_nat (length row) ≤ p)%Z →
  gather row idx = Raise IndexError.
Proof.
  intros Hp Hbeyond. unfold gather.
  induction idx as [|q idx IH]; [by apply elem_of_nil in Hp|].
  cbn [map_result].
  destruct (np_get_Ok_or_IndexError row q) as [[x Hq]|Hq]; rewrite Hq; [|done].
  apply elem_of_cons in Hp as [->|Hp].
  - unfold np_get in Hq. by rewrite np_index_beyond in Hq.
  - simpl. by rewrite IH.
Qed.

(** X27.  A sire number beyond the animal count is a fatal error of
    [__compute_DRPs__]: the average reliability of the sire is looked up
    outside the array and numpy raises [IndexError]. *)
Theorem compute_DRPs_unknown_sire {F} `{Number F} (sires dams : list Z)
    (avg_RELs : tensor3 F) (avg_heritabilities : matrix F) (EBVs : tensor4 F)
    (L T n : nat) (lactation trait p : Z) (st : deregressed F) :
  shape3 L T n avg_RELs →
  (0 ≤ lactation < Z.of_nat L)%Z → (0 ≤ trait < Z.of_nat T)%Z →
  p ∈ sires → (Z.of_nat n < p)%Z →
  compute_DRPs sires dams avg_RELs avg_heritabilities EBVs lactation trait st
  = Raise IndexError.
Proof.
  intros Hrel Hl Ht Hp Hbeyond. unfold compute_DRPs.
  destruct (shape3_row L T n avg_RELs (Z.to_nat lactation) (Z.to_nat trait) Hrel)
    as (rel & Hcell & Hlen); [lia|lia|].
  rewrite (getrow3_nonneg avg_RELs _ _ rel) by (lia || done). simpl.
  rewrite (gather_raises rel (parents sires) (p - 1)); [done| |lia].
  unfold parents. apply list_elem_of_fmap. by exists p.
Qed.

Lemma compute_DRPs_unknown_sire_witness :
  compute_DRPs [3%Z; 0%Z] drp_dams drp_avg_RELs drp_avg_heritabilities drp_EBVs
    0 0 drp_state
  = Raise IndexError.
Proof.
  apply (compute_DRPs_unknown_sire [3%Z; 0%Z] drp_dams drp_avg_RELs
           drp_avg_heritabilities drp_EBVs 1 1 2 0 0 3).
  - repeat constructor.
  - lia.
  - lia.
  - apply list_elem_of_here.
  - lia.
Defined.
